(** * feedly_asset_sync: the reconciliation engine of [main.py]

    A shallow embedding of [sync_to_feedly], [_add_entries_to_feedly] and
    [_create_new_feedly_list], and the properties of the packing algorithm;
    then of [process_entries], of the paging loop of [fetch_jira_data], of
    [fetch_feedly_data] and of [main], which ties them together.

    - JSON dictionaries become records whose fields are optional: indexing
      [d["k"]] on an absent key raises [KeyError], [d.get("k", dflt)] does not.
    - [feedly_data] is a list of mutable dictionaries; [existing_lists] holds
      references into it.  The store is a [list item], a reference is a
      position in it, and [item["entities"].extend(..)] is an insert at that
      position, so that a list shared by two object types is the same list.
    - Python sets of names are [gset string]; the order in which [list(s)]
      enumerates a set is left open (class [SetOrder]).
    - [jira_data] is the dictionary in insertion order, a list of pairs.
      The keys of a dictionary are distinct; where a statement depends on
      it, it says so.
    - The observable effects (PUT, POST, [time.sleep], and the payload
      rendering of test mode) are collected in a trace. *)

From stdpp Require Import base option list sets gmap strings pretty.
From Stdlib Require Import ZArith Lia.



(** ** Data model *)

(** An entity dictionary.  The code reads it with [entity.get("text")] only
    and writes [{"type": "customKeyword", "text": name}]. *)
Record entity := Entity {
  etype : option string;
  text : option string
}.

(** A destination list as returned by the Feedly API. *)
Record item := Item {
  item_id : option string;
  item_label : option string;
  item_entities : option (list entity)
}.

Global Instance entity_eq_dec : EqDecision entity.
Proof. solve_decision. Defined.
Global Instance item_eq_dec : EqDecision item.
Proof. solve_decision. Defined.

(** The exceptions the code can raise on such data; [sync_to_feedly] catches
    them at its top level. *)
Inductive exn :=
| KeyError (key : string).

(** Request payloads.  [ref] is the position of the item whose ["entities"]
    list the PUT payload aliases; the constant ["type": "customTopic"] is
    left out. *)
Inductive payload :=
| UpdateList (ref : nat) (id label : string) (entities : list entity)
| CreateList (label : string) (entities : list entity).

Inductive effect :=
| LogInfo (p : payload)   (* test mode: logger.info(json.dumps(payload)) *)
| Put (p : payload)       (* requests.put, inside _update_feedly_list *)
| Post (p : payload)      (* requests.post *)
| Sleep (secs : nat).     (* time.sleep *)

Inductive status :=
| Normal
| Raised (e : exn)
| OutOfFuel.

(** The mutable objects the functions share. *)
Record state := State {
  store : list item;              (* feedly_data and the items in it *)
  new_entries : gset string;      (* the set passed down by reference *)
  list_counts : gmap string nat;
  trace : list effect
}.

(** What a run of [sync_to_feedly] leaves behind. *)
Record report := Report {
  r_status : status;
  r_store : list item;
  r_counts : gmap string nat;
  r_trace : list effect
}.

(** ** Set iteration order

    [list(s)] enumerates a Python set without repetition, in an order the
    language does not fix. *)
Class SetOrder := {
  enum : gset string → list string;
  enum_perm : ∀ s, enum s ≡ₚ elements s
}.

(** One possible order. *)
Global Program Instance elements_order : SetOrder := {| enum := elements |}.
Next Obligation. done. Qed.

(** ** Helpers of the embedding *)

(** [s.startswith(p)] *)
Fixpoint startswith (s p : string) : bool :=
  match p, s with
  | EmptyString, _ => true
  | String c p', String d s' => if decide (c = d) then startswith s' p' else false
  | String _ _, EmptyString => false
  end.

(** [{entity.get("text") for entity in item.get("entities", [])}], as far as
    it matters to a set of names: an entity without text contributes [None],
    which no name equals. *)
Definition texts (it : item) : gset string :=
  list_to_set (omap text (default [] (item_entities it))).

(** [{"type": "customKeyword", "text": name}] *)
Definition keyword (name : string) : entity :=
  Entity (Some "customKeyword") (Some name).

Definition with_entities (it : item) (ents : list entity) : item :=
  Item (item_id it) (item_label it) (Some ents).

Definition payload_entities (p : payload) : list entity :=
  match p with
  | UpdateList _ _ _ es => es
  | CreateList _ es => es
  end.

(** The write intents behind a trace, in order, whether rendered or sent. *)
Fixpoint intents (tr : list effect) : list payload :=
  match tr with
  | [] => []
  | LogInfo p :: tr' => p :: intents tr'
  | Put p :: tr' => p :: intents tr'
  | Post p :: tr' => p :: intents tr'
  | Sleep _ :: tr' => intents tr'
  end.

Definition is_create (p : payload) : bool :=
  match p with CreateList _ _ => true | UpdateList _ _ _ _ => false end.

Definition creates (tr : list effect) : list payload :=
  filter (λ p, is_create p = true) (intents tr).

Definition create_labels (tr : list effect) : list string :=
  omap (λ p, match p with CreateList l _ => Some l | _ => None end) (intents tr).

Definition update_targets (tr : list effect) : list nat :=
  omap (λ p, match p with UpdateList i _ _ _ => Some i | _ => None end) (intents tr).

Section Engine.
Context {order : SetOrder}.

(** ** [_create_new_feedly_list] *)
Definition _create_new_feedly_list (object_type : string) (test_mode : bool)
    (s : state) : status * state :=
  match list_counts s !! object_type with
  | None => (Raised (KeyError object_type), s)
  | Some c =>
    let counts := <[object_type := S c]> (list_counts s) in
    let new_label := object_type +:+ "-" +:+ pretty (S c) in
    let to_add := take 50 (enum (new_entries s)) in
    let p := CreateList new_label (keyword <$> to_add) in
    let effs := if test_mode then [LogInfo p] else [Post p; Sleep 1] in
    (Normal,
     State (store s) (new_entries s ∖ list_to_set to_add) counts
           (trace s ++ effs))
  end.

(** ** The [for item in existing_lists] loop of [_add_entries_to_feedly] *)
Inductive scanned :=
| Added (s : state)            (* left by [break], with [added = True] *)
| NotAdded                     (* ran to the end, nothing touched *)
| Failed (e : exn) (s : state).

Fixpoint scan (existing_lists : list nat) (test_mode : bool) (s : state)
    : scanned :=
  match existing_lists with
  | [] => NotAdded
  | i :: rest =>
    match store s !! i with
    | None => scan rest test_mode s      (* a reference always resolves *)
    | Some it =>
      match item_entities it with
      | None => Failed (KeyError "entities") s
      | Some ents =>
        if decide (length ents < 50) then
          let current_entities := texts it in
          let to_add := enum (new_entries s ∖ current_entities) in
          if decide (to_add = []) then scan rest test_mode s
          else
            let space_left := 50 - length ents in
            let to_add := take space_left to_add in
            let ents' := ents ++ (keyword <$> to_add) in
            let store' := <[i := with_entities it ents']> (store s) in
            match item_id it, item_label it with
            | None, _ =>
              Failed (KeyError "id")
                     (State store' (new_entries s) (list_counts s) (trace s))
            | Some _, None =>
              Failed (KeyError "label")
                     (State store' (new_entries s) (list_counts s) (trace s))
            | Some id, Some label =>
              let p := UpdateList i id label ents' in
              let effs :=
                if test_mode then [LogInfo p] else [Put p; Sleep 1] in
              Added (State store' (new_entries s ∖ list_to_set to_add)
                           (list_counts s) (trace s ++ effs))
            end
        else scan rest test_mode s
      end
    end
  end.

(** One turn of [while new_entries:], entered with [new_entries] nonempty. *)
Definition iteration (existing_lists : list nat) (object_type : string)
    (test_mode : bool) (s : state) : status * state :=
  match scan existing_lists test_mode s with
  | Added s' => (Normal, s')
  | Failed e s' => (Raised e, s')
  | NotAdded =>
    (* if not added and new_entries: *)
    if decide (new_entries s = ∅) then (Normal, s)
    else _create_new_feedly_list object_type test_mode s
  end.

Fixpoint while_new_entries (fuel : nat) (existing_lists : list nat)
    (object_type : string) (test_mode : bool) (s : state) : status * state :=
  if decide (new_entries s = ∅) then (Normal, s)
  else
    match fuel with
    | 0 => (OutOfFuel, s)
    | S fuel' =>
      match iteration existing_lists object_type test_mode s with
      | (Normal, s') =>
        while_new_entries fuel' existing_lists object_type test_mode s'
      | r => r
      end
    end.

(** ** [_add_entries_to_feedly]

    The loop is given as many turns as there are names to place;
    [while_fuel] and [while_fuel_irrelevant] show that no more are ever
    needed and that more change nothing. *)
Definition _add_entries_to_feedly (existing_lists : list nat)
    (object_type : string) (test_mode : bool) (s : state) : status * state :=
  while_new_entries (size (new_entries s)) existing_lists object_type
                    test_mode s.

(** ** [sync_to_feedly] *)

(** The dictionary comprehension [feedly_entities]: [item["label"]] raises
    on the first item without a label. *)
Fixpoint feedly_entities_from (acc : gmap string (gset string))
    (feedly_data : list item) : exn + gmap string (gset string) :=
  match feedly_data with
  | [] => inr acc
  | it :: rest =>
    match item_label it with
    | None => inl (KeyError "label")
    | Some l => feedly_entities_from (<[l := texts it]> acc) rest
    end
  end.

Definition feedly_entities (feedly_data : list item)
    : exn + gmap string (gset string) :=
  feedly_entities_from ∅ feedly_data.

(** [len([label for label in feedly_entities if label.startswith(t)])] *)
Definition count_lists (fe : gmap string (gset string)) (object_type : string)
    : nat :=
  length (filter (λ l, startswith l object_type = true)
                 (elements (dom fe))).

(** [{object_type: .. for object_type in jira_data}] *)
Definition initial_counts (fe : gmap string (gset string))
    (jira_data : list (string * list string)) : gmap string nat :=
  foldl (λ m kv, <[kv.1 := count_lists fe kv.1]> m) ∅ jira_data.

(** [[item for item in feedly_data if item["label"].startswith(t)]], as
    positions from [k] on. *)
Fixpoint select_existing (k : nat) (feedly_data : list item)
    (object_type : string) : exn + list nat :=
  match feedly_data with
  | [] => inr []
  | it :: rest =>
    match item_label it with
    | None => inl (KeyError "label")
    | Some l =>
      match select_existing (S k) rest object_type with
      | inl e => inl e
      | inr idxs =>
        inr (if startswith l object_type then k :: idxs else idxs)
      end
    end
  end.

(** [new_entries = set(names)], then [new_entries -= current_entities] for
    every existing list. *)
Definition missing (existing_lists : list nat) (names : list string)
    (st : list item) : gset string :=
  foldl (λ acc i, acc ∖ from_option texts ∅ (st !! i))
        (list_to_set names) existing_lists.

(** The body of [for object_type, names in jira_data.items()]. *)
Definition sync_type (object_type : string) (names : list string)
    (test_mode : bool) (s : state) : status * state :=
  match select_existing 0 (store s) object_type with
  | inl e => (Raised e, s)
  | inr existing_lists =>
    _add_entries_to_feedly existing_lists object_type test_mode
      (State (store s) (missing existing_lists names (store s))
             (list_counts s) (trace s))
  end.

Fixpoint for_types (jira_data : list (string * list string))
    (test_mode : bool) (s : state) : status * state :=
  match jira_data with
  | [] => (Normal, s)
  | (object_type, names) :: rest =>
    match sync_type object_type names test_mode s with
    | (Normal, s') => for_types rest test_mode s'
    | r => r
    end
  end.

Definition sync_to_feedly (jira_data : list (string * list string))
    (feedly_data : list item) (test_mode : bool) : report :=
  match feedly_entities feedly_data with
  | inl e => Report (Raised e) feedly_data ∅ []
  | inr fe =>
    let '(st, s) :=
      for_types jira_data test_mode
        (State feedly_data ∅ (initial_counts fe jira_data) []) in
    Report st (store s) (list_counts s) (trace s)
  end.

End Engine.

(** ** Names used in the statements *)

(** The effects of one write intent: rendered in test mode, sent and followed
    by the pause otherwise. *)
Definition send (p : payload) : effect :=
  if is_create p then Post p else Put p.

Definition dispatch (test_mode : bool) (p : payload) : list effect :=
  if test_mode then [LogInfo p] else [send p; Sleep 1].

(** A list the scan passes over: it is full, or holds every name still
    missing. *)
Definition skipped (s : state) (i : nat) : Prop :=
  match store s !! i with
  | None => True
  | Some it =>
    ∃ ents, item_entities it = Some ents ∧
            (50 ≤ length ents ∨ new_entries s ⊆ texts it)
  end.

Section Steps.
Context {order : SetOrder}.

(** The names an update appends to the item [it], and the state it leaves. *)
Definition to_pack (s : state) (it : item) (ents : list entity) : list string :=
  take (50 - length ents) (enum (new_entries s ∖ texts it)).

Definition packed (i : nat) (it : item) (ents : list entity)
    (id label : string) (test_mode : bool) (s : state) : state :=
  let ents' := ents ++ (keyword <$> to_pack s it ents) in
  State (<[i := with_entities it ents']> (store s))
        (new_entries s ∖ list_to_set (to_pack s it ents))
        (list_counts s)
        (trace s ++ dispatch test_mode (UpdateList i id label ents')).

Definition to_create (s : state) : list string :=
  take 50 (enum (new_entries s)).

Definition created (object_type : string) (c : nat) (test_mode : bool)
    (s : state) : state :=
  State (store s) (new_entries s ∖ list_to_set (to_create s))
        (<[object_type := S c]> (list_counts s))
        (trace s ++ dispatch test_mode
           (CreateList (object_type +:+ "-" +:+ pretty (S c))
                       (keyword <$> to_create s))).

End Steps.

(** The text values of a list's entities, as [entity.get("text")] reads
    them, are pairwise distinct. *)
Definition distinct_texts (it : item) : Prop :=
  NoDup (text <$> default [] (item_entities it)).

(** What C8 asks of an intent: distinct text values, for an update provided
    the list it comes from (position [ref] of the snapshot, same id and
    label) had distinct text values to begin with. *)
Definition duplicate_free (snapshot : list item) (p : payload) : Prop :=
  match p with
  | CreateList _ es => NoDup (text <$> es)
  | UpdateList i id label es =>
    ∃ it0, snapshot !! i = Some it0 ∧
           item_id it0 = Some id ∧ item_label it0 = Some label ∧
           (distinct_texts it0 → NoDup (text <$> es))
  end.

(** Two states that differ at most in the store. *)
Definition agree_but_store (s1 s2 : state) : Prop :=
  new_entries s1 = new_entries s2 ∧ list_counts s1 = list_counts s2 ∧
  trace s1 = trace s2.

(** The store keeps the identity of the snapshot's lists, and a list that
    started with distinct texts still has distinct texts. *)
Definition store_keeps (snapshot : list item) (s : state) : Prop :=
  ∀ i it, store s !! i = Some it →
    ∃ it0, snapshot !! i = Some it0 ∧ item_id it0 = item_id it ∧
           item_label it0 = item_label it ∧
           (distinct_texts it0 → distinct_texts it).

(** A list belongs to an object type when its label starts with the type's
    name. *)
Definition belongs (object_type : string) (it : item) : bool :=
  match item_label it with
  | Some l => startswith l object_type
  | None => false
  end.

(** A record that carries the three keys the engine indexes. *)
Definition well_formed (it : item) : Prop :=
  is_Some (item_id it) ∧ is_Some (item_label it) ∧ is_Some (item_entities it).

(** The shape of the intents of one object type: an update is followed by
    further intents only if it leaves its list with 50 entities, and a
    create is followed by creates only. *)
Fixpoint run_shape (ps : list payload) : Prop :=
  match ps with
  | [] => True
  | UpdateList _ _ _ es :: rest => (length es = 50 ∨ rest = []) ∧ run_shape rest
  | CreateList _ _ :: rest => Forall (λ p, is_create p = true) rest
  end.

Definition all_full (ps : list payload) : Prop :=
  Forall (λ p, is_create p = false → length (payload_entities p) = 50) ps.

(** The missing names are in none of the lists of the type at hand
    ([sync_to_feedly] has removed every text of those lists). *)
Definition disjoint_from_existing (existing : list nat) (s : state) : Prop :=
  ∀ i it, i ∈ existing → store s !! i = Some it → new_entries s ## texts it.

(** During the reconciliation of a type: [existing_lists] still selects the
    lists of that type, and the missing names are in none of them. *)
Definition reconciling (object_type : string) (existing : list nat)
    (s : state) : Prop :=
  select_existing 0 (store s) object_type = inr existing ∧
  disjoint_from_existing existing s.

(** A list that takes no further update: it is full, or nothing is missing. *)
Definition settled (s : state) (i : nat) : Prop :=
  ∃ it ents, store s !! i = Some it ∧ item_entities it = Some ents ∧
             (50 ≤ length ents ∨ new_entries s = ∅).

(** What the run of one object type has emitted since the trace [t0]. *)
Definition update_discipline (existing : list nat) (t0 : list effect)
    (s : state) : Prop :=
  ∃ tr, trace s = t0 ++ tr ∧ NoDup (update_targets tr) ∧
    (∀ i, i ∈ update_targets tr → i ∈ existing ∧ settled s i) ∧
    (creates tr ≠ [] → Forall (skipped s) existing) ∧
    run_shape (intents tr) ∧ (new_entries s ≠ ∅ → all_full (intents tr)).

(** The k-th label synthesized for a type whose count stood at [c]. *)
Definition nth_label (object_type : string) (c k : nat) : string :=
  object_type +:+ "-" +:+ pretty (c + k).

(** The labels created for a type since the trace [t0], the count having
    been [c] then. *)
Definition naming (object_type : string) (c : nat) (t0 : list effect)
    (s : state) : Prop :=
  ∃ tr, trace s = t0 ++ tr ∧
    list_counts s !! object_type = Some (c + length (create_labels tr)) ∧
    create_labels tr
    = nth_label object_type c <$> seq 1 (length (create_labels tr)).

(** ** The creation count of the specification

    These definitions follow the words of the specification ("minimal
    new-list creation"), not the code. *)

Definition entries (it : item) : list entity := default [] (item_entities it).

(** [existing]: the lists whose label starts with the type name. *)
Definition existing_of (object_type : string) (snapshot : list item) : list item :=
  filter (λ it, belongs object_type it = true) snapshot.

(** [missing = names - have], [have] the union of the entry texts over
    [existing]. *)
Definition missing_of (object_type : string) (names : list string)
    (snapshot : list item) : gset string :=
  list_to_set names ∖ ⋃ (texts <$> existing_of object_type snapshot).

(** The sum over [existing] of [max(0, 50 - len(entries))]. *)
Definition totalSpareCapacity (existing : list item) : Z :=
  foldr (λ it acc, (Z.max 0 (50 - Z.of_nat (length (entries it))) + acc)%Z)
        0%Z existing.

(** [ceil(a / b)] for [b > 0]. *)
Definition ceil_div (a b : Z) : Z := ((a + b - 1) / b)%Z.

Definition expected_creates (object_type : string) (names : list string)
    (snapshot : list item) : Z :=
  ceil_div
    (Z.max 0 (Z.of_nat (size (missing_of object_type names snapshot))
              - totalSpareCapacity (existing_of object_type snapshot)))
    50.

(** The same count over [nat], for the proofs. *)
Definition room (it : item) : nat := 50 - length (entries it).

Definition spare (object_type : string) (st : list item) : nat :=
  sum_list_with room (existing_of object_type st).

Definition ceil50 (n : nat) : nat := (n + 49) / 50.

(** Nothing in the store or in the counts can make the turn of this type
    raise. *)
Definition safe (object_type : string) (s : state) : Prop :=
  Forall well_formed (store s) ∧ is_Some (list_counts s !! object_type).

(** The creates emitted since [t0] and those still to come add up to [N]. *)
Definition counting (object_type : string) (N : nat) (t0 : list effect)
    (s : state) : Prop :=
  ∃ tr, trace s = t0 ++ tr ∧
    length (creates tr)
    + ceil50 (size (new_entries s) - spare object_type (store s)) = N.

(** Nothing can make the run over the types of [jira_data] raise. *)
Definition safe_all (jira_data : list (string * list string)) (s : state) : Prop :=
  Forall well_formed (store s) ∧
  ∀ T, T ∈ jira_data.*1 → is_Some (list_counts s !! T).

(** ** The destination

    Modelled from the spec: the write side of the destination system, which
    is not code of this repository (sections 4.3 and 6): an update is a full
    replace of the label and entries of the list with the given id, a create
    adds a list with the given label and entries, under an id the
    destination chooses ([new_id]). *)
Definition apply_intent (new_id : list item → option string)
    (dest : list item) (p : payload) : list item :=
  match p with
  | UpdateList _ id label es =>
    (λ it, if decide (item_id it = Some id)
           then Item (Some id) (Some label) (Some es) else it) <$> dest
  | CreateList label es => dest ++ [Item (new_id dest) (Some label) (Some es)]
  end.

Definition apply_intents (new_id : list item → option string)
    (dest : list item) (ps : list payload) : list item :=
  foldl (apply_intent new_id) dest ps.

(** The destination never hands out an id that is in use. *)
Definition fresh_ids (new_id : list item → option string) : Prop :=
  ∀ dest x, new_id dest = Some x → Some x ∉ item_id <$> dest.

(** The name [L] of type [T] is in a list of the store with a label of that
    type, or in a list created with such a label. *)
Definition covered_by (T L : string) (st : list item) (tr : list effect) : Prop :=
  (∃ it, it ∈ st ∧ belongs T it = true ∧ L ∈ texts it)
  ∨ (∃ l es, CreateList l es ∈ intents tr ∧ startswith l T = true ∧
             L ∈ omap text es).

(** The store, followed by the lists created so far, is the snapshot with
    the intents applied. *)
Definition linked (new_id : list item → option string) (snapshot : list item)
    (s : state) : Prop :=
  ∃ made, apply_intents new_id snapshot (intents (trace s)) = store s ++ made ∧
    item_id <$> store s = item_id <$> snapshot ∧
    Forall (λ c, item_id c ∉ item_id <$> snapshot) made ∧
    Forall (λ c, is_Some (item_label c)) made ∧
    ∀ l es, CreateList l es ∈ intents (trace s) →
            ∃ c, c ∈ made ∧ item_label c = Some l ∧ item_entities c = Some es.

(** ** Example inputs *)

Definition fifty_entries : list entity := replicate 50 (Entity None (Some "k")).

(** A full list labelled ["A-2"], the only list of type ["A"]. *)
Definition lone_list : list item :=
  [Item (Some "id-2") (Some "A-2") (Some fifty_entries)].

(** A list without a label. *)
Definition unlabelled_list : list item := [Item (Some "id-1") None (Some [])].

(** The list "Server-1" with 49 entries, one short of the capacity. *)
Definition nearly_full : list item :=
  [Item (Some "id-1") (Some "Server-1")
        (Some (replicate 49 (Entity None (Some "k"))))].

(** An id allocator for the examples: longer than every id in use. *)
Definition longer_id (dest : list item) : option string :=
  Some (foldr (λ it acc, default "" (item_id it) +:+ acc) "!" dest).

(** A list of type "A" that has room but no id, and three types of which
    "AB" comes first. *)
Definition nameless_list : list item := [Item None (Some "A-1") (Some [])].

Definition three_types : list (string * list string) :=
  [("AB", ["x"]); ("A", ["x"]); ("C", ["y"])].

(** The state in which [sync_to_feedly] starts on [three_types] and
    [nameless_list]. *)
Definition three_types_start : state :=
  State nameless_list ∅ {["AB" := 0; "A" := 1; "C" := 0]} [].


(** No type reconciled before the one at hand. *)
Definition no_types : list (string * list string) := [].

(** One list, labelled "AB-1", one short of the capacity; it belongs to
    type "A" and to type "AB". *)
Definition shared_list : list item :=
  [Item (Some "id-1") (Some "AB-1")
        (Some (replicate 49 (Entity None (Some "k"))))].

Definition two_types : list (string * list string) :=
  [("A", ["x"]); ("AB", ["y"])].

(** The 120 labels of the second scenario of the specification. *)
Definition asset_names : list string :=
  (λ n : nat, "asset-" +:+ pretty n) <$> seq 0 120.

(** Label and number of entities of an intent. *)
Definition summary (p : payload) : string * nat :=
  match p with
  | UpdateList _ _ label es => (label, length es)
  | CreateList label es => (label, length es)
  end.

(** ** The source side: [process_entries] and [fetch_jira_data] *)

(** The ["objectType"] dictionary of a Jira object, read with [.get("name")]. *)
Record object_type_dict := ObjectTypeDict {
  ot_name : option string
}.

(** A Jira object, read with [entry.get("objectType", {})] and
    [entry.get("label")]. *)
Record jira_entry := JiraEntry {
  objectType : option object_type_dict;
  entry_label : option string
}.

(** Truth value of an optional string, as [if x:] and [if not x:] see it:
    [None] and the empty string are false. *)
Definition truthy (x : option string) : option string :=
  match x with
  | Some s => if decide (s = "") then None else Some s
  | None => None
  end.

(** [entry.get("objectType", {}).get("name")] *)
Definition object_type_name (entry : jira_entry) : option string :=
  from_option ot_name None (objectType entry).

(** [d.setdefault(k, []).append(v)] on a dictionary kept in insertion
    order. *)
Fixpoint setdefault_append (k v : string) (d : list (string * list string))
    : list (string * list string) :=
  match d with
  | [] => [(k, [v])]
  | (k', vs) :: rest =>
    if decide (k' = k) then (k', vs ++ [v]) :: rest
    else (k', vs) :: setdefault_append k v rest
  end.

(** The body of [for entry in entries]; the warnings are not recorded. *)
Definition process_entry (object_type_lists : list (string * list string))
    (entry : jira_entry) : list (string * list string) :=
  match truthy (object_type_name entry) with
  | None => object_type_lists                       (* continue *)
  | Some name =>
    match truthy (entry_label entry) with
    | Some label_value => setdefault_append name label_value object_type_lists
    | None => object_type_lists
    end
  end.

(** [process_entries]; the early return on an empty list is the fold over
    no entry. *)
Definition process_entries (entries : list jira_entry)
    : list (string * list string) :=
  foldl process_entry [] entries.

(** The type and label an entry contributes, if it contributes. *)
Definition contribution (entry : jira_entry) : option (string * string) :=
  match truthy (object_type_name entry), truthy (entry_label entry) with
  | Some name, Some label_value => Some (name, label_value)
  | _, _ => None
  end.

(** The labels the entries contribute to one type, in order. *)
Definition labels_of (T : string) (entries : list jira_entry) : list string :=
  omap (λ entry, match contribution entry with
                 | Some (name, l) => if decide (name = T) then Some l else None
                 | None => None
                 end) entries.

(** The value stored under a key, [None] when the key is absent. *)
Fixpoint dict_get (k : string) (d : list (string * list string))
    : option (list string) :=
  match d with
  | [] => None
  | (k', vs) :: rest => if decide (k' = k) then Some vs else dict_get k rest
  end.

(** One page of the answer of the Jira query, read with
    [data.get("objectEntries", [])], [data.get("pageNumber", 1)] and
    [data.get("pageSize", 1)]. *)
Record page := Page {
  objectEntries : option (list jira_entry);
  pageNumber : option Z;
  pageSize : option Z
}.

(** The entries a request for page [p] adds, the server answering
    [server p]: [None] stands for a [requests.RequestException] (raised by
    [requests.get] or by [raise_for_status]). *)
Definition page_entries (server : nat → option page) (p : nat) : list jira_entry :=
  match server p with
  | Some data => default [] (objectEntries data)
  | None => []
  end.

(** The loop [while True] of [fetch_jira_data], on fuel; [requested]
    records the pages asked for. *)
Fixpoint fetch_pages (fuel : nat) (server : nat → option page)
    (current_page : nat) (all_entries : list jira_entry) (requested : list nat)
    : option (list jira_entry * list nat) :=
  match fuel with
  | 0 => None
  | S fuel' =>
    let requested := requested ++ [current_page] in
    match server current_page with
    | None => Some (all_entries, requested)               (* break *)
    | Some data =>
      let object_entries := default [] (objectEntries data) in
      let all_entries := all_entries ++ object_entries in
      let page_number := default 1%Z (pageNumber data) in
      let total_pages := default 1%Z (pageSize data) in
      if decide (page_number >= total_pages)%Z
      then Some (all_entries, requested)                  (* break *)
      else fetch_pages fuel' server (S current_page) all_entries requested
    end
  end.

Definition fetch_jira_data (fuel : nat) (server : nat → option page)
    : option (list jira_entry * list nat) :=
  fetch_pages fuel server 1 [] [].

(** The request for page [p] is the last one: it fails, or the answer has
    [pageNumber >= pageSize]. *)
Definition last_request (server : nat → option page) (p : nat) : bool :=
  match server p with
  | None => true
  | Some data =>
    bool_decide (default 1 (pageNumber data) >= default 1 (pageSize data))%Z
  end.

(** Servers for the examples: three pages of one object each, reported as
    pages 1, 2, 3 of 3; the same with the second request failing; and a
    server that always reports page 1 of 2. *)
Definition one_object (p : nat) : list jira_entry :=
  [JiraEntry (Some (ObjectTypeDict (Some "Server"))) (Some ("web-" +:+ pretty p))].

Definition three_pages (p : nat) : option page :=
  if decide (1 ≤ p ≤ 3)
  then Some (Page (Some (one_object p)) (Some (Z.of_nat p)) (Some 3%Z))
  else None.

Definition second_fails (p : nat) : option page :=
  if decide (p = 2) then None else three_pages p.

Definition page_one_of_two (p : nat) : option page :=
  Some (Page (Some []) (Some 1%Z) (Some 2%Z)).

(** ** What a run leaves of the destination lists *)

(** The item [b] is the item [a] with keyword entities appended, their
    names satisfying [allowed]; id and label are the same. *)
Definition grows (allowed : string → Prop) (a b : item) : Prop :=
  item_id b = item_id a ∧ item_label b = item_label a ∧
  match item_entities a with
  | None => item_entities b = None
  | Some ents =>
    ∃ added, item_entities b = Some (ents ++ (keyword <$> added)) ∧
             Forall allowed added
  end.

(** An update payload carries every entity its list had in the snapshot,
    in the same order, followed by keyword entities. *)
Definition full_replace (snapshot : list item) (p : payload) : Prop :=
  match p with
  | CreateList _ es => ∃ added, es = keyword <$> added
  | UpdateList i _ _ es =>
    ∃ it0 ents0 added, snapshot !! i = Some it0 ∧
      item_entities it0 = Some ents0 ∧ es = ents0 ++ (keyword <$> added)
  end.

(** The names of the entities a list has gained since it was [old], and
    those gained by the lists of a store since it was [st0]. *)
Definition gained_by (old new : item) : list string :=
  omap text (drop (length (entries old)) (entries new)).

Definition gained (st0 st : list item) : list string :=
  concat (zip_with gained_by st0 st).

(** The names sent in the creates of a trace. *)
Definition created_names (tr : list effect) : list string :=
  creates tr ≫= λ p, omap text (payload_entities p).

(** Since the trace [t0] and the store [st0], the names written to the
    lists, those sent in creates and those still missing are the names of
    [M], each of them once. *)
Definition placing (M : gset string) (t0 : list effect) (st0 : list item)
    (s : state) : Prop :=
  ∃ tr, trace s = t0 ++ tr ∧
    Forall2 (grows (λ _, True)) st0 (store s) ∧
    gained st0 (store s) ++ created_names tr ++ elements (new_entries s)
    ≡ₚ elements M.

(** With nothing at the destination: only creates since [t0], and those
    still to come make [N] with them. *)
Definition creating (N : nat) (t0 : list effect) (s : state) : Prop :=
  store s = [] ∧
  ∃ tr, trace s = t0 ++ tr ∧
    Forall (λ p, is_create p = true) (intents tr) ∧
    length (intents tr) + ceil50 (size (new_entries s)) = N.

(** The count of a type stands at [c] plus the creates since [t0]; the
    other counts are those of [counts0]. *)
Definition accounting (object_type : string) (c : nat)
    (counts0 : gmap string nat) (t0 : list effect) (s : state) : Prop :=
  ∃ tr, trace s = t0 ++ tr ∧
    list_counts s = <[object_type := c + length (creates tr)]> counts0.

(** [set(names)], the distinct labels of a type. *)
Definition names_set (names : list string) : gset string := list_to_set names.

(** Two states that agree on everything but the way the intents show in
    the trace (rendered or sent). *)
Definition same_intents (s1 s2 : state) : Prop :=
  store s1 = store s2 ∧ new_entries s1 = new_entries s2 ∧
  list_counts s1 = list_counts s2 ∧
  intents (trace s1) = intents (trace s2).

Definition same_outcome (r1 r2 : status * state) : Prop :=
  r1.1 = r2.1 ∧ same_intents r1.2 r2.2.

(** States for the examples: the turn of "Server" on [nearly_full], and
    the turn of "A" on [lone_list]. *)
Definition server_turn : state := State nearly_full ∅ {["Server" := 1]} [].

Definition lone_turn : state := State lone_list ∅ {["A" := 1]} [].

(** ** [fetch_feedly_data] and [main] *)

(** [fetch_feedly_data]: the parsed answer, or the empty list when the
    request raises ([None]). *)
Definition fetch_feedly_data (response : option (list item)) : list item :=
  match response with
  | Some data => data
  | None => []
  end.

(** What [load_config] raises. *)
Inductive config_failure :=
| FileNotFound      (* FileNotFoundError *)
| InvalidJson.      (* ValueError, from json.JSONDecodeError *)

(** How [main] ends. *)
Inductive main_outcome :=
| ConfigFailure (f : config_failure)   (* logged by an except clause *)
| MissingConfigKey (key : string)      (* KeyError on config[key] *)
| Synced.                              (* sync_to_feedly was called *)

(** What [main] has done: the Jira pages asked for, whether Feedly was
    asked for its lists, and the report of [sync_to_feedly] if it ran. *)
Record main_report := MainReport {
  m_outcome : main_outcome;
  m_jira_requests : list nat;
  m_feedly_requested : bool;
  m_sync : option report
}.

(** The keys [main] reads, in the order of its assignments. *)
Definition config_keys : list string :=
  ["jira_url"; "aql_query"; "page_size"; "upload_url"; "jira_api_token";
   "api_key"].

(** The first of the keys that the configuration lacks. *)
Definition first_missing_key (config : gmap string string) : option string :=
  head (filter (λ k, config !! k = None) config_keys).

Section Main.
Context {order : SetOrder}.

(** [main].  The configuration is what [load_config] returns or raises;
    the two remote systems are given by their answers.  [None]: the fetch
    loop has not ended within [fuel] turns. *)
Definition main (config : config_failure + gmap string string) (fuel : nat)
    (server : nat → option page) (feedly_response : option (list item))
    : option main_report :=
  match config with
  | inl f => Some (MainReport (ConfigFailure f) [] false None)
  | inr config =>
    match first_missing_key config with
    | Some key => Some (MainReport (MissingConfigKey key) [] false None)
    | None =>
      match fetch_jira_data fuel server with
      | None => None
      | Some (jira_entries, requested) =>
        let jira_data := process_entries jira_entries in
        let feedly_data := fetch_feedly_data feedly_response in
        Some (MainReport Synced requested true
                (Some (sync_to_feedly jira_data feedly_data false)))
      end
    end
  end.

End Main.

(** A complete configuration, for the examples. *)
Definition full_config : gmap string string :=
  list_to_map ((λ k, (k, "...")) <$> config_keys).

(** Every element of a list is greater than those before it. *)
Definition increasing (l : list nat) : Prop :=
  ∀ pre i post, l = pre ++ i :: post → Forall (λ j, j < i) pre.

(** Since the trace [t0] the updates have gone through [existing] from
    left to right, and the lists up to the last one updated are passed
    over for good. *)
Definition in_order (existing : list nat) (t0 : list effect) (s : state) : Prop :=
  ∃ tr, trace s = t0 ++ tr ∧ increasing (update_targets tr) ∧
    ∀ j i, j ∈ update_targets tr → i ∈ existing → i ≤ j → skipped s i.

(** The labels of the lists created when nothing is at the destination:
    for each type in turn "T-1", ..., "T-k", with k = ceil(n / 50) and [n]
    the number of distinct labels of the type. *)
Definition labels_from_scratch (jira_data : list (string * list string))
    : list string :=
  jira_data ≫= λ kv,
    nth_label kv.1 0 <$> seq 1 (ceil50 (size (names_set kv.2))).

(** ** Two runs under different enumeration orders *)

(** Another possible order: [elements] backwards. *)
Definition reversed_order : SetOrder :=
  {| enum s := reverse (elements s);
     enum_perm s := reverse_Permutation (elements s) |}.

(** Two items that differ at most in the entities they hold, not in their
    number. *)
Definition same_shape (a b : item) : Prop :=
  item_id a = item_id b ∧ item_label a = item_label b ∧
  length <$> item_entities a = length <$> item_entities b.

(** Two intents of the same kind for the same list: the same target, id
    and label for an update, the same label for a create, and as many
    entities. *)
Definition alike (p q : payload) : Prop :=
  match p, q with
  | UpdateList i id label es, UpdateList j id' label' es' =>
    i = j ∧ id = id' ∧ label = label' ∧ length es = length es'
  | CreateList label es, CreateList label' es' =>
    label = label' ∧ length es = length es'
  | _, _ => False
  end.

Definition alike_states (s1 s2 : state) : Prop :=
  Forall2 same_shape (store s1) (store s2) ∧
  list_counts s1 = list_counts s2 ∧
  Forall2 alike (intents (trace s1)) (intents (trace s2)).

(** Two runs during the turn of a type: as many names are still missing
    in the one as in the other. *)
Definition in_step (object_type : string) (existing : list nat)
    (s1 s2 : state) : Prop :=
  alike_states s1 s2 ∧ size (new_entries s1) = size (new_entries s2) ∧
  reconciling object_type existing s1 ∧ reconciling object_type existing s2.

(** Two runs between the turns of two types, the types of [past] being
    dealt with: the lists of the other types are the same in both. *)
Definition in_run (past : list string) (s1 s2 : state) : Prop :=
  alike_states s1 s2 ∧
  ∀ i it, store s1 !! i = Some it →
    (∀ T, T ∈ past → belongs T it = false) → store s2 !! i = Some it.

(** No list belongs to two of the types. *)
Definition unshared (jira_data : list (string * list string))
    (feedly_data : list item) : Prop :=
  ∀ it T T', it ∈ feedly_data → T ∈ jira_data.*1 → T' ∈ jira_data.*1 →
    belongs T it = true → belongs T' it = true → T = T'.

(** ** The packing loop on its own *)



(** ** Facts about the embedding *)

Section EngineFacts.
Context {order : SetOrder}.

(** *** Enumeration of a set *)
Lemma enum_NoDup (X : gset string) : NoDup (enum X).
Proof. rewrite enum_perm. apply NoDup_elements. Qed.

Lemma elem_of_enum (X : gset string) x : x ∈ enum X ↔ x ∈ X.
Proof. rewrite enum_perm. apply elem_of_elements. Qed.

Lemma length_enum (X : gset string) : length (enum X) = size X.
Proof. by rewrite enum_perm. Qed.

Lemma enum_nil (X : gset string) : enum X = [] ↔ X = ∅.
Proof.
  split; intros HX.
  - apply leibniz_equiv, size_empty_inv. by rewrite <- length_enum, HX.
  - subst. apply length_zero_iff_nil. by rewrite length_enum, size_empty.
Qed.

Lemma take_enum_NoDup k (X : gset string) : NoDup (take k (enum X)).
Proof.
  pose proof (enum_NoDup X) as Hnd.
  rewrite <- (take_drop k (enum X)) in Hnd.
  by apply NoDup_app in Hnd as [? _].
Qed.

Lemma elem_of_take_enum k (X : gset string) x : x ∈ take k (enum X) → x ∈ X.
Proof.
  intros Hx. apply elem_of_enum.
  rewrite <- (take_drop k (enum X)). apply elem_of_app. by left.
Qed.

Lemma size_remove_taken k (X Y : gset string) :
  X ⊆ Y →
  size (Y ∖ list_to_set (take k (enum X))) = size Y - k `min` size X.
Proof.
  intros HXY.
  rewrite size_difference.
  - rewrite size_list_to_set by apply take_enum_NoDup.
    by rewrite length_take, length_enum.
  - intros x Hx. apply elem_of_list_to_set, elem_of_take_enum in Hx. auto.
Qed.

Lemma remove_taken_all k (X : gset string) :
  size X ≤ k → X ∖ list_to_set (take k (enum X)) = ∅.
Proof.
  intros Hk. rewrite take_ge by (rewrite length_enum; lia).
  apply set_eq; intros x.
  rewrite elem_of_difference, elem_of_list_to_set, elem_of_enum.
  rewrite elem_of_empty. tauto.
Qed.

(** *** Traces *)
Lemma intents_app tr1 tr2 : intents (tr1 ++ tr2) = intents tr1 ++ intents tr2.
Proof.
  induction tr1 as [|[] tr1 IH]; simpl; by rewrite ?IH.
Qed.

Lemma intents_dispatch tm p : intents (dispatch tm p) = [p].
Proof. by destruct tm, p. Qed.

(** *** What one scan does *)
Lemma scan_cases existing tm s :
  match scan existing tm s with
  | NotAdded => Forall (skipped s) existing
  | Added s' =>
    ∃ pre i post it ents id label,
      existing = pre ++ i :: post ∧ Forall (skipped s) pre ∧
      store s !! i = Some it ∧ item_entities it = Some ents ∧
      length ents < 50 ∧ new_entries s ∖ texts it ≠ ∅ ∧
      item_id it = Some id ∧ item_label it = Some label ∧
      s' = packed i it ents id label tm s
  | Failed e s' =>
    new_entries s' = new_entries s ∧ list_counts s' = list_counts s ∧
    trace s' = trace s ∧
    ∃ i it, i ∈ existing ∧ store s !! i = Some it ∧
            (item_entities it = None ∨ item_id it = None ∨ item_label it = None)
  end.
Proof.
  induction existing as [|i rest IH]; simpl; [by constructor|].
  assert (Hskip : skipped s i →
    match scan rest tm s with
    | NotAdded => Forall (skipped s) (i :: rest)
    | Added s' =>
      ∃ pre i0 post it ents id label,
        i :: rest = pre ++ i0 :: post ∧ Forall (skipped s) pre ∧
        store s !! i0 = Some it ∧ item_entities it = Some ents ∧
        length ents < 50 ∧ new_entries s ∖ texts it ≠ ∅ ∧
        item_id it = Some id ∧ item_label it = Some label ∧
        s' = packed i0 it ents id label tm s
    | Failed e s' =>
      new_entries s' = new_entries s ∧ list_counts s' = list_counts s ∧
      trace s' = trace s ∧
      ∃ i0 it, i0 ∈ i :: rest ∧ store s !! i0 = Some it ∧
        (item_entities it = None ∨ item_id it = None ∨ item_label it = None)
    end).
  { intros Hi. destruct (scan rest tm s) as [s'| |e s'].
    - destruct IH as (pre & i0 & post & it & ents & id & label & -> & ? & ?).
      exists (i :: pre), i0, post, it, ents, id, label.
      split; [done|]. split; [by constructor|done].
    - by constructor.
    - destruct IH as (? & ? & ? & i0 & it & ? & ?).
      repeat split; try done. exists i0, it. split; [by right|done]. }
  destruct (store s !! i) as [it|] eqn:Hit; [|apply Hskip; unfold skipped; by rewrite Hit].
  destruct (item_entities it) as [ents|] eqn:Hents.
  2:{ repeat split; try done. exists i, it. split; [by left|]. auto. }
  destruct (decide (length ents < 50)) as [Hlen|Hlen].
  2:{ apply Hskip. unfold skipped. rewrite Hit. exists ents. split; [done|]. left. lia. }
  destruct (decide (enum (new_entries s ∖ texts it) = [])) as [Hnil|Hnil].
  { apply Hskip. unfold skipped. rewrite Hit. exists ents. split; [done|]. right.
    apply enum_nil in Hnil. set_solver. }
  destruct (item_id it) as [id|] eqn:Hid.
  2:{ simpl. repeat split; try done. exists i, it. split; [by left|]. auto. }
  destruct (item_label it) as [label|] eqn:Hlabel.
  2:{ simpl. repeat split; try done. exists i, it. split; [by left|]. auto. }
  exists [], i, rest, it, ents, id, label.
  rewrite enum_nil in Hnil.
  by repeat split.
Qed.

End EngineFacts.

Section LoopFacts.
Context {order : SetOrder}.

(** *** What one turn of the while loop does *)
Lemma iteration_cases existing T tm s st s' :
  iteration existing T tm s = (st, s') → new_entries s ≠ ∅ →
  (∃ pre i post it ents id label,
      existing = pre ++ i :: post ∧ Forall (skipped s) pre ∧
      store s !! i = Some it ∧ item_entities it = Some ents ∧
      length ents < 50 ∧ new_entries s ∖ texts it ≠ ∅ ∧
      item_id it = Some id ∧ item_label it = Some label ∧
      st = Normal ∧ s' = packed i it ents id label tm s)
  ∨ (∃ c, Forall (skipped s) existing ∧ list_counts s !! T = Some c ∧
          st = Normal ∧ s' = created T c tm s)
  ∨ (∃ e, st = Raised e ∧ new_entries s' = new_entries s ∧
          list_counts s' = list_counts s ∧ trace s' = trace s ∧
          ((∃ i it, i ∈ existing ∧ store s !! i = Some it ∧
              (item_entities it = None ∨ item_id it = None
               ∨ item_label it = None))
           ∨ list_counts s !! T = None)).
Proof.
  unfold iteration. intros Hit Hne.
  pose proof (scan_cases existing tm s) as Hscan.
  destruct (scan existing tm s) as [s1| |e s1].
  - injection Hit as <- <-. left.
    destruct Hscan as (pre & i & post & it & ents & id & label & ?).
    exists pre, i, post, it, ents, id, label. intuition.
  - rewrite decide_False in Hit by done.
    unfold _create_new_feedly_list in Hit.
    destruct (list_counts s !! T) as [c|] eqn:Hc.
    + injection Hit as <- <-. right; left. exists c.
      repeat split; try done.
    + injection Hit as <- <-. right; right. exists (KeyError T). auto 10.
  - injection Hit as <- <-. right; right. exists e.
    destruct Hscan as (? & ? & ? & ?). auto 10.
Qed.

Lemma iteration_status existing T tm s : (iteration existing T tm s).1 ≠ OutOfFuel.
Proof.
  unfold iteration, _create_new_feedly_list.
  destruct (scan existing tm s); simpl; try done.
  destruct (decide _); simpl; [done|].
  by destruct (list_counts s !! T).
Qed.

(** *** Invariants of the loops

    An exception may leave the store half-updated (the entities are
    extended before the payload is built), but nothing else: what a run
    returns agrees with a state satisfying the invariant except, after an
    exception, on the store. *)
Lemma iteration_Raised existing T tm s e s' :
  iteration existing T tm s = (Raised e, s') → agree_but_store s s'.
Proof.
  unfold iteration, _create_new_feedly_list. intros Hit.
  pose proof (scan_cases existing tm s) as Hscan.
  destruct (scan existing tm s) as [s1| |e1 s1].
  - done.
  - destruct (decide _); [done|].
    destruct (list_counts s !! T); [done|]. by injection Hit as _ <-.
  - injection Hit as _ <-. destruct Hscan as (? & ? & ? & _). by repeat split.
Qed.

Lemma while_invariant (I : state → Prop) existing T tm :
  (∀ s s', I s → new_entries s ≠ ∅ →
           iteration existing T tm s = (Normal, s') → I s') →
  ∀ fuel s, I s →
    let r := while_new_entries fuel existing T tm s in
    ∃ s1, I s1 ∧ agree_but_store s1 r.2 ∧ (r.1 = Normal → s1 = r.2).
Proof.
  intros Hstep fuel. induction fuel as [|fuel IH]; intros s Hs; simpl.
  - destruct (decide (new_entries s = ∅)); by exists s.
  - destruct (decide (new_entries s = ∅)) as [|Hne]; [by exists s|].
    destruct (iteration existing T tm s) as [[|e|] s'] eqn:Hit; simpl.
    + apply IH. eauto.
    + exists s. split; [done|]. split; [|done].
      by apply iteration_Raised in Hit.
    + pose proof (iteration_status existing T tm s) as Hst.
      by rewrite Hit in Hst.
Qed.

Lemma while_Normal fuel existing T tm s s' :
  while_new_entries fuel existing T tm s = (Normal, s') →
  new_entries s' = ∅.
Proof.
  revert s. induction fuel as [|fuel IH]; intros s; simpl.
  - destruct (decide (new_entries s = ∅)); naive_solver.
  - destruct (decide (new_entries s = ∅)); [naive_solver|].
    destruct (iteration existing T tm s) as [[| |] s1]; naive_solver.
Qed.

Lemma while_empty fuel existing T tm s :
  new_entries s = ∅ → while_new_entries fuel existing T tm s = (Normal, s).
Proof. intros Hs. destruct fuel; simpl; by rewrite decide_True. Qed.

(** Every completed turn places at least one name. *)
Lemma iteration_decreases existing T tm s s' :
  new_entries s ≠ ∅ → iteration existing T tm s = (Normal, s') →
  size (new_entries s') < size (new_entries s) ∧
  ∃ p, intents (trace s') = intents (trace s) ++ [p].
Proof.
  intros Hne Hit.
  assert (0 < size (new_entries s)) as Hpos.
  { apply Nat.neq_0_lt_0. intros Hz. by apply size_empty_inv, leibniz_equiv in Hz. }
  apply iteration_cases in Hit as
    [(pre & i & post & it & ents & id & label & _ & _ & _ & _ & Hlen & Hroom
      & _ & _ & _ & ->)
    |[(c & _ & _ & _ & ->)|(e & ? & _)]]; [| |done|done].
  - simpl. split.
    + unfold to_pack. rewrite size_remove_taken by apply subseteq_difference_l, reflexivity.
      assert (0 < size (new_entries s ∖ texts it)).
      { apply Nat.neq_0_lt_0. intros Hz.
        by apply size_empty_inv, leibniz_equiv in Hz. }
      lia.
    + eexists. by rewrite intents_app, intents_dispatch.
  - simpl. split.
    + unfold to_create. rewrite size_remove_taken by done. lia.
    + eexists. by rewrite intents_app, intents_dispatch.
Qed.

(** The loop never needs more turns than there are names to place. *)
Lemma while_fuel fuel existing T tm s :
  size (new_entries s) ≤ fuel →
  (while_new_entries fuel existing T tm s).1 ≠ OutOfFuel.
Proof.
  revert s. induction fuel as [|fuel IH]; intros s Hfuel; simpl.
  - rewrite decide_True; [done|].
    apply leibniz_equiv, size_empty_inv. lia.
  - destruct (decide (new_entries s = ∅)); [done|].
    pose proof (iteration_status existing T tm s) as Hst.
    destruct (iteration existing T tm s) as [[| |] s1] eqn:Hit; simpl; try done.
    apply IH. apply iteration_decreases in Hit as [? _]; [lia|done].
Qed.

Lemma while_fuel_irrelevant fuel fuel' existing T tm s :
  size (new_entries s) ≤ fuel → size (new_entries s) ≤ fuel' →
  while_new_entries fuel existing T tm s
  = while_new_entries fuel' existing T tm s.
Proof.
  revert fuel' s. induction fuel as [|fuel IH]; intros fuel' s Hf Hf'.
  - rewrite !while_empty; [done|..]; apply leibniz_equiv, size_empty_inv; lia.
  - destruct fuel' as [|fuel'].
    { rewrite !while_empty; [done|..]; apply leibniz_equiv, size_empty_inv; lia. }
    simpl. destruct (decide (new_entries s = ∅)); [done|].
    destruct (iteration existing T tm s) as [[| |] s1] eqn:Hit; try done.
    apply iteration_decreases in Hit as [? _]; [|done].
    apply IH; lia.
Qed.

Lemma add_entries_invariant (I : state → Prop) existing T tm :
  (∀ s s', I s → new_entries s ≠ ∅ →
           iteration existing T tm s = (Normal, s') → I s') →
  ∀ s, I s →
    let r := _add_entries_to_feedly existing T tm s in
    ∃ s1, I s1 ∧ agree_but_store s1 r.2 ∧ (r.1 = Normal → s1 = r.2).
Proof. intros Hstep s. by apply while_invariant. Qed.

Lemma add_entries_status existing T tm s :
  (_add_entries_to_feedly existing T tm s).1 ≠ OutOfFuel.
Proof. by apply while_fuel. Qed.

Lemma add_entries_Normal existing T tm s s' :
  _add_entries_to_feedly existing T tm s = (Normal, s') → new_entries s' = ∅.
Proof. apply while_Normal. Qed.

(** An invariant of the engine that does not look at [new_entries] is kept
    by a whole run. *)
Lemma sync_type_invariant (I : state → Prop) T names tm :
  (∀ s ne, I s → I (State (store s) ne (list_counts s) (trace s))) →
  (∀ existing s s', I s → new_entries s ≠ ∅ →
           iteration existing T tm s = (Normal, s') → I s') →
  ∀ s, I s →
    let r := sync_type T names tm s in
    ∃ s1, I s1 ∧ trace s1 = trace r.2 ∧ list_counts s1 = list_counts r.2 ∧
          (r.1 = Normal → s1 = r.2).
Proof.
  intros Hne Hstep s Hs. unfold sync_type.
  destruct (select_existing 0 (store s) T) as [e|existing]; simpl.
  { exists s. by repeat split. }
  destruct (add_entries_invariant I existing T tm (Hstep existing) _
              (Hne s (missing existing names (store s)) Hs))
    as (s1 & H1 & (? & ? & ?) & ?).
  exists s1. by repeat split.
Qed.

Lemma for_types_invariant_in (I : state → Prop) tm jira :
  (∀ s ne, I s → I (State (store s) ne (list_counts s) (trace s))) →
  (∀ existing T s s', T ∈ jira.*1 → I s → new_entries s ≠ ∅ →
           iteration existing T tm s = (Normal, s') → I s') →
  ∀ s, I s →
    let r := for_types jira tm s in
    ∃ s1, I s1 ∧ trace s1 = trace r.2 ∧ list_counts s1 = list_counts r.2 ∧
          (r.1 = Normal → s1 = r.2).
Proof.
  intros Hne.
  induction jira as [|[T names] jira IH]; intros Hstep s Hs; simpl.
  { exists s. by repeat split. }
  destruct (sync_type_invariant I T names tm Hne
              (λ ex s2 s3, Hstep ex T s2 s3 (list_elem_of_here T _)) s Hs)
    as (s1 & H1 & Htr & Hc & Hn).
  destruct (sync_type T names tm s) as [[|e|] s2]; simpl in *.
  - rewrite <- (Hn eq_refl). apply IH; [|done].
    intros ex T' s3 s4 HT'. apply Hstep. by apply list_elem_of_further.
  - exists s1. by repeat split.
  - exists s1. by repeat split.
Qed.

Lemma for_types_invariant (I : state → Prop) tm :
  (∀ s ne, I s → I (State (store s) ne (list_counts s) (trace s))) →
  (∀ existing T s s', I s → new_entries s ≠ ∅ →
           iteration existing T tm s = (Normal, s') → I s') →
  ∀ jira s, I s →
    let r := for_types jira tm s in
    ∃ s1, I s1 ∧ trace s1 = trace r.2 ∧ list_counts s1 = list_counts r.2 ∧
          (r.1 = Normal → s1 = r.2).
Proof.
  intros Hne Hstep jira. apply for_types_invariant_in; [done|].
  intros existing T s s' _. apply Hstep.
Qed.

Lemma sync_invariant (I : state → Prop) tm :
  (∀ s ne, I s → I (State (store s) ne (list_counts s) (trace s))) →
  (∀ existing T s s', I s → new_entries s ≠ ∅ →
           iteration existing T tm s = (Normal, s') → I s') →
  ∀ jira feedly_data,
    (∀ counts, I (State feedly_data ∅ counts [])) →
    let r := sync_to_feedly jira feedly_data tm in
    ∃ s1, I s1 ∧ trace s1 = r_trace r ∧ list_counts s1 = r_counts r ∧
          (r_status r = Normal → store s1 = r_store r).
Proof.
  intros Hne Hstep jira fd Hinit. unfold sync_to_feedly.
  destruct (feedly_entities fd) as [e|fe]; simpl.
  { exists (State fd ∅ ∅ []). by repeat split. }
  destruct (for_types_invariant I tm Hne Hstep jira _
              (Hinit (initial_counts fe jira))) as (s1 & H1 & Htr & Hc & Hn).
  destruct (for_types jira tm _) as [st s]; simpl in *.
  exists s1. repeat split; try done. by intros ->%Hn.
Qed.

End LoopFacts.

Section TraceFacts.
Context {order : SetOrder}.

Lemma length_to_pack s it ents :
  length ents < 50 → length (ents ++ (keyword <$> to_pack s it ents)) ≤ 50.
Proof.
  intros Hlen. unfold to_pack.
  rewrite length_app, length_fmap, length_take. lia.
Qed.

Lemma length_to_create s : length (keyword <$> to_create s) ≤ 50.
Proof. unfold to_create. rewrite length_fmap, length_take. lia. Qed.

(** A turn of the loop emits nothing, or the effects of one intent that
    fits the capacity. *)
Lemma iteration_emits existing T tm s st s' :
  iteration existing T tm s = (st, s') → new_entries s ≠ ∅ →
  trace s' = trace s
  ∨ ∃ p, trace s' = trace s ++ dispatch tm p ∧
         length (payload_entities p) ≤ 50.
Proof.
  intros Hit Hne.
  apply iteration_cases in Hit as
    [(pre & i & post & it & ents & id & label & _ & _ & _ & _ & Hlen & _
      & _ & _ & _ & ->)
    |[(c & _ & _ & _ & ->)|(e & _ & _ & _ & ? & _)]]; [| |by left|done].
  - right. eexists. split; [done|]. by apply length_to_pack.
  - right. eexists. split; [done|]. apply length_to_create.
Qed.

Lemma sync_trace_invariant (P : list effect → Prop) tm :
  P [] →
  (∀ tr p, P tr → length (payload_entities p) ≤ 50 → P (tr ++ dispatch tm p)) →
  ∀ jira feedly_data, P (r_trace (sync_to_feedly jira feedly_data tm)).
Proof.
  intros Hnil Hsnoc jira fd.
  destruct (sync_invariant (λ s, P (trace s)) tm) with (jira := jira)
    (feedly_data := fd) as (s1 & H1 & <- & _); simpl; auto.
  intros existing T s s' Hs Hne Hit.
  apply iteration_emits in Hit as [->|(p & -> & ?)]; auto.
Qed.

End TraceFacts.

(** ** Properties of the reconciliation *)

Section Properties.
Context {order : SetOrder}.

(** C1 (capacity): every write intent emitted by [sync_to_feedly], PUT or
    POST, rendered or sent, carries at most 50 entities.  This holds for
    every object-type group and every destination snapshot; lists that
    already hold 50 entities or more are never updated, so nothing has to
    be assumed about the snapshot. *)
Theorem capacity_invariant jira_data feedly_data test_mode :
  Forall (λ p, length (payload_entities p) ≤ 50)
         (intents (r_trace (sync_to_feedly jira_data feedly_data test_mode))).
Proof.
  apply (sync_trace_invariant
           (λ tr, Forall (λ p, length (payload_entities p) ≤ 50) (intents tr))).
  - constructor.
  - intros tr p Htr Hp. rewrite intents_app, intents_dispatch.
    apply Forall_app. split; [done|]. by constructor.
Qed.

(** C9 (dry run and pacing): in test mode the trace of a run consists of
    the rendering of each intent and nothing else, so there is no PUT, no
    POST and no pause; otherwise every intent is sent (PUT for an update,
    POST for a create) and each write is followed by a pause of 1. *)
Theorem dry_run_and_pacing jira_data feedly_data :
  (let tr := r_trace (sync_to_feedly jira_data feedly_data true) in
   tr = LogInfo <$> intents tr) ∧
  (let tr := r_trace (sync_to_feedly jira_data feedly_data false) in
   tr = intents tr ≫= λ p, [send p; Sleep 1]).
Proof.
  split; simpl.
  - apply (sync_trace_invariant (λ tr, tr = LogInfo <$> intents tr)); [done|].
    intros tr p Htr _. rewrite intents_app, intents_dispatch, fmap_app.
    by rewrite <- Htr.
  - apply (sync_trace_invariant
             (λ tr, tr = intents tr ≫= λ p, [send p; Sleep 1])); [done|].
    intros tr p Htr _. rewrite intents_app, intents_dispatch, bind_app.
    by rewrite <- Htr.
Qed.

End Properties.

Section Distinct.
Context {order : SetOrder}.

Lemma elem_of_texts x it :
  x ∈ texts it ↔ Some x ∈ text <$> default [] (item_entities it).
Proof.
  unfold texts. rewrite elem_of_list_to_set, list_elem_of_omap, list_elem_of_fmap.
  split; intros (e & ? & ?); exists e; auto.
Qed.

Lemma NoDup_keywords (l : list string) : NoDup l → NoDup (text <$> (keyword <$> l)).
Proof.
  intros Hl. rewrite <- list_fmap_compose.
  apply (NoDup_fmap_2_strong (text ∘ keyword)); [|done].
  by intros x y _ _ [= ->].
Qed.

Lemma elem_of_keywords x (l : list string) :
  x ∈ text <$> (keyword <$> l) ↔ ∃ y, x = Some y ∧ y ∈ l.
Proof. by rewrite <- list_fmap_compose, list_elem_of_fmap. Qed.

Lemma packed_distinct s it ents :
  item_entities it = Some ents → distinct_texts it →
  NoDup (text <$> (ents ++ (keyword <$> to_pack s it ents))).
Proof.
  unfold distinct_texts. intros Hents Hnd. rewrite Hents in Hnd. simpl in Hnd.
  rewrite fmap_app. apply NoDup_app. split; [done|]. split.
  - intros x Hx (y & -> & Hy)%elem_of_keywords.
    apply elem_of_take_enum, elem_of_difference in Hy as [_ Hy].
    apply Hy, elem_of_texts. by rewrite Hents.
  - apply NoDup_keywords, take_enum_NoDup.
Qed.

Lemma distinct_invariant snapshot existing T tm s s' :
  store_keeps snapshot s ∧
    Forall (duplicate_free snapshot) (intents (trace s)) →
  new_entries s ≠ ∅ →
  iteration existing T tm s = (Normal, s') →
  store_keeps snapshot s' ∧
    Forall (duplicate_free snapshot) (intents (trace s')).
Proof.
  intros [Hst Htr] Hne Hit.
  apply iteration_cases in Hit as
    [(pre & i & post & it & ents & id & label & _ & _ & Hi & Hents & Hlen & _
      & Hid & Hlabel & _ & ->)
    |[(c & _ & _ & _ & ->)|(e & ? & _)]]; [| |done|done].
  - destruct (Hst i it Hi) as (it0 & Hi0 & Hid0 & Hlabel0 & Hd0).
    split.
    + intros j it' Hj. simpl in Hj.
      destruct (decide (i = j)) as [<-|Hij].
      * rewrite list_lookup_insert_eq in Hj by by eapply lookup_lt_Some.
        injection Hj as <-. exists it0. repeat split; try done.
        intros Hd. unfold distinct_texts. simpl.
        apply packed_distinct; auto.
      * rewrite list_lookup_insert_ne in Hj by done. by apply Hst.
    + simpl. rewrite intents_app, intents_dispatch. apply Forall_app. split; [done|].
      constructor; [|constructor]. exists it0.
      repeat split; try congruence.
      intros Hd. apply packed_distinct; auto.
  - simpl. split; [done|].
    rewrite intents_app, intents_dispatch. apply Forall_app. split; [done|].
    constructor; [|constructor]. simpl. apply NoDup_keywords, take_enum_NoDup.
Qed.

(** C8 (no duplicate entries): in every intent emitted by [sync_to_feedly]
    the text values of the entities are pairwise distinct: always for a
    create, and for an update given that the list it targets had distinct
    text values in the snapshot. *)
Theorem no_duplicate_entries jira_data feedly_data test_mode :
  Forall (duplicate_free feedly_data)
         (intents (r_trace (sync_to_feedly jira_data feedly_data test_mode))).
Proof.
  pose proof (sync_invariant
    (λ s, store_keeps feedly_data s ∧
          Forall (duplicate_free feedly_data) (intents (trace s))) test_mode)
    as Hinv.
  specialize (Hinv (λ _ _ Hs, Hs)
              (λ existing T s s', distinct_invariant feedly_data existing T
                                    test_mode s s')
              jira_data feedly_data).
  simpl in Hinv. destruct Hinv as (s1 & [_ H1] & Htr & _).
  - intros counts. split; [|constructor].
    intros i it Hi. exists it. by repeat split.
  - by rewrite <- Htr.
Qed.

End Distinct.

Section Selection.
Context {order : SetOrder}.

(** *** [existing_lists] and the initial missing set *)
Lemma select_existing_labels k st st' T :
  item_label <$> st = item_label <$> st' →
  select_existing k st T = select_existing k st' T.
Proof.
  revert k st'. induction st as [|it st IH]; intros k [|it' st'] Heq;
    try done.
  rewrite !fmap_cons in Heq. injection Heq as Hl Hrest. simpl.
  by rewrite (IH (S k) st' Hrest), Hl.
Qed.

Lemma select_existing_inr k st T :
  Forall (λ it, is_Some (item_label it)) st →
  is_Some (match select_existing k st T with inr ex => Some ex | inl _ => None end).
Proof.
  intros Hst. revert k. induction Hst as [|it st [l Hl] _ IH]; intros k; simpl.
  - by eexists.
  - rewrite Hl. specialize (IH (S k)).
    destruct (select_existing (S k) st T); [by destruct IH|by eexists].
Qed.

Lemma select_existing_has_labels k st T ex :
  select_existing k st T = inr ex →
  Forall (λ it, is_Some (item_label it)) st.
Proof.
  revert k ex. induction st as [|it st IH]; intros k ex Hex; [constructor|].
  simpl in Hex. destruct (item_label it) as [l|] eqn:Hl; [|done].
  destruct (select_existing (S k) st T) as [|ex'] eqn:Hrest; [done|].
  constructor; [by rewrite Hl|by eapply IH].
Qed.

Lemma elem_of_select_existing k st T ex i :
  select_existing k st T = inr ex →
  i ∈ ex ↔ ∃ j it, i = k + j ∧ st !! j = Some it ∧ belongs T it = true.
Proof.
  revert k ex. induction st as [|it st IH]; intros k ex Hex; simpl in Hex.
  - injection Hex as <-. split; [by intros ?%elem_of_nil|].
    by intros (j & it & _ & ? & _).
  - destruct (item_label it) as [l|] eqn:Hl; [|done].
    destruct (select_existing (S k) st T) as [|ex'] eqn:Hrest; [done|].
    injection Hex as <-. specialize (IH (S k) ex' Hrest).
    assert (i ∈ ex' ↔ ∃ j it', i = k + S j ∧ st !! j = Some it'
                                ∧ belongs T it' = true) as IH'.
    { rewrite IH. by setoid_rewrite Nat.add_succ_r. }
    clear IH. split.
    + intros Hi.
      assert (i = k ∧ startswith l T = true ∨ i ∈ ex') as [[-> Hp]|Hi'].
      { destruct (startswith l T); [|by right].
        apply elem_of_cons in Hi as [->|?]; [by left|by right]. }
      * exists 0, it. rewrite Nat.add_0_r. unfold belongs. by rewrite Hl.
      * apply IH' in Hi' as (j & it' & -> & ? & ?). by exists (S j), it'.
    + intros ([|j] & it' & -> & Hj & Hb); simpl in Hj.
      * injection Hj as <-. unfold belongs in Hb. rewrite Hl in Hb.
        rewrite Hb, Nat.add_0_r. by left.
      * assert (k + S j ∈ ex') by (apply IH'; eauto).
        destruct (startswith l T); [by right|done].
Qed.

Lemma elem_of_missing x ex names st :
  x ∈ missing ex names st ↔
  x ∈ names ∧ ∀ i it, i ∈ ex → st !! i = Some it → x ∉ texts it.
Proof.
  unfold missing.
  assert (∀ acc : gset string,
    x ∈ foldl (λ acc i, acc ∖ from_option texts ∅ (st !! i)) acc ex ↔
    x ∈ acc ∧ ∀ i it, i ∈ ex → st !! i = Some it → x ∉ texts it) as Hgen.
  { induction ex as [|i ex IH]; intros acc; simpl.
    - split; [|by intros [? _]]. intros ?. split; [done|].
      by intros i it ?%elem_of_nil.
    - rewrite IH, elem_of_difference. split.
      + intros [[Hx Hi] Hex]. split; [done|].
        intros j it [->|Hj]%elem_of_cons Hit; [|by eapply Hex].
        by rewrite Hit in Hi.
      + intros [Hx Hall]. split; [split; [done|]|].
        * destruct (st !! i) as [it|] eqn:Hit; simpl; [|set_solver].
          apply (Hall i it); [by left|done].
        * intros j it Hj. apply Hall. by right. }
  by rewrite Hgen, elem_of_list_to_set.
Qed.

End Selection.

Section PerType.
Context {order : SetOrder}.

Lemma texts_with_entities it ents (l : list string) :
  item_entities it = Some ents →
  texts (with_entities it (ents ++ (keyword <$> l))) = texts it ∪ list_to_set l.
Proof.
  intros Hents. unfold texts. simpl. rewrite Hents. simpl.
  rewrite omap_app, list_to_set_app_L. f_equal.
  assert (omap text (keyword <$> l) = l) as ->; [|done].
  induction l as [|x l IH]; [done|]. simpl. f_equal. exact IH.
Qed.

Lemma labels_insert_with_entities (st : list item) i it ents :
  st !! i = Some it →
  item_label <$> <[i := with_entities it ents]> st = item_label <$> st.
Proof.
  intros Hi. rewrite list_fmap_insert. simpl.
  apply list_insert_id. by rewrite list_lookup_fmap, Hi.
Qed.

Lemma reconciling_initial T existing names s :
  select_existing 0 (store s) T = inr existing →
  reconciling T existing
    (State (store s) (missing existing names (store s)) (list_counts s)
           (trace s)).
Proof.
  intros Hex. split; [done|]. intros i it Hi Hit x Hx Hx'. simpl in *.
  apply elem_of_missing in Hx as [_ Hx]. by eapply Hx.
Qed.

Lemma reconciling_step T existing tm s s' :
  reconciling T existing s → new_entries s ≠ ∅ →
  iteration existing T tm s = (Normal, s') →
  reconciling T existing s'.
Proof.
  intros [Hsel Hdis] Hne Hit.
  apply iteration_cases in Hit as
    [(pre & i & post & it & ents & id & label & -> & _ & Hi & Hents & Hlen & _
      & Hid & Hlabel & _ & ->)
    |[(c & _ & _ & _ & ->)|(e & ? & _)]]; [| |done|done].
  - split; simpl.
    + rewrite <- Hsel. apply select_existing_labels.
      by apply labels_insert_with_entities.
    + intros j it' Hj Hit' x Hx Hx'. simpl in *.
      apply elem_of_difference in Hx as [Hx Hnot].
      destruct (decide (i = j)) as [<-|Hij].
      * rewrite list_lookup_insert_eq in Hit' by by eapply lookup_lt_Some.
        injection Hit' as <-.
        rewrite texts_with_entities in Hx' by done.
        apply elem_of_union in Hx' as [Hx'|Hx']; [|done].
        by apply (Hdis i it Hj Hi x).
      * rewrite list_lookup_insert_ne in Hit' by done.
        by apply (Hdis j it' Hj Hit' x).
  - split; [done|]. intros j it' Hj Hit' x Hx Hx'. simpl in *.
    apply elem_of_difference in Hx as [Hx _].
    by apply (Hdis j it' Hj Hit' x).
Qed.

(** With the missing names in none of the lists, a skipped list is full. *)
Lemma skipped_full existing s i it :
  disjoint_from_existing existing s → new_entries s ≠ ∅ →
  i ∈ existing → store s !! i = Some it → skipped s i →
  ∃ ents, item_entities it = Some ents ∧ 50 ≤ length ents.
Proof.
  intros Hdis Hne Hi Hit Hskip. unfold skipped in Hskip. rewrite Hit in Hskip.
  destruct Hskip as (ents & Hents & [Hfull|Hsub]); [by exists ents|].
  destruct Hne. apply set_eq; intros x. split; [|by intros ?%elem_of_empty].
  intros Hx. destruct (Hdis i it Hi Hit x); auto.
Qed.

(** The number of names an update appends. *)
Lemma length_to_pack_eq existing s i it ents :
  disjoint_from_existing existing s → i ∈ existing → store s !! i = Some it →
  length (to_pack s it ents) = (50 - length ents) `min` size (new_entries s)
  ∧ new_entries s ∖ texts it = new_entries s.
Proof.
  intros Hdis Hi Hit.
  assert (new_entries s ∖ texts it = new_entries s) as Heq.
  { apply set_eq; intros x. rewrite elem_of_difference.
    split; [by intros [? _]|]. intros Hx. split; [done|].
    intros Hx'. by apply (Hdis i it Hi Hit x). }
  split; [|done]. unfold to_pack. by rewrite Heq, length_take, length_enum.
Qed.

End PerType.

Section UpdateDiscipline.
Context {order : SetOrder}.

Lemma update_targets_snoc tr tm p :
  update_targets (tr ++ dispatch tm p)
  = update_targets tr
    ++ match p with UpdateList i _ _ _ => [i] | CreateList _ _ => [] end.
Proof.
  unfold update_targets. rewrite intents_app, intents_dispatch, omap_app.
  by destruct p.
Qed.

Lemma creates_snoc tr tm p :
  creates (tr ++ dispatch tm p)
  = creates tr ++ (if is_create p then [p] else []).
Proof.
  unfold creates. rewrite intents_app, intents_dispatch, filter_app.
  by destruct p.
Qed.

Lemma creates_nil tr :
  creates tr = [] → Forall (λ q, is_create q = false) (intents tr).
Proof.
  unfold creates. induction (intents tr) as [|q ps IH]; [constructor|].
  rewrite filter_cons. destruct q; simpl; [|done].
  intros Hnil. constructor; auto.
Qed.

Lemma run_shape_snoc ps p :
  run_shape ps → all_full ps →
  (is_create p = false → Forall (λ q, is_create q = false) ps) →
  run_shape (ps ++ [p]).
Proof.
  induction ps as [|q ps IH]; intros Hshape Hfull Hupd.
  - destruct p; simpl; [auto|constructor].
  - apply Forall_cons in Hfull as [Hq Hfull]. destruct q as [i id l es|l es]; simpl.
    + destruct Hshape as [_ Hshape]. split; [left; by apply Hq|].
      apply IH; [done..|]. intros Hp. by apply Hupd, Forall_cons in Hp as [_ ?].
    + simpl in Hshape. apply Forall_app. split; [done|].
      constructor; [|constructor].
      destruct (is_create p) eqn:Hp; [done|].
      specialize (Hupd eq_refl). by apply Forall_cons in Hupd as [? _].
Qed.

Lemma all_full_snoc ps p :
  all_full ps → (is_create p = false → length (payload_entities p) = 50) →
  all_full (ps ++ [p]).
Proof. intros. apply Forall_app. split; [done|]. by constructor. Qed.

Lemma discipline_step T existing t0 tm s s' :
  reconciling T existing s ∧ update_discipline existing t0 s →
  new_entries s ≠ ∅ →
  iteration existing T tm s = (Normal, s') →
  reconciling T existing s' ∧ update_discipline existing t0 s'.
Proof.
  intros [Hrec Hdisc] Hne Hit.
  split; [by eapply reconciling_step|].
  destruct Hrec as [_ Hdis].
  destruct Hdisc as (tr & Htr & Hnd & Htargets & Hcreated & Hshape & Hfull).
  specialize (Hfull Hne).
  assert (∀ j, j ∈ update_targets tr →
               ∃ it ents, store s !! j = Some it ∧ item_entities it = Some ents ∧
                          50 ≤ length ents) as Hfilled.
  { intros j [_ (it & ents & ? & ? & [?|?])]%Htargets; [|done].
    by exists it, ents. }
  apply iteration_cases in Hit as
    [(pre & i & post & it & ents & id & label & Hex & _ & Hi & Hents & Hlen
      & Hroom & Hid & Hlabel & _ & ->)
    |[(c & Hskip & _ & _ & ->)|(e & ? & _)]]; [| |done|done].
  - assert (i ∈ existing) as Hiex.
    { rewrite Hex. apply elem_of_app. right. by left. }
    assert (creates tr = []) as Hnocreate.
    { destruct (creates tr) eqn:Hc; [done|].
      assert (Forall (skipped s) existing) as Hall by by apply Hcreated.
      rewrite Forall_forall in Hall. specialize (Hall i Hiex).
      destruct (skipped_full existing s i it Hdis Hne Hiex Hi Hall)
        as (ents' & ? & ?). simplify_eq. lia. }
    destruct (length_to_pack_eq existing s i it ents Hdis Hiex Hi)
      as [Hk Hsame].
    exists (tr ++ dispatch tm
              (UpdateList i id label (ents ++ (keyword <$> to_pack s it ents)))).
    simpl. split; [by rewrite Htr, app_assoc|].
    rewrite update_targets_snoc, creates_snoc, intents_app, intents_dispatch.
    simpl. rewrite app_nil_r.
    split; [|split; [|split; [|split]]].
    + apply NoDup_app. split; [done|]. split; [|apply NoDup_singleton].
      intros j Hj ->%list_elem_of_singleton.
      destruct (Hfilled i Hj) as (it' & ents' & ? & ? & ?). simplify_eq. lia.
    + intros j [Hj| ->%list_elem_of_singleton]%elem_of_app.
      * split; [by apply Htargets|].
        destruct (Hfilled j Hj) as (it' & ents' & Hj' & ? & ?).
        exists it', ents'. simpl. split; [|by auto].
        rewrite list_lookup_insert_ne; [done|].
        intros <-. simplify_eq. lia.
      * split; [done|]. eexists _, _. simpl.
        split; [by apply list_lookup_insert_eq; eapply lookup_lt_Some|].
        split; [done|].
        rewrite length_app, length_fmap, Hk.
        destruct (decide (size (new_entries s) ≤ 50 - length ents)).
        -- right. unfold to_pack. rewrite Hsame. by apply remove_taken_all.
        -- left. lia.
    + by rewrite Hnocreate.
    + apply run_shape_snoc; [done..|]. intros _. by apply creates_nil.
    + intros Hne'. apply all_full_snoc; [done|]. intros _. simpl.
      rewrite length_app, length_fmap, Hk.
      destruct (decide (size (new_entries s) ≤ 50 - length ents)); [|lia].
      destruct Hne'. unfold to_pack. rewrite Hsame. by apply remove_taken_all.
  - eexists (tr ++ dispatch tm (CreateList _ _)).
    simpl. split; [by rewrite Htr, app_assoc|].
    rewrite update_targets_snoc, creates_snoc, intents_app, intents_dispatch.
    simpl. rewrite app_nil_r.
    split; [done|]. split; [|split; [|split]].
    + intros j Hj. split; [by apply Htargets|].
      destruct (Hfilled j Hj) as (it' & ents' & Hj' & ? & ?).
      exists it', ents'. auto.
    + intros _. eapply Forall_impl; [exact Hskip|].
      intros j. unfold skipped. simpl.
      destruct (store s !! j) as [it'|]; [|done].
      intros (ents' & ? & [?|Hsub]); exists ents'; split; auto.
      right. intros x [Hx _]%elem_of_difference. by apply Hsub.
    + by apply run_shape_snoc.
    + intros _. by apply all_full_snoc.
Qed.

End UpdateDiscipline.

Section UpdateDisciplineTheorem.
Context {order : SetOrder}.

(** C10 (one update per list): while one object type is reconciled, no
    list is the target of two updates; every update targets a list that
    was in the store, with a label of that type, before the run began
    (creates add nothing to the store); an update that does not leave its
    list with 50 entities is the last intent of the run, after which
    nothing is missing; and once a list has been created only creates
    follow, so that a created list is never updated in the same run. *)
Theorem one_update_per_list object_type names test_mode s :
  ∃ tr, trace (sync_type object_type names test_mode s).2 = trace s ++ tr ∧
    NoDup (update_targets tr) ∧
    Forall (λ i, ∃ it, store s !! i = Some it ∧ belongs object_type it = true)
           (update_targets tr) ∧
    run_shape (intents tr) ∧
    (new_entries (sync_type object_type names test_mode s).2 = ∅
     ∨ all_full (intents tr)).
Proof.
  unfold sync_type.
  destruct (select_existing 0 (store s) object_type) as [e|existing] eqn:Hsel.
  { exists []. simpl. rewrite app_nil_r.
    split; [done|]. split; [constructor|]. split; [constructor|].
    split; [done|]. right. constructor. }
  pose proof (add_entries_invariant
    (λ s', reconciling object_type existing s' ∧
           update_discipline existing (trace s) s')
    existing object_type test_mode
    (discipline_step object_type existing (trace s) test_mode)) as Hinv.
  edestruct Hinv as (s1 & [_ Hd] & (Hnew & _ & Htrace) & _).
  { split; [by apply reconciling_initial|].
    exists []. simpl. rewrite app_nil_r.
    split; [done|]. split; [constructor|].
    split; [by intros i ?%elem_of_nil|]. split; [done|].
    split; [done|]. intros _. constructor. }
  destruct Hd as (tr & Htr & Hnd & Htargets & _ & Hshape & Hfull).
  exists tr. rewrite <- Htrace, <- Hnew. repeat split; try done.
  - apply Forall_forall. intros i [Hi _]%Htargets.
    apply (elem_of_select_existing 0 _ _ _ i Hsel) in Hi
      as (j & it & -> & ? & ?). by exists it.
  - destruct (decide (new_entries s1 = ∅)); auto.
Qed.

End UpdateDisciplineTheorem.

Section Naming.
Context {order : SetOrder}.

Lemma create_labels_snoc tr tm p :
  create_labels (tr ++ dispatch tm p)
  = create_labels tr
    ++ match p with CreateList l _ => [l] | UpdateList _ _ _ _ => [] end.
Proof.
  unfold create_labels. rewrite intents_app, intents_dispatch, omap_app.
  by destruct p.
Qed.

Lemma naming_step T c t0 existing tm s s' :
  naming T c t0 s → new_entries s ≠ ∅ →
  iteration existing T tm s = (Normal, s') → naming T c t0 s'.
Proof.
  intros (tr & Htr & Hc & Hlabels) Hne Hit.
  apply iteration_cases in Hit as
    [(pre & i & post & it & ents & id & label & _ & _ & _ & _ & _ & _ & _ & _
      & _ & ->)
    |[(c' & _ & Hc' & _ & ->)|(e & ? & _)]]; [| |done|done].
  - eexists (tr ++ dispatch tm (UpdateList _ _ _ _)). simpl.
    split; [by rewrite Htr, app_assoc|].
    by rewrite create_labels_snoc, app_nil_r.
  - eexists (tr ++ dispatch tm (CreateList _ _)). simpl.
    split; [by rewrite Htr, app_assoc|].
    rewrite create_labels_snoc, length_app. simpl.
    rewrite Hc in Hc'. injection Hc' as <-.
    split; [rewrite lookup_insert_eq; f_equal; lia|].
    rewrite Nat.add_1_r, seq_S, fmap_app, <- Hlabels. simpl.
    unfold nth_label.
    by replace (c + S (length (create_labels tr)))
      with (S (c + length (create_labels tr))) by lia.
Qed.

(** The turn of another type leaves the count of [T] alone. *)
Lemma count_kept_step T c existing T' tm s s' :
  T' ≠ T → list_counts s !! T = c → new_entries s ≠ ∅ →
  iteration existing T' tm s = (Normal, s') → list_counts s' !! T = c.
Proof.
  intros HT Hc Hne Hit.
  apply iteration_cases in Hit as
    [(pre & i & post & it & ents & id & label & _ & _ & _ & _ & _ & _ & _ & _
      & _ & ->)
    |[(c' & _ & Hc' & _ & ->)|(e & ? & _)]]; [done| |done|done].
  simpl. by rewrite lookup_insert_ne.
Qed.

(** *** The counts [sync_to_feedly] starts from *)
Lemma feedly_entities_from_dom acc st fe :
  feedly_entities_from acc st = inr fe →
  dom fe = dom acc ∪ list_to_set (omap item_label st).
Proof.
  revert acc. induction st as [|it st IH]; intros acc Hfe; simpl in *.
  - injection Hfe as <-. by rewrite union_empty_r_L.
  - destruct (item_label it) as [l|]; [|done].
    rewrite (IH _ Hfe), dom_insert_L. simpl.
    by rewrite (comm_L (∪) {[l]} (dom acc)), (assoc_L (∪)).
Qed.

Lemma feedly_entities_dom st fe :
  feedly_entities st = inr fe → dom fe = list_to_set (omap item_label st).
Proof.
  intros Hfe%feedly_entities_from_dom.
  by rewrite Hfe, dom_empty_L, union_empty_l_L.
Qed.

Lemma feedly_entities_labels st :
  Forall (λ it, is_Some (item_label it)) st ↔
  ∃ fe, feedly_entities st = inr fe.
Proof.
  unfold feedly_entities. generalize (∅ : gmap string (gset string)).
  induction st as [|it st IH]; intros acc; simpl.
  - split; [by eexists|constructor].
  - destruct (item_label it) as [l|] eqn:Hl.
    + rewrite <- IH. split; [by intros [_ ?]%Forall_cons|].
      intros ?. constructor; [by rewrite Hl|done].
    + split; [|by intros [? ?]].
      intros [[? Hx] _]%Forall_cons. by rewrite Hl in Hx.
Qed.

Lemma initial_counts_lookup fe (jira : list (string * list string)) T :
  T ∈ jira.*1 → initial_counts fe jira !! T = Some (count_lists fe T).
Proof.
  unfold initial_counts. generalize (∅ : gmap string nat).
  induction jira as [|[T' names] jira IH]; intros acc HT; simpl.
  { by apply elem_of_nil in HT. }
  destruct (decide (T ∈ jira.*1)) as [Hin|Hnotin]; [by apply IH|].
  rewrite fmap_cons in HT. apply elem_of_cons in HT as [->|?]; [|done].
  clear IH. simpl.
  assert (∀ acc : gmap string nat,
    foldl (λ m kv, <[kv.1 := count_lists fe kv.1]> m) acc jira !! T'
    = acc !! T') as ->.
  { clear acc. induction jira as [|[T2 n2] jira IH]; intros acc; [done|].
    simpl. rewrite fmap_cons, not_elem_of_cons in Hnotin.
    destruct Hnotin as [? ?]. rewrite IH by done.
    by rewrite lookup_insert_ne. }
  by rewrite lookup_insert_eq.
Qed.

End Naming.

Section NamingTheorem.
Context {order : SetOrder}.

Lemma sync_type_naming T names tm s c :
  list_counts s !! T = Some c →
  ∃ tr, trace (sync_type T names tm s).2 = trace s ++ tr ∧
        create_labels tr = nth_label T c <$> seq 1 (length (create_labels tr)).
Proof.
  intros Hc.
  destruct (sync_type_invariant (naming T c (trace s)) T names tm) with (s := s)
    as (s1 & (tr & Htr & _ & Hlabels) & Htrace & _).
  - by intros s' ne.
  - intros existing s1 s2. apply naming_step.
  - exists []. simpl. by rewrite app_nil_r, Nat.add_0_r.
  - exists tr. by rewrite <- Htrace.
Qed.

Lemma for_types_count_kept T pre tm s :
  T ∉ pre.*1 →
  list_counts (for_types pre tm s).2 !! T = list_counts s !! T.
Proof.
  intros HT.
  destruct (for_types_invariant_in
              (λ s', list_counts s' !! T = list_counts s !! T) tm pre)
    with (s := s) as (s1 & H1 & _ & Hc & _).
  - by intros s' ne.
  - intros existing T' s1 s2 HT'. apply count_kept_step. by intros ->.
  - done.
  - by rewrite <- Hc.
Qed.

(** C3, as amended (naming): when [sync_to_feedly] reconciles the types
    [pre ++ (T, names) :: post], [T] not being among [pre], the labels it
    synthesizes for [T] are, in order, "T-(c+1)", "T-(c+2)", ..., where [c]
    is the number of distinct labels of the snapshot that start with [T].
    [s1] is the state in which the turn of [T] begins. *)
Theorem sequential_labels pre T names post feedly_data fe test_mode :
  T ∉ pre.*1 →
  feedly_entities feedly_data = inr fe →
  let jira_data := pre ++ (T, names) :: post in
  let s1 := (for_types pre test_mode
               (State feedly_data ∅ (initial_counts fe jira_data) [])).2 in
  dom fe = list_to_set (omap item_label feedly_data) ∧
  ∃ tr, trace (sync_type T names test_mode s1).2 = trace s1 ++ tr ∧
        create_labels tr
        = nth_label T (count_lists fe T) <$> seq 1 (length (create_labels tr)).
Proof.
  intros HT Hfe jira_data s1. split; [by apply feedly_entities_dom|].
  apply sync_type_naming. unfold s1.
  rewrite for_types_count_kept by done. simpl.
  apply initial_counts_lookup. unfold jira_data.
  rewrite fmap_app, fmap_cons. apply elem_of_app. right. by left.
Qed.

End NamingTheorem.

(** C3 as stated fails: the only list of type "A" is labelled "A-2" and is
    full, so the count is 1 and the list created for the name "x" is
    labelled "A-2" as well, although the highest suffix in use is 2. *)
Lemma label_collision :
  create_labels (r_trace (sync_to_feedly [("A", ["x"])] lone_list true))
  = ["A-2"] ∧
  Some "A-2" ∈ item_label <$> lone_list.
Proof. split; [by vm_compute|]. by left. Qed.

Lemma sequential_labels_witness :
  ("A" ∉ no_types.*1) ∧
  feedly_entities lone_list = inr {["A-2" := {["k"]}]} ∧
  ∃ tr, trace (sync_type "A" ["x"] true
                 (State lone_list ∅ {["A" := 1]} [])).2 = [] ++ tr ∧
        create_labels tr = nth_label "A" 1 <$> seq 1 (length (create_labels tr)).
Proof.
  assert ("A" ∉ no_types.*1) as H1 by (by intros ?%elem_of_nil).
  assert (feedly_entities lone_list = inr {["A-2" := {["k"]}]}) as H2
    by (by vm_compute).
  split; [done|]. split; [done|].
  exact (proj2 (sequential_labels no_types "A" ["x"] [] lone_list _ true H1 H2)).
Defined.

Section Counting.
Context {order : SetOrder}.

(** *** Arithmetic of the count *)
Lemma ceil50_0 : ceil50 0 = 0.
Proof. reflexivity. Qed.

Lemma ceil50_step n : 0 < n → ceil50 n = S (ceil50 (n - 50 `min` n)).
Proof.
  intros Hn. unfold ceil50. destruct (decide (n ≤ 50)) as [Hle|Hgt].
  - replace (n - 50 `min` n) with 0 by lia. change ((0 + 49) / 50) with 0.
    symmetry. apply (Nat.div_unique _ _ _ (n - 1)); lia.
  - replace (n - 50 `min` n) with (n - 50) by lia.
    replace (n + 49) with ((n - 50 + 49) + 1 * 50) by lia.
    rewrite Nat.div_add by lia. lia.
Qed.

Lemma ceil_div_ceil50 (k : nat) : ceil_div (Z.of_nat k) 50 = Z.of_nat (ceil50 k).
Proof.
  unfold ceil_div, ceil50. rewrite Nat2Z.inj_div, Nat2Z.inj_add.
  f_equal. lia.
Qed.

Lemma totalSpareCapacity_spare T st :
  totalSpareCapacity (existing_of T st) = Z.of_nat (spare T st).
Proof.
  unfold spare. induction (existing_of T st) as [|it l IH]; [done|].
  change (totalSpareCapacity (it :: l))
    with (Z.max 0 (50 - Z.of_nat (length (entries it)))
          + totalSpareCapacity l)%Z.
  cbn [sum_list_with]. rewrite IH. unfold room. lia.
Qed.

(** *** The spare capacity under an update *)
Lemma belongs_with_entities T it ents :
  belongs T (with_entities it ents) = belongs T it.
Proof. done. Qed.

Lemma spare_insert T (st : list item) i it it' :
  st !! i = Some it → item_label it' = item_label it → belongs T it = true →
  spare T (<[i := it']> st) + room it = spare T st + room it'.
Proof.
  unfold spare, existing_of. revert i.
  induction st as [|x st IH]; intros [|i] Hi Hl Hb; simplify_eq/=.
  - assert (belongs T it' = true) as Hb' by (unfold belongs; by rewrite Hl).
    rewrite !filter_cons, decide_True, decide_True by done.
    cbn [sum_list_with]. lia.
  - specialize (IH i Hi Hl Hb). rewrite !filter_cons.
    destruct (decide (belongs T x = true)); cbn [sum_list_with]; lia.
Qed.

Lemma spare_zero T (st : list item) :
  (∀ it, it ∈ st → belongs T it = true → 50 ≤ length (entries it)) →
  spare T st = 0.
Proof.
  unfold spare, existing_of. induction st as [|x st IH]; intros Hfull; [done|].
  rewrite filter_cons.
  destruct (decide (belongs T x = true)) as [Hb|]; cbn [sum_list_with].
  - rewrite IH by (intros it Hit; apply Hfull; by right).
    assert (50 ≤ length (entries x)) by (apply Hfull; [by left|done]).
    unfold room. lia.
  - apply IH. intros it Hit. apply Hfull. by right.
Qed.

Lemma missing_missing_of T existing names st :
  select_existing 0 st T = inr existing →
  missing existing names st = missing_of T names st.
Proof.
  intros Hsel. apply set_eq; intros x.
  unfold missing_of, existing_of.
  rewrite elem_of_missing, elem_of_difference, elem_of_list_to_set,
    elem_of_union_list.
  split; intros [Hx Hnot]; (split; [done|]).
  - intros (X & (it & -> & [Hb Hit]%list_elem_of_filter)%list_elem_of_fmap & HxX).
    apply list_elem_of_lookup in Hit as [j Hj].
    apply (Hnot j it); [|done..].
    apply (elem_of_select_existing 0 st T existing j Hsel). by exists j, it.
  - intros i it Hi Hit Hxit. apply Hnot. exists (texts it). split; [|done].
    apply list_elem_of_fmap. exists it. split; [done|].
    apply list_elem_of_filter.
    apply (elem_of_select_existing 0 st T existing i Hsel) in Hi
      as (j & it' & -> & Hj & Hb). simpl in Hit. simplify_eq.
    split; [done|]. by eapply list_elem_of_lookup_2.
Qed.

(** *** One turn of the loop *)
Lemma safe_step T existing tm s s' :
  safe T s → new_entries s ≠ ∅ →
  iteration existing T tm s = (Normal, s') → safe T s'.
Proof.
  intros [Hwf Hc] Hne Hit.
  apply iteration_cases in Hit as
    [(pre & i & post & it & ents & id & label & _ & _ & Hi & _ & _ & _ & Hid
      & Hlabel & _ & ->)
    |[(c & _ & _ & _ & ->)|(e & ? & _)]]; [| |done|done].
  - split; [|done]. simpl. apply Forall_insert; [done|].
    unfold well_formed. simpl. rewrite Hid, Hlabel. by repeat split.
  - split; [done|]. simpl. by rewrite lookup_insert_eq.
Qed.

Lemma safe_no_raise T existing tm s e s' :
  safe T s → new_entries s ≠ ∅ →
  iteration existing T tm s ≠ (Raised e, s').
Proof.
  intros [Hwf [c Hc]] Hne Hit.
  apply iteration_cases in Hit as
    [(pre & i & post & it & ents & id & label & _ & _ & _ & _ & _ & _ & _
      & _ & ? & _)
    |[(c' & _ & _ & ? & _)|(e' & _ & _ & _ & _ & Hfail)]]; [done|done| |done].
  destruct Hfail as [(i & it & _ & Hi & Hnone)|Hnone]; [|congruence].
  rewrite Forall_forall in Hwf.
  destruct (Hwf it) as ([? ?] & [? ?] & [? ?]); [by eapply list_elem_of_lookup_2|].
  destruct Hnone as [?|[?|?]]; congruence.
Qed.

Lemma counting_step T N t0 existing tm s s' :
  reconciling T existing s → counting T N t0 s → new_entries s ≠ ∅ →
  iteration existing T tm s = (Normal, s') → counting T N t0 s'.
Proof.
  intros [Hsel Hdis] (tr & Htr & Hcount) Hne Hit.
  assert (0 < size (new_entries s)) as Hpos.
  { apply Nat.neq_0_lt_0. intros Hz. by apply size_empty_inv, leibniz_equiv in Hz. }
  apply iteration_cases in Hit as
    [(pre & i & post & it & ents & id & label & Hex & _ & Hi & Hents & Hlen
      & _ & _ & _ & _ & ->)
    |[(c & Hskip & _ & _ & ->)|(e & ? & _)]]; [| |done|done].
  - assert (i ∈ existing) as Hiex.
    { rewrite Hex. apply elem_of_app. right. by left. }
    destruct (length_to_pack_eq existing s i it ents Hdis Hiex Hi) as [Hk Hsame].
    eexists (tr ++ dispatch tm (UpdateList _ _ _ _)). simpl.
    split; [by rewrite Htr, app_assoc|].
    rewrite creates_snoc, app_nil_r. simpl.
    rewrite <- Hcount. f_equal. f_equal.
    assert (belongs T it = true) as Hb.
    { apply (elem_of_select_existing 0 _ _ _ i Hsel) in Hiex
        as (j & it' & -> & Hj & Hb). simpl in Hi. by simplify_eq. }
    pose proof (spare_insert T (store s) i it
      (with_entities it (ents ++ (keyword <$> to_pack s it ents))) Hi eq_refl Hb)
      as Hspare.
    unfold room, entries in Hspare. simpl in Hspare. rewrite Hents in Hspare.
    simpl in Hspare. rewrite length_app, length_fmap, Hk in Hspare.
    unfold to_pack at 1. rewrite size_remove_taken, Hsame
      by apply subseteq_difference_l, reflexivity.
    lia.
  - eexists (tr ++ dispatch tm (CreateList _ _)). simpl.
    split; [by rewrite Htr, app_assoc|].
    rewrite creates_snoc, length_app. simpl.
    rewrite <- Hcount.
    assert (spare T (store s) = 0) as ->.
    { apply spare_zero. intros it [j Hj]%list_elem_of_lookup Hb.
      assert (j ∈ existing) as Hjex.
      { apply (elem_of_select_existing 0 _ _ _ j Hsel). by exists j, it. }
      rewrite Forall_forall in Hskip.
      destruct (skipped_full existing s j it Hdis Hne Hjex Hj (Hskip j Hjex))
        as (ents & Hents & ?).
      unfold entries. by rewrite Hents. }
    unfold to_create. rewrite size_remove_taken by done.
    rewrite !Nat.sub_0_r, (ceil50_step (size (new_entries s))) by done.
    lia.
Qed.

End Counting.

Section Totality.
Context {order : SetOrder}.

(** A loop whose invariant rules out exceptions ends normally, with the
    invariant and nothing missing. *)
Lemma while_total (I : state → Prop) existing T tm :
  (∀ s s', I s → new_entries s ≠ ∅ →
           iteration existing T tm s = (Normal, s') → I s') →
  (∀ s e s', I s → new_entries s ≠ ∅ →
             iteration existing T tm s ≠ (Raised e, s')) →
  ∀ fuel s, size (new_entries s) ≤ fuel → I s →
    ∃ s', while_new_entries fuel existing T tm s = (Normal, s') ∧ I s'
          ∧ new_entries s' = ∅.
Proof.
  intros Hstep Hsafe fuel. induction fuel as [|fuel IH]; intros s Hfuel Hs.
  - assert (new_entries s = ∅) as Hempty
      by (apply leibniz_equiv, size_empty_inv; lia).
    exists s. by rewrite while_empty.
  - simpl. destruct (decide (new_entries s = ∅)) as [|Hne]; [by exists s|].
    destruct (iteration existing T tm s) as [[|e|] s1] eqn:Hit.
    + apply IH; [|by eauto].
      apply iteration_decreases in Hit as [? _]; [lia|done].
    + by destruct (Hsafe s e s1).
    + pose proof (iteration_status existing T tm s) as Hst.
      by rewrite Hit in Hst.
Qed.

Lemma safe_all_step jira existing T tm s s' :
  safe_all jira s → new_entries s ≠ ∅ →
  iteration existing T tm s = (Normal, s') → safe_all jira s'.
Proof.
  intros [Hwf Hc] Hne Hit.
  apply iteration_cases in Hit as
    [(pre & i & post & it & ents & id & label & _ & _ & Hi & _ & _ & _ & Hid
      & Hlabel & _ & ->)
    |[(c & _ & _ & _ & ->)|(e & ? & _)]]; [| |done|done].
  - split; [|done]. simpl. apply Forall_insert; [done|].
    unfold well_formed. simpl. rewrite Hid, Hlabel. by repeat split.
  - split; [done|]. simpl. intros T' HT'.
    destruct (decide (T = T')) as [->|]; [by rewrite lookup_insert_eq|].
    rewrite lookup_insert_ne by done. by apply Hc.
Qed.

Lemma safe_all_safe jira T s : safe_all jira s → T ∈ jira.*1 → safe T s.
Proof. intros [? Hc] HT. split; [done|by apply Hc]. Qed.

Lemma well_formed_select k st T :
  Forall well_formed st →
  ∃ existing, select_existing k st T = inr existing.
Proof.
  intros Hwf.
  destruct (select_existing_inr k st T) as [ex Hex].
  { eapply Forall_impl; [exact Hwf|]. by intros it (_ & ? & _). }
  destruct (select_existing k st T); [done|by eexists].
Qed.

(** The turn of one type, on a safe state: it ends normally, and an
    invariant of its loop holds at the end. *)
Lemma sync_type_total (I : state → Prop) jira T names tm s :
  T ∈ jira.*1 → safe_all jira s →
  (∀ existing, select_existing 0 (store s) T = inr existing →
     I (State (store s) (missing existing names (store s))
              (list_counts s) (trace s)) ∧
     ∀ s1 s2, safe_all jira s1 → I s1 → new_entries s1 ≠ ∅ →
              iteration existing T tm s1 = (Normal, s2) → I s2) →
  ∃ s', sync_type T names tm s = (Normal, s') ∧ safe_all jira s' ∧ I s'
        ∧ new_entries s' = ∅.
Proof.
  intros HT Hsafe HI. unfold sync_type.
  destruct (well_formed_select 0 (store s) T) as [existing Hsel]; [apply Hsafe|].
  rewrite Hsel. destruct (HI existing Hsel) as [Hinit Hstep].
  destruct (while_total (λ s1, safe_all jira s1 ∧ I s1) existing T tm)
    with (fuel := size (missing existing names (store s)))
         (s := State (store s) (missing existing names (store s))
                     (list_counts s) (trace s))
    as (s' & Hrun & [? ?] & ?).
  - intros s1 s2 [? ?] ? ?. split; [by eapply safe_all_step|by eapply Hstep].
  - intros s1 e s2 [? ?] ?. apply safe_no_raise; [|done].
    by eapply safe_all_safe.
  - done.
  - done.
  - exists s'. split; [exact Hrun|]. auto.
Qed.

Lemma for_types_total jira' jira tm s :
  (∀ T, T ∈ jira'.*1 → T ∈ jira.*1) → safe_all jira s →
  ∃ s', for_types jira' tm s = (Normal, s') ∧ safe_all jira s'.
Proof.
  revert s. induction jira' as [|[T names] jira' IH]; intros s Hsub Hsafe.
  { by exists s. }
  simpl.
  destruct (sync_type_total (λ _, True) jira T names tm s)
    as (s1 & -> & Hsafe1 & _); [apply Hsub; by left|done|done|].
  apply IH; [|done]. intros T' HT'. apply Hsub. by right.
Qed.

Lemma initial_safe_all jira snapshot fe :
  Forall well_formed snapshot →
  safe_all jira (State snapshot ∅ (initial_counts fe jira) []).
Proof.
  intros Hwf. split; [done|]. intros T HT. simpl.
  by rewrite initial_counts_lookup.
Qed.

Lemma well_formed_feedly_entities snapshot :
  Forall well_formed snapshot → ∃ fe, feedly_entities snapshot = inr fe.
Proof.
  intros Hwf. apply feedly_entities_labels.
  eapply Forall_impl; [exact Hwf|]. by intros it (_ & ? & _).
Qed.

End Totality.

(** ** Termination of the packing loop *)

Section Termination.
Context {order : SetOrder}.




End Termination.



Section CountingTheorem.
Context {order : SetOrder}.

Lemma expected_creates_nat T names st :
  expected_creates T names st
  = Z.of_nat (ceil50 (size (missing_of T names st) - spare T st)).
Proof.
  unfold expected_creates.
  by rewrite totalSpareCapacity_spare, <- Nat2Z.inj_sub_max, ceil_div_ceil50.
Qed.

Lemma sync_type_creates jira T names tm s :
  T ∈ jira.*1 → safe_all jira s →
  ∃ s' tr, sync_type T names tm s = (Normal, s') ∧ trace s' = trace s ++ tr ∧
           Z.of_nat (length (creates tr)) = expected_creates T names (store s).
Proof.
  intros HT Hsafe.
  destruct (well_formed_select 0 (store s) T) as [existing Hsel]; [apply Hsafe|].
  set (N := ceil50 (size (missing_of T names (store s)) - spare T (store s))).
  destruct (sync_type_total
              (λ s1, reconciling T existing s1 ∧ counting T N (trace s) s1)
              jira T names tm s HT Hsafe)
    as (s' & Hrun & _ & [_ (tr & Htr & Hcount)] & Hempty).
  { intros existing' Hsel'. rewrite Hsel in Hsel'. injection Hsel' as <-. split.
    - split; [by apply reconciling_initial|].
      exists []. simpl. rewrite app_nil_r. split; [done|].
      by rewrite (missing_missing_of T existing).
    - intros s1 s2 _ [Hrec Hcnt] Hne Hit.
      split; [by eapply reconciling_step|by eapply counting_step]. }
  exists s', tr. split; [done|]. split; [done|].
  rewrite expected_creates_nat. f_equal. fold N. rewrite <- Hcount.
  rewrite Hempty, size_empty. change (0 - spare T (store s')) with 0.
  rewrite ceil50_0. lia.
Qed.

(** C2, as amended (minimal creation): let every list record of the
    snapshot carry an id, a label and entities.  When [sync_to_feedly]
    reconciles the types [pre ++ (T, names) :: post], the turns of [pre]
    end normally in a state [s1], and the turn of [T] ends normally and
    emits exactly ceil(max(0, |missing| - totalSpareCapacity) / 50)
    creates, [missing] and the spare capacity being taken over the lists
    of the store of [s1] whose label starts with [T] (the snapshot itself
    when [pre] is empty). *)
Theorem minimal_creation pre T names post feedly_data test_mode :
  Forall well_formed feedly_data →
  ∃ fe s1 s2 tr,
    feedly_entities feedly_data = inr fe ∧
    for_types pre test_mode
      (State feedly_data ∅
             (initial_counts fe (pre ++ (T, names) :: post)) [])
    = (Normal, s1) ∧
    sync_type T names test_mode s1 = (Normal, s2) ∧
    trace s2 = trace s1 ++ tr ∧
    Z.of_nat (length (creates tr)) = expected_creates T names (store s1).
Proof.
  intros Hwf. set (jira := pre ++ (T, names) :: post).
  destruct (well_formed_feedly_entities feedly_data Hwf) as [fe Hfe].
  destruct (for_types_total pre jira test_mode
              (State feedly_data ∅ (initial_counts fe jira) []))
    as (s1 & Hpre & Hsafe1).
  { intros T' HT'. unfold jira. rewrite fmap_app. apply elem_of_app. by left. }
  { by apply initial_safe_all. }
  destruct (sync_type_creates jira T names test_mode s1) as (s2 & tr & ? & ? & ?).
  { unfold jira. rewrite fmap_app, fmap_cons. apply elem_of_app. right. by left. }
  { done. }
  by exists fe, s1, s2, tr.
Qed.

End CountingTheorem.

(** C2 as stated fails in two ways.  On a snapshot with a record that has
    no label the run is abandoned and creates nothing, where the formula (no
    list of the type, one missing name) asks for one create.  And the list
    "AB-1", with room for one name, belongs to the types "A" and "AB": the
    turn of "A" fills it, so that the turn of "AB" creates "AB-2", where the
    formula, taken over the snapshot as fetched, asks for no create for
    either type. *)
Lemma creation_count_off :
  (r_status (sync_to_feedly [("A", ["x"])] unlabelled_list false)
   = Raised (KeyError "label") ∧
   length (creates (r_trace (sync_to_feedly [("A", ["x"])] unlabelled_list
                                            false)))
   = 0 ∧
   expected_creates "A" ["x"] unlabelled_list = 1%Z) ∧
  (r_status (sync_to_feedly two_types shared_list false) = Normal ∧
   create_labels (r_trace (sync_to_feedly two_types shared_list false))
   = ["AB-2"] ∧
   expected_creates "A" ["x"] shared_list = 0%Z ∧
   expected_creates "AB" ["y"] shared_list = 0%Z).
Proof. by vm_compute. Qed.

Lemma minimal_creation_witness :
  Forall well_formed nearly_full ∧
  ∃ fe s1 s2 tr,
    feedly_entities nearly_full = inr fe ∧
    for_types [] false
      (State nearly_full ∅
             (initial_counts fe ([] ++ ("Server", ["web-1"; "web-2"]) :: [])) [])
    = (Normal, s1) ∧
    sync_type "Server" ["web-1"; "web-2"] false s1 = (Normal, s2) ∧
    trace s2 = trace s1 ++ tr ∧
    Z.of_nat (length (creates tr))
    = expected_creates "Server" ["web-1"; "web-2"] (store s1).
Proof.
  assert (Forall well_formed nearly_full) as Hwf.
  { repeat constructor; by eexists. }
  split; [exact Hwf|].
  exact (minimal_creation [] "Server" ["web-1"; "web-2"] [] nearly_full false Hwf).
Defined.

Section Coverage.
Context {order : SetOrder}.

Lemma startswith_app (T rest : string) : startswith (T +:+ rest) T = true.
Proof.
  induction T as [|c T IH]; [by destruct rest|].
  change (startswith (String c (T +:+ rest)) (String c T) = true).
  simpl. by rewrite decide_True.
Qed.

Lemma omap_text_keywords (l : list string) : omap text (keyword <$> l) = l.
Proof. induction l as [|x l IH]; [done|]. simpl. f_equal. exact IH. Qed.

(** What is covered stays covered. *)
Lemma covered_step T' L existing T tm s s' :
  new_entries s ≠ ∅ → iteration existing T tm s = (Normal, s') →
  covered_by T' L (store s) (trace s) → covered_by T' L (store s') (trace s').
Proof.
  intros Hne Hit Hcov.
  apply iteration_cases in Hit as
    [(pre & i & post & it & ents & id & label & _ & _ & Hi & Hents & _ & _ & _
      & _ & _ & ->)
    |[(c & _ & _ & _ & ->)|(e & ? & _)]]; [| |done|done].
  - destruct Hcov as [(it' & [j Hj]%list_elem_of_lookup & Hb & HL)
                     |(l & es & Hin & ? & ?)].
    + left. simpl. destruct (decide (i = j)) as [<-|Hij].
      * simplify_eq.
        exists (with_entities it (ents ++ (keyword <$> to_pack s it ents))).
        split; [|split; [done|]].
        -- eapply list_elem_of_lookup_2, list_lookup_insert_eq.
           by eapply lookup_lt_Some.
        -- rewrite texts_with_entities by done. apply elem_of_union. by left.
      * exists it'. split; [|done].
        eapply list_elem_of_lookup_2. by rewrite list_lookup_insert_ne.
    + right. exists l, es. simpl. rewrite intents_app. split; [|done].
      apply elem_of_app. by left.
  - destruct Hcov as [?|(l & es & Hin & ? & ?)]; [by left|].
    right. exists l, es. simpl. rewrite intents_app. split; [|done].
    apply elem_of_app. by left.
Qed.

(** Every name of the type is still missing or already covered. *)
Lemma cover_step T (names : list string) existing tm s s' :
  reconciling T existing s →
  (∀ L, L ∈ names → L ∈ new_entries s ∨ covered_by T L (store s) (trace s)) →
  new_entries s ≠ ∅ → iteration existing T tm s = (Normal, s') →
  ∀ L, L ∈ names → L ∈ new_entries s' ∨ covered_by T L (store s') (trace s').
Proof.
  intros [Hsel Hdis] Hcov Hne Hit L HL.
  destruct (Hcov L HL) as [Hnew|Hdone];
    [|right; by eapply covered_step].
  apply iteration_cases in Hit as
    [(pre & i & post & it & ents & id & label & Hex & _ & Hi & Hents & _ & _ & _
      & _ & _ & ->)
    |[(c & _ & _ & _ & ->)|(e & ? & _)]]; [| |done|done].
  - simpl. destruct (decide (L ∈ to_pack s it ents)) as [Hin|Hout].
    + right. left.
      exists (with_entities it (ents ++ (keyword <$> to_pack s it ents))).
      split; [|split].
      * eapply list_elem_of_lookup_2, list_lookup_insert_eq.
        by eapply lookup_lt_Some.
      * assert (i ∈ existing) as Hiex.
        { rewrite Hex. apply elem_of_app. right. by left. }
        apply (elem_of_select_existing 0 _ _ _ i Hsel) in Hiex
          as (j & it' & -> & Hj & Hb). simpl in Hi. by simplify_eq.
      * rewrite texts_with_entities by done. apply elem_of_union. right.
        by apply elem_of_list_to_set.
    + left. apply elem_of_difference. split; [done|].
      by rewrite elem_of_list_to_set.
  - simpl. destruct (decide (L ∈ to_create s)) as [Hin|Hout].
    + right. right. eexists _, _. rewrite intents_app, intents_dispatch.
      split; [apply elem_of_app; right; by left|].
      split; [apply startswith_app|]. by rewrite omap_text_keywords.
    + left. apply elem_of_difference. split; [done|].
      by rewrite elem_of_list_to_set.
Qed.

Lemma cover_initial T names existing st tr :
  select_existing 0 st T = inr existing →
  ∀ L, L ∈ names → L ∈ missing existing names st ∨ covered_by T L st tr.
Proof.
  intros Hsel L HL.
  destruct (decide (L ∈ missing existing names st)) as [|Hout]; [by left|].
  right. left. rewrite (missing_missing_of T) in Hout by done.
  unfold missing_of in Hout.
  destruct (decide (L ∈ ⋃ (texts <$> existing_of T st))) as [Hin|Hnin].
  - apply elem_of_union_list in Hin
      as (X & (it & -> & [Hb Hit]%list_elem_of_filter)%list_elem_of_fmap & HLX).
    by exists it.
  - destruct Hout. apply elem_of_difference. split; [|done].
    by apply elem_of_list_to_set.
Qed.

(** A normal run over safe data covers every name of every type. *)
Lemma for_types_cover jira jira' tm s :
  (∀ x, x ∈ jira' → x ∈ jira) → safe_all jira s →
  ∃ s', for_types jira' tm s = (Normal, s') ∧ safe_all jira s' ∧
    (∀ T L, covered_by T L (store s) (trace s) →
            covered_by T L (store s') (trace s')) ∧
    (∀ T names L, (T, names) ∈ jira' → L ∈ names →
                  covered_by T L (store s') (trace s')).
Proof.
  revert s. induction jira' as [|[T names] jira' IH]; intros s Hsub Hsafe.
  { exists s. split; [done|]. split; [done|]. split; [done|].
    by intros T names L ?%elem_of_nil. }
  assert (T ∈ jira.*1) as HT.
  { apply list_elem_of_fmap. exists (T, names). split; [done|].
    apply Hsub. by left. }
  destruct (well_formed_select 0 (store s) T) as [existing Hsel]; [apply Hsafe|].
  destruct (sync_type_total
    (λ s1, reconciling T existing s1 ∧
           (∀ L, L ∈ names →
                 L ∈ new_entries s1 ∨ covered_by T L (store s1) (trace s1)) ∧
           (∀ T' L, covered_by T' L (store s) (trace s) →
                    covered_by T' L (store s1) (trace s1)))
    jira T names tm s HT Hsafe)
    as (s1 & Hrun & Hsafe1 & (_ & Hcov & Hmono) & Hempty).
  { intros existing' Hsel'. rewrite Hsel in Hsel'. injection Hsel' as <-. split.
    - split; [by apply reconciling_initial|]. split; [|done].
      by apply cover_initial.
    - intros s1 s2 _ (Hrec & Hcov & Hmono) Hne Hit.
      split; [by eapply reconciling_step|].
      split; [by eapply cover_step|].
      intros T' L HL. eapply covered_step; eauto. }
  simpl. rewrite Hrun.
  destruct (IH s1) as (s' & Hrest & Hsafe' & Hmono' & Hcov'); [|done|].
  { intros x Hx. apply Hsub. by right. }
  exists s'. split; [done|]. split; [done|]. split.
  - intros T' L HL. by apply Hmono', Hmono.
  - intros T' names' L [[= -> ->]|Hin]%elem_of_cons HL; [|by eapply Hcov'].
    apply Hmono'. destruct (Hcov L HL) as [Hnew|?]; [|done].
    rewrite Hempty in Hnew. by apply elem_of_empty in Hnew.
Qed.

End Coverage.

Section Destination.
Context {order : SetOrder}.
Variable new_id : list item → option string.
Variable snapshot : list item.
Hypothesis new_id_fresh : fresh_ids new_id.
Hypothesis snapshot_wf : Forall well_formed snapshot.
Hypothesis snapshot_ids : NoDup (item_id <$> snapshot).

Lemma apply_intents_snoc dest ps p :
  apply_intents new_id dest (ps ++ [p])
  = apply_intent new_id (apply_intents new_id dest ps) p.
Proof. unfold apply_intents. by rewrite foldl_app. Qed.

(** With distinct ids, replacing the list that has a given id is an update
    in place. *)
Lemma replace_by_id (st : list item) i it id label es :
  NoDup (item_id <$> st) → st !! i = Some it →
  item_id it = Some id → item_label it = Some label →
  (λ x, if decide (item_id x = Some id)
        then Item (Some id) (Some label) (Some es) else x) <$> st
  = <[i := with_entities it es]> st.
Proof.
  intros Hnd Hi Hid Hlabel. apply list_eq; intros j.
  rewrite list_lookup_fmap. destruct (decide (i = j)) as [<-|Hij].
  - rewrite list_lookup_insert_eq by by eapply lookup_lt_Some.
    rewrite Hi. simpl. rewrite decide_True by done.
    unfold with_entities. by rewrite Hid, Hlabel.
  - rewrite list_lookup_insert_ne by done.
    destruct (st !! j) as [x|] eqn:Hj; [|done]. simpl.
    rewrite decide_False; [done|]. intros Hx. apply Hij.
    apply (NoDup_lookup (item_id <$> st) i j (Some id)); [done|..];
      rewrite list_lookup_fmap.
    + by rewrite Hi, <- Hid.
    + by rewrite Hj, <- Hx.
Qed.

Lemma ids_insert_with_entities (st : list item) i it ents :
  st !! i = Some it →
  item_id <$> <[i := with_entities it ents]> st = item_id <$> st.
Proof.
  intros Hi. rewrite list_fmap_insert. simpl.
  apply list_insert_id. by rewrite list_lookup_fmap, Hi.
Qed.

Lemma linked_initial counts : linked new_id snapshot (State snapshot ∅ counts []).
Proof.
  exists []. simpl. rewrite app_nil_r. repeat split; try constructor.
  by intros l es ?%elem_of_nil.
Qed.

Lemma linked_step existing T tm s s' :
  linked new_id snapshot s → new_entries s ≠ ∅ →
  iteration existing T tm s = (Normal, s') → linked new_id snapshot s'.
Proof.
  intros (made & Happly & Hids & Hfresh & Hlabels & Hmade) Hne Hit.
  apply iteration_cases in Hit as
    [(pre & i & post & it & ents & id & label & _ & _ & Hi & Hents & _ & _ & Hid
      & Hlabel & _ & ->)
    |[(c & _ & _ & _ & ->)|(e & ? & _)]]; [| |done|done].
  - exists made. simpl. rewrite intents_app, intents_dispatch, apply_intents_snoc.
    rewrite Happly. simpl. rewrite fmap_app.
    split; [|split; [by rewrite ids_insert_with_entities|split; [done|split; [done|]]]].
    + f_equal.
      * apply replace_by_id; [by rewrite Hids|done..].
      * apply list_eq; intros j. rewrite list_lookup_fmap.
        destruct (made !! j) as [c|] eqn:Hj; [|done]. simpl.
        rewrite decide_False; [done|]. intros Hc.
        rewrite Forall_forall in Hfresh.
        apply (Hfresh c); [by eapply list_elem_of_lookup_2|].
        rewrite Hc, <- Hids, <- Hid. apply list_elem_of_fmap_2.
        by eapply list_elem_of_lookup_2.
    + intros l es [Hin|[=]%list_elem_of_singleton]%elem_of_app. by apply Hmade.
  - set (l := T +:+ "-" +:+ pretty (S c)).
    set (es := keyword <$> to_create s).
    set (c' := Item (new_id (store s ++ made)) (Some l) (Some es)).
    exists (made ++ [c']). simpl.
    rewrite intents_app, intents_dispatch, apply_intents_snoc, Happly. simpl.
    split; [by rewrite <- app_assoc|]. split; [done|].
    split; [|split].
    + apply Forall_app. split; [done|]. constructor; [|constructor]. simpl.
      destruct (new_id (store s ++ made)) as [x|] eqn:Hx.
      * intros Hin. apply (new_id_fresh _ _ Hx).
        rewrite fmap_app, Hids. apply elem_of_app. by left.
      * intros (it & Hnone & Hit)%list_elem_of_fmap.
        rewrite Forall_forall in snapshot_wf.
        destruct (snapshot_wf it Hit) as ([? Hsome] & _). congruence.
    + apply Forall_app. split; [done|]. by repeat constructor.
    + intros l' es' [Hin|Heq%list_elem_of_singleton]%elem_of_app.
      * destruct (Hmade l' es' Hin) as (c0 & ? & ? & ?).
        exists c0. split; [|done]. apply elem_of_app. by left.
      * injection Heq as -> ->.
        exists c'. split; [|done]. apply elem_of_app. right. by left.
Qed.

(** After a normal run the destination holds the final store and the
    created lists, and every name is in a list of its type. *)
Lemma sync_covers jira tm :
  let r := sync_to_feedly jira snapshot tm in
  r_status r = Normal ∧
  ∀ T names L, (T, names) ∈ jira → L ∈ names →
    ∃ it, it ∈ apply_intents new_id snapshot (intents (r_trace r)) ∧
          belongs T it = true ∧ L ∈ texts it.
Proof.
  pose proof (sync_invariant (linked new_id snapshot) tm
                (λ _ _ Hs, Hs) (λ existing T, linked_step existing T tm)
                jira snapshot linked_initial) as Hlink.
  unfold sync_to_feedly in *.
  destruct (well_formed_feedly_entities snapshot snapshot_wf) as [fe Hfe].
  rewrite Hfe in *.
  destruct (for_types_cover jira jira tm
              (State snapshot ∅ (initial_counts fe jira) []))
    as (s' & Hrun & _ & _ & Hcov); [done|by apply initial_safe_all|].
  rewrite Hrun in *. simpl in *. split; [done|].
  destruct Hlink as (s1 & (made & Happly & _ & _ & _ & Hmade) & Htr & _ & Hst).
  specialize (Hst eq_refl). rewrite Htr, Hst in *.
  intros T names L Hin HL. rewrite Happly.
  destruct (Hcov T names L Hin HL)
    as [(it & ? & ? & ?)|(l & es & Hcreate & Hprefix & Htext)].
  - exists it. split; [|done]. apply elem_of_app. by left.
  - destruct (Hmade l es Hcreate) as (c & Hc & Hl & Hes).
    exists c. split; [apply elem_of_app; by right|].
    split; [unfold belongs; by rewrite Hl|].
    unfold texts. rewrite Hes. by apply elem_of_list_to_set.
Qed.

Lemma applied_has_labels jira tm :
  Forall (λ it, is_Some (item_label it))
    (apply_intents new_id snapshot
       (intents (r_trace (sync_to_feedly jira snapshot tm)))).
Proof.
  pose proof (sync_invariant
    (λ s, linked new_id snapshot s ∧
          Forall (λ it, is_Some (item_label it)) (store s)) tm) as Hinv.
  destruct (Hinv (λ _ _ Hs, Hs)) with (jira := jira) (feedly_data := snapshot)
    as (s1 & [(made & Happly & _ & _ & Hlabels & _) Hstore] & Htr & _).
  - intros existing T s s' [Hl Hs] Hne Hit. split; [by eapply linked_step|].
    apply iteration_cases in Hit as
      [(pre & i & post & it & ents & id & label & _ & _ & Hi & _ & _ & _ & _
        & Hlabel & _ & ->)
      |[(c & _ & _ & _ & ->)|(e & ? & _)]]; [| |done|done]; [|done].
    simpl. apply Forall_insert; [done|]. simpl. by rewrite Hlabel.
  - intros counts. split; [apply linked_initial|]. simpl.
    eapply Forall_impl; [exact snapshot_wf|]. by intros it (_ & ? & _).
  - simpl in Htr. rewrite <- Htr, Happly. by apply Forall_app.
Qed.

End Destination.

Section SecondRun.
Context {order : SetOrder}.

Lemma sync_type_silent T names tm s :
  Forall (λ it, is_Some (item_label it)) (store s) → new_entries s = ∅ →
  (∀ L, L ∈ names → ∃ it, it ∈ store s ∧ belongs T it = true ∧ L ∈ texts it) →
  sync_type T names tm s = (Normal, s).
Proof.
  intros Hlabels Hempty Hcov. unfold sync_type.
  destruct (select_existing_inr 0 (store s) T Hlabels) as [ex Hex].
  destruct (select_existing 0 (store s) T) as [|existing] eqn:Hsel; [done|].
  assert (missing existing names (store s) = ∅) as ->.
  { apply set_eq; intros L. rewrite elem_of_missing.
    split; [|by intros ?%elem_of_empty].
    intros [HL Hnot].
    destruct (Hcov L HL) as (it & [j Hj]%list_elem_of_lookup & Hb & Hin).
    destruct (Hnot j it); [|done..].
    apply (elem_of_select_existing 0 _ _ _ j Hsel). by exists j, it. }
  unfold _add_entries_to_feedly. rewrite while_empty by done.
  destruct s. simpl in *. by subst.
Qed.

Lemma for_types_silent jira tm s :
  Forall (λ it, is_Some (item_label it)) (store s) → new_entries s = ∅ →
  (∀ T names L, (T, names) ∈ jira → L ∈ names →
     ∃ it, it ∈ store s ∧ belongs T it = true ∧ L ∈ texts it) →
  for_types jira tm s = (Normal, s).
Proof.
  intros Hlabels Hempty. induction jira as [|[T names] jira IH]; intros Hcov.
  { done. }
  simpl. rewrite sync_type_silent; [|done..|].
  - apply IH. intros T' names' L Hin. apply Hcov. by right.
  - intros L. apply Hcov. by left.
Qed.

(** A run against a destination that covers every name does nothing. *)
Lemma covered_run_is_silent jira dest tm :
  Forall (λ it, is_Some (item_label it)) dest →
  (∀ T names L, (T, names) ∈ jira → L ∈ names →
     ∃ it, it ∈ dest ∧ belongs T it = true ∧ L ∈ texts it) →
  r_trace (sync_to_feedly jira dest tm) = [].
Proof.
  intros Hlabels Hcov. unfold sync_to_feedly.
  destruct (proj1 (feedly_entities_labels dest) Hlabels) as [fe ->].
  by rewrite for_types_silent.
Qed.

Lemma for_types_app pre post tm s :
  for_types (pre ++ post) tm s
  = match for_types pre tm s with
    | (Normal, s1) => for_types post tm s1
    | r => r
    end.
Proof.
  revert s. induction pre as [|[T names] pre IH]; intros s; [done|].
  simpl. destruct (sync_type T names tm s) as [[|e|] s1]; auto.
Qed.

Lemma feedly_entities_unlabelled acc (feedly_data : list item) it :
  it ∈ feedly_data → item_label it = None →
  feedly_entities_from acc feedly_data = inl (KeyError "label").
Proof.
  intros Hin Hnone. revert acc.
  induction Hin as [it rest|it it' rest Hin IH]; intros acc; simpl.
  - by rewrite Hnone.
  - destruct (item_label it'); [apply IH|]; done.
Qed.

End SecondRun.

Lemma string_length_app (a b : string) :
  String.length (a +:+ b) = String.length a + String.length b.
Proof.
  induction a as [|c a IH]; [done|].
  change (String c a +:+ b) with (String c (a +:+ b)). simpl. by rewrite IH.
Qed.

Lemma longer_id_longer (dest : list item) it x :
  it ∈ dest → item_id it = Some x →
  String.length x
  < String.length (foldr (λ it acc, default "" (item_id it) +:+ acc) "!" dest).
Proof.
  intros Hin Hx.
  induction Hin as [it rest|it it' rest Hin IH]; simpl;
    rewrite string_length_app.
  - rewrite Hx. simpl.
    assert (0 < String.length
                  (foldr (λ it acc, default "" (item_id it) +:+ acc) "!" rest))
      as Hpos.
    { clear. induction rest as [|y rest IH]; simpl; [lia|].
      rewrite string_length_app. lia. }
    lia.
  - specialize (IH Hx). lia.
Qed.

Lemma longer_id_fresh : fresh_ids longer_id.
Proof.
  intros dest x [= <-] (it & Hid & Hin)%list_elem_of_fmap.
  pose proof (longer_id_longer dest it _ Hin (eq_sym Hid)). lia.
Qed.

Section DestinationTheorems.
Context {order : SetOrder}.

(** C6, as amended (coverage): let every list record of the snapshot carry
    an id, a label and entities, the ids being pairwise distinct, and let
    the destination give new lists unused ids.  Then, after the intents of
    a run are applied to the snapshot, every label [L] of every type [T] is
    the text of an entry of some list whose label starts with [T]. *)
Theorem coverage new_id jira_data feedly_data test_mode T names L :
  fresh_ids new_id → Forall well_formed feedly_data →
  NoDup (item_id <$> feedly_data) →
  (T, names) ∈ jira_data → L ∈ names →
  ∃ it e,
    it ∈ apply_intents new_id feedly_data
           (intents (r_trace (sync_to_feedly jira_data feedly_data test_mode)))
    ∧ belongs T it = true ∧ e ∈ entries it ∧ text e = Some L.
Proof.
  intros Hfresh Hwf Hids Hin HL.
  destruct (sync_covers new_id feedly_data Hfresh Hwf Hids jira_data test_mode)
    as [_ Hcov].
  destruct (Hcov T names L Hin HL) as (it & Hit & Hb & Htext).
  apply elem_of_list_to_set, list_elem_of_omap in Htext as (e & ? & ?).
  by exists it, e.
Qed.

(** C5, as amended (idempotence): under the same conditions on the
    snapshot and the destination, a second run with the same types against
    the snapshot with the intents of the first run applied emits nothing. *)
Theorem idempotence new_id jira_data feedly_data test_mode test_mode' :
  fresh_ids new_id → Forall well_formed feedly_data →
  NoDup (item_id <$> feedly_data) →
  r_trace
    (sync_to_feedly jira_data
       (apply_intents new_id feedly_data
          (intents (r_trace (sync_to_feedly jira_data feedly_data test_mode))))
       test_mode')
  = [].
Proof.
  intros Hfresh Hwf Hids. apply covered_run_is_silent.
  - by apply applied_has_labels.
  - by apply sync_covers.
Qed.

(** C7, as amended (failure semantics): a record without a label is not
    set aside: the run stops with [KeyError] before any type is reconciled,
    and emits nothing; and an exception raised in the turn of one type ends
    the run, whatever types were still to come. *)
Theorem failure_ends_the_run :
  (∀ jira_data feedly_data test_mode it,
     it ∈ feedly_data → item_label it = None →
     sync_to_feedly jira_data feedly_data test_mode
     = Report (Raised (KeyError "label")) feedly_data ∅ []) ∧
  (∀ pre T names post test_mode s s1 e s2,
     for_types pre test_mode s = (Normal, s1) →
     sync_type T names test_mode s1 = (Raised e, s2) →
     for_types (pre ++ (T, names) :: post) test_mode s = (Raised e, s2)).
Proof.
  split.
  - intros jira_data feedly_data test_mode it Hin Hnone.
    unfold sync_to_feedly, feedly_entities.
    by rewrite (feedly_entities_unlabelled ∅ feedly_data it).
  - intros pre T names post test_mode s s1 e s2 Hpre Hturn.
    rewrite for_types_app, Hpre. simpl. by rewrite Hturn.
Qed.

End DestinationTheorems.

(** C6 as stated fails on a snapshot with a record that has no label: the
    run emits nothing, and no list of type "A" holds "x" afterwards. *)
Lemma coverage_unlabelled :
  ¬ ∃ it,
      it ∈ apply_intents longer_id unlabelled_list
             (intents (r_trace (sync_to_feedly [("A", ["x"])] unlabelled_list
                                               false)))
      ∧ belongs "A" it = true ∧ "x" ∈ texts it.
Proof.
  intros (it & Hin & Hb & _).
  change (it ∈ unlabelled_list) in Hin.
  apply list_elem_of_singleton in Hin as ->. discriminate.
Qed.

(** C5 as stated fails when a run is cut short.  The first run creates
    "AB-1" for "x", then raises [KeyError] on the list "A-1", which has no
    id, and never reaches type "C".  In the second run "AB-1" covers "x" for
    type "A" as well, so that "C" is reached and a list is created for it. *)
Lemma second_run_not_silent :
  r_status (sync_to_feedly three_types nameless_list false)
  = Raised (KeyError "id") ∧
  intents (r_trace (sync_to_feedly three_types nameless_list false))
  = [CreateList "AB-1" [keyword "x"]] ∧
  intents (r_trace
    (sync_to_feedly three_types
       (apply_intents longer_id nameless_list
          (intents (r_trace (sync_to_feedly three_types nameless_list false))))
       false))
  = [CreateList "C-1" [keyword "y"]].
Proof. by vm_compute. Qed.

(** C7 as stated fails: with a record that has no label nothing is
    reconciled, where the run without that record creates "A-1"; and the
    exception raised for type "A" keeps type "C" from being reconciled. *)
Lemma unlabelled_not_excluded :
  sync_to_feedly [("A", ["x"])] unlabelled_list true
  = Report (Raised (KeyError "label")) unlabelled_list ∅ [] ∧
  intents (r_trace (sync_to_feedly [("A", ["x"])] [] true))
  = [CreateList "A-1" [keyword "x"]] ∧
  r_status (sync_to_feedly three_types nameless_list true)
  = Raised (KeyError "id") ∧
  create_labels (r_trace (sync_to_feedly three_types nameless_list true))
  = ["AB-1"].
Proof. by vm_compute. Qed.

Lemma coverage_witness :
  fresh_ids longer_id ∧ Forall well_formed nearly_full ∧
  NoDup (item_id <$> nearly_full) ∧
  ("Server", ["web-1"; "web-2"]) ∈ [("Server", ["web-1"; "web-2"])] ∧
  "web-1" ∈ ["web-1"; "web-2"] ∧
  ∃ it e,
    it ∈ apply_intents longer_id nearly_full
           (intents (r_trace (sync_to_feedly [("Server", ["web-1"; "web-2"])]
                                             nearly_full false)))
    ∧ belongs "Server" it = true ∧ e ∈ entries it ∧ text e = Some "web-1".
Proof.
  assert (Forall well_formed nearly_full) as Hwf.
  { repeat constructor; by eexists. }
  assert (NoDup (item_id <$> nearly_full)) as Hids by apply NoDup_singleton.
  assert (("Server", ["web-1"; "web-2"]) ∈ [("Server", ["web-1"; "web-2"])])
    as Hin by (by left).
  assert ("web-1" ∈ ["web-1"; "web-2"]) as HL by (by left).
  repeat (split; [done || exact longer_id_fresh|]).
  exact (coverage longer_id _ nearly_full false "Server" _ "web-1"
                  longer_id_fresh Hwf Hids Hin HL).
Defined.

Lemma idempotence_witness :
  fresh_ids longer_id ∧ Forall well_formed nearly_full ∧
  NoDup (item_id <$> nearly_full) ∧
  r_trace
    (sync_to_feedly [("Server", ["web-1"; "web-2"])]
       (apply_intents longer_id nearly_full
          (intents (r_trace (sync_to_feedly [("Server", ["web-1"; "web-2"])]
                                            nearly_full false))))
       false)
  = [].
Proof.
  assert (Forall well_formed nearly_full) as Hwf.
  { repeat constructor; by eexists. }
  assert (NoDup (item_id <$> nearly_full)) as Hids by apply NoDup_singleton.
  repeat (split; [done || exact longer_id_fresh|]).
  exact (idempotence longer_id [("Server", ["web-1"; "web-2"])] nearly_full
                     false false longer_id_fresh Hwf Hids).
Defined.

Lemma failure_ends_the_run_witness :
  sync_to_feedly [("A", ["x"])] unlabelled_list false
  = Report (Raised (KeyError "label")) unlabelled_list ∅ [] ∧
  for_types ([("AB", ["x"])] ++ ("A", ["x"]) :: [("C", ["y"])]) false
            three_types_start
  = (Raised (KeyError "id"),
     (sync_type "A" ["x"] false
        (for_types [("AB", ["x"])] false three_types_start).2).2).
Proof.
  split.
  - apply (proj1 failure_ends_the_run [("A", ["x"])] unlabelled_list false
                 (Item (Some "id-1") None (Some []))); [by left|done].
  - apply (proj2 failure_ends_the_run [("AB", ["x"])] "A" ["x"] [("C", ["y"])]
                 false three_types_start
                 (for_types [("AB", ["x"])] false three_types_start).2);
      by vm_compute.
Defined.


(** ** The scenarios of the specification, run on the embedding *)

(** "Server-1" holds 49 entries: one of the two labels goes into it, the
    other into the new list "Server-2". *)
Example scenario_server :
  summary <$> intents (r_trace (sync_to_feedly
                                  [("Server", ["web-1"; "web-2"])]
                                  nearly_full false))
  = [("Server-1", 50); ("Server-2", 1)].
Proof. by vm_compute. Qed.

(** Nothing at the destination, 120 labels: three creates. *)
Example scenario_asset :
  summary <$> intents (r_trace (sync_to_feedly [("Asset", asset_names)] []
                                               false))
  = [("Asset-1", 50); ("Asset-2", 50); ("Asset-3", 20)].
Proof. by vm_compute. Qed.

(** A label that is already in a list of its type: nothing to do. *)
Example scenario_present :
  r_trace (sync_to_feedly [("A", ["k"])] lone_list false) = [].
Proof. by vm_compute. Qed.

(** ** [process_entries] *)

Lemma setdefault_append_keys k v d :
  (setdefault_append k v d).*1 = if decide (k ∈ d.*1) then d.*1 else d.*1 ++ [k].
Proof.
  induction d as [|[k' vs] d IH].
  - case_decide as Hin; [by apply elem_of_nil in Hin|done].
  - cbn [setdefault_append]. rewrite !fmap_cons. cbn [fst].
    destruct (decide (k' = k)) as [->|Hne].
    + rewrite fmap_cons. cbn [fst]. rewrite decide_True; [done|]. by left.
    + rewrite fmap_cons, IH. cbn [fst].
      destruct (decide (k ∈ d.*1)) as [Hin|Hout].
      * rewrite decide_True; [done|]. by right.
      * rewrite decide_False; [done|].
        intros [?|?]%elem_of_cons; [congruence|done].
Qed.

Lemma dict_get_setdefault_append k v d k' :
  dict_get k' (setdefault_append k v d)
  = if decide (k' = k) then Some (default [] (dict_get k d) ++ [v])
    else dict_get k' d.
Proof.
  induction d as [|[k0 vs] d IH].
  - cbn [setdefault_append dict_get]. by repeat case_decide; simplify_eq.
  - cbn [setdefault_append dict_get].
    destruct (decide (k0 = k)) as [->|Hne]; cbn [dict_get].
    + by repeat case_decide; simplify_eq.
    + rewrite IH. by repeat case_decide; simplify_eq.
Qed.

Lemma dict_get_Some k d vs : dict_get k d = Some vs → (k, vs) ∈ d.
Proof.
  induction d as [|[k0 vs0] d IH]; simpl; [done|].
  destruct (decide (k0 = k)) as [->|]; [intros [= ->]; by left|].
  intros ?%IH. by right.
Qed.

Lemma dict_get_elem_of k d vs :
  NoDup d.*1 → (k, vs) ∈ d → dict_get k d = Some vs.
Proof.
  induction d as [|[k0 vs0] d IH]; intros Hnd Hin; [by apply elem_of_nil in Hin|].
  apply NoDup_cons in Hnd as [Hk0 Hnd]. simpl.
  apply elem_of_cons in Hin as [[= -> ->]|Hin]; [by rewrite decide_True|].
  rewrite decide_False; [by apply IH|].
  intros ->. apply Hk0. apply list_elem_of_fmap. by exists (k, vs).
Qed.

Lemma dict_get_None k d : dict_get k d = None ↔ k ∉ d.*1.
Proof.
  induction d as [|[k0 vs0] d IH].
  - split; [by intros _ ?%elem_of_nil|done].
  - cbn [dict_get]. rewrite fmap_cons, not_elem_of_cons. cbn [fst].
    destruct (decide (k0 = k)) as [->|Hne].
    + split; [done|]. by intros [? _].
    + rewrite IH. split; [by split|]. by intros [_ ?].
Qed.

Lemma process_entries_snoc entries entry :
  process_entries (entries ++ [entry])
  = process_entry (process_entries entries) entry.
Proof. unfold process_entries. by rewrite foldl_app. Qed.

Lemma process_entry_contribution d entry :
  process_entry d entry
  = match contribution entry with
    | Some (name, l) => setdefault_append name l d
    | None => d
    end.
Proof.
  unfold process_entry, contribution.
  destruct (truthy (object_type_name entry)); [|done].
  by destruct (truthy (entry_label entry)).
Qed.

Lemma contribution_truthy entry name l :
  contribution entry = Some (name, l) → name ≠ "" ∧ l ≠ "".
Proof.
  unfold contribution, truthy.
  destruct (object_type_name entry) as [n|]; [|done].
  destruct (decide (n = "")); [done|].
  destruct (entry_label entry) as [v|]; [|done].
  destruct (decide (v = "")); [done|]. by intros [= <- <-].
Qed.

Lemma labels_of_snoc T entries entry :
  labels_of T (entries ++ [entry])
  = labels_of T entries
    ++ match contribution entry with
       | Some (name, l) => if decide (name = T) then [l] else []
       | None => []
       end.
Proof.
  unfold labels_of. rewrite omap_app. f_equal. simpl.
  destruct (contribution entry) as [[name l]|]; [|done].
  by destruct (decide (name = T)).
Qed.

(** The dictionary built by [process_entries]: what is stored under each
    key, and which keys there are. *)
Lemma process_entries_get entries T :
  dict_get T (process_entries entries)
  = if decide (labels_of T entries = []) then None
    else Some (labels_of T entries).
Proof.
  induction entries as [|entry entries IH] using rev_ind.
  { by rewrite decide_True. }
  rewrite process_entries_snoc, process_entry_contribution, labels_of_snoc.
  destruct (contribution entry) as [[name l]|]; [|by rewrite app_nil_r].
  rewrite dict_get_setdefault_append.
  destruct (decide (T = name)) as [->|Hne].
  - rewrite (decide_True (P := name = name)) by done. rewrite IH.
    rewrite (decide_False (P := _ ++ [l] = [])) by by intros [? ?]%app_eq_nil.
    f_equal. f_equal. by destruct (decide (labels_of name entries = [])) as [->|].
  - rewrite (decide_False (P := name = T)) by congruence. by rewrite app_nil_r.
Qed.

Lemma process_entries_NoDup entries : NoDup (process_entries entries).*1.
Proof.
  induction entries as [|entry entries IH] using rev_ind; [constructor|].
  rewrite process_entries_snoc, process_entry_contribution.
  destruct (contribution entry) as [[name l]|]; [|done].
  rewrite setdefault_append_keys.
  destruct (decide (name ∈ (process_entries entries).*1)); [done|].
  apply NoDup_app. split; [done|]. split; [|apply NoDup_singleton].
  by intros x Hx ->%list_elem_of_singleton.
Qed.

Lemma elem_of_labels_of l T entries :
  l ∈ labels_of T entries ↔
  ∃ entry, entry ∈ entries ∧ contribution entry = Some (T, l).
Proof.
  unfold labels_of. rewrite list_elem_of_omap. split.
  - intros (entry & Hin & Hc). exists entry. split; [done|].
    destruct (contribution entry) as [[name l']|]; [|done].
    destruct (decide (name = T)) as [->|]; [|done]. by injection Hc as ->.
  - intros (entry & Hin & Hc). exists entry. split; [done|].
    rewrite Hc. by rewrite decide_True.
Qed.

Lemma process_entries_elem_of entries T ls :
  (T, ls) ∈ process_entries entries ↔ ls = labels_of T entries ∧ ls ≠ [].
Proof.
  split.
  - intros Hin.
    apply dict_get_elem_of in Hin; [|apply process_entries_NoDup].
    rewrite process_entries_get in Hin.
    destruct (decide (labels_of T entries = [])); [done|].
    injection Hin as <-. done.
  - intros [-> Hne]. apply dict_get_Some.
    by rewrite process_entries_get, decide_False.
Qed.

(** X1 ([process_entries], the dictionary it returns): no type name occurs
    twice among the keys, no key is the empty string, and every key holds a
    nonempty list of nonempty labels. *)
Theorem process_entries_dictionary entries :
  NoDup (process_entries entries).*1 ∧
  Forall (λ kv, kv.1 ≠ "" ∧ kv.2 ≠ [] ∧ "" ∉ kv.2) (process_entries entries).
Proof.
  split; [apply process_entries_NoDup|].
  apply Forall_forall. intros [T ls] [-> Hne]%process_entries_elem_of. simpl.
  assert (∀ l, l ∈ labels_of T entries → T ≠ "" ∧ l ≠ "") as Hall.
  { intros l (entry & _ & Hc)%elem_of_labels_of.
    by apply contribution_truthy in Hc. }
  split; [|split; [done|]].
  - destruct (labels_of T entries) as [|l ls] eqn:Hls; [done|].
    apply (Hall l). by left.
  - intros Hin. by destruct (Hall "" Hin).
Qed.

(** X2 ([process_entries], grouping): a type is a key of the result exactly
    when some entry with a nonempty type name and a nonempty label has that
    type, and the list under it is then the labels of those entries, in the
    order of the entries and with their repetitions; entries without a type
    name or without a label contribute nothing. *)
Theorem process_entries_groups entries T :
  dict_get T (process_entries entries)
  = (if decide (labels_of T entries = []) then None
     else Some (labels_of T entries)) ∧
  ∀ ls, (T, ls) ∈ process_entries entries ↔
        ls = labels_of T entries ∧ ls ≠ [].
Proof.
  split; [apply process_entries_get|].
  intros ls. apply process_entries_elem_of.
Qed.

(** X3 ([process_entries], order of the keys): the keys come in the order
    in which their types are first seen among the contributing entries. *)
Theorem process_entries_key_order entries :
  (process_entries entries).*1
  = reverse (remove_dups (reverse (omap contribution entries).*1)).
Proof.
  induction entries as [|entry entries IH] using rev_ind; [done|].
  rewrite process_entries_snoc, process_entry_contribution, omap_app.
  simpl. destruct (contribution entry) as [[name l]|]; simpl.
  - rewrite setdefault_append_keys, fmap_app, reverse_app. simpl.
    rewrite IH.
    destruct (decide (name ∈ reverse (remove_dups (reverse (omap contribution entries).*1))))
      as [Hin|Hout].
    + rewrite elem_of_reverse, elem_of_remove_dups in Hin.
      by destruct (decide_rel elem_of name _).
    + rewrite elem_of_reverse, elem_of_remove_dups in Hout.
      destruct (decide_rel elem_of name _); [done|]. by rewrite reverse_cons.
  - by rewrite app_nil_r.
Qed.

(** ** [fetch_jira_data] *)

Lemma fetch_pages_last fuel server cur acc reqs :
  last_request server cur = true →
  fetch_pages (S fuel) server cur acc reqs
  = Some (acc ++ page_entries server cur, reqs ++ [cur]).
Proof.
  unfold last_request, page_entries. simpl.
  destruct (server cur) as [data|]; [|by rewrite app_nil_r].
  intros Hlast%bool_decide_eq_true. by rewrite decide_True.
Qed.

Lemma fetch_pages_next fuel server cur acc reqs :
  last_request server cur = false →
  fetch_pages (S fuel) server cur acc reqs
  = fetch_pages fuel server (S cur) (acc ++ page_entries server cur)
                (reqs ++ [cur]).
Proof.
  unfold last_request, page_entries. simpl.
  destruct (server cur) as [data|]; [|done].
  intros Hlast%bool_decide_eq_false. by rewrite decide_False.
Qed.

Lemma fetch_pages_run server n :
  ∀ cur acc reqs fuel,
    (∀ p, cur ≤ p < cur + n → last_request server p = false) →
    last_request server (cur + n) = true → n < fuel →
    fetch_pages fuel server cur acc reqs
    = Some (acc ++ concat (page_entries server <$> seq cur (S n)),
            reqs ++ seq cur (S n)).
Proof.
  induction n as [|n IH]; intros cur acc reqs [|fuel] Hnot Hlast Hfuel; try lia.
  - rewrite Nat.add_0_r in Hlast. rewrite fetch_pages_last by done.
    simpl. by rewrite app_nil_r.
  - rewrite fetch_pages_next by (apply Hnot; lia).
    rewrite (IH (S cur)); [|intros p Hp; apply Hnot; lia| |lia].
    + cbn [seq fmap list_fmap concat]. by rewrite <- !app_assoc.
    + by replace (S cur + n) with (cur + S n) by lia.
Qed.

Lemma fetch_pages_diverges server fuel :
  ∀ cur acc reqs,
    (∀ p, cur ≤ p → last_request server p = false) →
    fetch_pages fuel server cur acc reqs = None.
Proof.
  induction fuel as [|fuel IH]; intros cur acc reqs Hnot; [done|].
  rewrite fetch_pages_next by (apply Hnot; lia).
  apply IH. intros p Hp. apply Hnot. lia.
Qed.

(** X4 ([fetch_jira_data], what it returns): let page [k] be the first
    whose request fails or whose answer has [pageNumber >= pageSize] (both
    read with default 1).  Then the function asks for the pages 1, 2, ...,
    [k], each once and in this order, and returns the object entries of
    the answers, page after page; this needs no more than [k] turns of the
    loop. *)
Theorem fetch_jira_data_result server k fuel :
  1 ≤ k → k ≤ fuel →
  (∀ p, 1 ≤ p < k → last_request server p = false) →
  last_request server k = true →
  fetch_jira_data fuel server
  = Some (concat (page_entries server <$> seq 1 k), seq 1 k).
Proof.
  intros Hk Hfuel Hnot Hlast. unfold fetch_jira_data.
  destruct k as [|n]; [lia|].
  rewrite (fetch_pages_run server n 1 [] [] fuel); [done| |done|lia].
  intros p Hp. apply Hnot. lia.
Qed.

(** X5 ([fetch_jira_data], truncation): when the request for page [k]
    fails, the earlier answers all having [pageNumber < pageSize], the
    function returns the entries of the pages 1, ..., [k - 1]: the error is
    not passed on and nothing fetched is dropped. *)
Theorem fetch_jira_data_truncated server k fuel :
  1 ≤ k → k ≤ fuel →
  (∀ p, 1 ≤ p < k → last_request server p = false) →
  server k = None →
  fetch_jira_data fuel server
  = Some (concat (page_entries server <$> seq 1 (k - 1)), seq 1 k).
Proof.
  intros Hk Hfuel Hnot Hfail. unfold fetch_jira_data.
  destruct k as [|n]; [lia|].
  rewrite (fetch_pages_run server n 1 [] [] fuel); [| | |lia].
  - rewrite seq_S, fmap_app, concat_app. simpl.
    unfold page_entries at 2. rewrite Hfail. simpl.
    by rewrite Nat.sub_0_r, !app_nil_r.
  - intros p Hp. apply Hnot. lia.
  - unfold last_request. change (1 + n) with (S n). by rewrite Hfail.
Qed.

(** X6 ([fetch_jira_data], no way out): when every request succeeds and
    every answer has [pageNumber < pageSize], the loop never ends: no
    number of turns yields a result. *)
Theorem fetch_jira_data_never_returns server fuel :
  (∀ p, 1 ≤ p → last_request server p = false) →
  fetch_jira_data fuel server = None.
Proof. intros Hnot. unfold fetch_jira_data. by apply fetch_pages_diverges. Qed.

(** X7 ([fetch_jira_data], a consistent server): when the answer to the
    request for page [p] reports [pageNumber = p] and [pageSize = N], for
    every [p] from 1 to [N], the function makes exactly [N] requests and
    returns the entries of all [N] pages: ["pageSize"] is read as the
    number of pages. *)
Theorem fetch_jira_data_all_pages server N fuel :
  1 ≤ N → N ≤ fuel →
  (∀ p, 1 ≤ p ≤ N →
     ∃ data, server p = Some data ∧ pageNumber data = Some (Z.of_nat p) ∧
             pageSize data = Some (Z.of_nat N)) →
  fetch_jira_data fuel server
  = Some (concat (page_entries server <$> seq 1 N), seq 1 N).
Proof.
  intros HN Hfuel Hserver. unfold fetch_jira_data.
  destruct N as [|n]; [lia|].
  rewrite (fetch_pages_run server n 1 [] [] fuel); [done| | |lia].
  - intros p Hp. destruct (Hserver p) as (data & Hp' & Hnum & Hsize); [lia|].
    unfold last_request. rewrite Hp', Hnum, Hsize. simpl.
    apply bool_decide_eq_false. lia.
  - destruct (Hserver (1 + n)) as (data & Hp' & Hnum & Hsize); [lia|].
    unfold last_request. rewrite Hp', Hnum, Hsize. simpl.
    apply bool_decide_eq_true. lia.
Qed.

Lemma fetch_jira_data_result_witness :
  1 ≤ 3 ∧ 3 ≤ 5 ∧
  (∀ p, 1 ≤ p < 3 → last_request three_pages p = false) ∧
  last_request three_pages 3 = true ∧
  fetch_jira_data 5 three_pages
  = Some (concat (page_entries three_pages <$> seq 1 3), seq 1 3).
Proof.
  assert (∀ p, 1 ≤ p < 3 → last_request three_pages p = false) as Hnot.
  { intros p Hp. assert (p = 1 ∨ p = 2) as [-> | ->] by lia; reflexivity. }
  assert (last_request three_pages 3 = true) as Hlast by reflexivity.
  assert (1 ≤ 3) as H1 by lia. assert (3 ≤ 5) as H2 by lia.
  repeat (split; [done|]).
  exact (fetch_jira_data_result three_pages 3 5 H1 H2 Hnot Hlast).
Defined.

Lemma fetch_jira_data_truncated_witness :
  1 ≤ 2 ∧ 2 ≤ 5 ∧
  (∀ p, 1 ≤ p < 2 → last_request second_fails p = false) ∧
  second_fails 2 = None ∧
  fetch_jira_data 5 second_fails
  = Some (concat (page_entries second_fails <$> seq 1 (2 - 1)), seq 1 2).
Proof.
  assert (∀ p, 1 ≤ p < 2 → last_request second_fails p = false) as Hnot.
  { intros p Hp. assert (p = 1) as -> by lia. reflexivity. }
  assert (second_fails 2 = None) as Hfail by reflexivity.
  assert (1 ≤ 2) as H1 by lia. assert (2 ≤ 5) as H2 by lia.
  repeat (split; [done|]).
  exact (fetch_jira_data_truncated second_fails 2 5 H1 H2 Hnot Hfail).
Defined.

Lemma fetch_jira_data_never_returns_witness :
  (∀ p, 1 ≤ p → last_request page_one_of_two p = false) ∧
  fetch_jira_data 1000 page_one_of_two = None.
Proof.
  assert (∀ p, 1 ≤ p → last_request page_one_of_two p = false) as Hnot
    by (intros p _; reflexivity).
  split; [done|].
  exact (fetch_jira_data_never_returns page_one_of_two 1000 Hnot).
Defined.

Lemma fetch_jira_data_all_pages_witness :
  1 ≤ 3 ∧ 3 ≤ 3 ∧
  (∀ p, 1 ≤ p ≤ 3 →
     ∃ data, three_pages p = Some data ∧ pageNumber data = Some (Z.of_nat p) ∧
             pageSize data = Some (Z.of_nat 3)) ∧
  fetch_jira_data 3 three_pages
  = Some (concat (page_entries three_pages <$> seq 1 3), seq 1 3).
Proof.
  assert (∀ p, 1 ≤ p ≤ 3 →
     ∃ data, three_pages p = Some data ∧ pageNumber data = Some (Z.of_nat p) ∧
             pageSize data = Some (Z.of_nat 3)) as Hserver.
  { intros p Hp. unfold three_pages. rewrite decide_True by done.
    by eexists. }
  assert (1 ≤ 3) as H1 by lia. assert (3 ≤ 3) as H2 by lia.
  repeat (split; [done|]).
  exact (fetch_jira_data_all_pages three_pages 3 3 H1 H2 Hserver).
Defined.

(** ** The store after a run *)

Section Frame.
Context {order : SetOrder}.

Lemma grows_refl allowed it : grows allowed it it.
Proof.
  split; [done|]. split; [done|].
  destruct (item_entities it) as [ents|]; [|done].
  exists []. simpl. by rewrite app_nil_r.
Qed.

Lemma grows_trans allowed a b c :
  grows allowed a b → grows allowed b c → grows allowed a c.
Proof.
  intros (Hid & Hl & Hab) (Hid' & Hl' & Hbc).
  split; [congruence|]. split; [congruence|].
  destruct (item_entities a) as [ents|].
  - destruct Hab as (added & Hb & Hall). rewrite Hb in Hbc.
    destruct Hbc as (added' & Hc & Hall'). exists (added ++ added').
    split; [by rewrite Hc, fmap_app, app_assoc|by apply Forall_app].
  - by rewrite Hab in Hbc.
Qed.

Lemma Forall2_grows_refl allowed (st : list item) : Forall2 (grows allowed) st st.
Proof. apply Forall_Forall2_diag, Forall_forall. intros. apply grows_refl. Qed.

Lemma Forall2_grows_trans allowed (st1 st2 st3 : list item) :
  Forall2 (grows allowed) st1 st2 → Forall2 (grows allowed) st2 st3 →
  Forall2 (grows allowed) st1 st3.
Proof. apply Forall2_trans. apply grows_trans. Qed.

Lemma grows_insert allowed (st : list item) i it ents (added : list string) :
  st !! i = Some it → item_entities it = Some ents → Forall allowed added →
  Forall2 (grows allowed) st
          (<[i := with_entities it (ents ++ (keyword <$> added))]> st).
Proof.
  intros Hi Hents Hall.
  rewrite <- (list_insert_id st i it) at 1 by done.
  apply Forall2_insert; [apply Forall2_grows_refl|].
  split; [done|]. split; [done|]. rewrite Hents. by exists added.
Qed.

(** The store after a scan, whatever its outcome, the half-made update of a
    failed scan included. *)
Lemma scan_store existing tm s :
  match scan existing tm s with
  | NotAdded => True
  | Added s' | Failed _ s' =>
    store s' = store s
    ∨ ∃ i it ents, store s !! i = Some it ∧ item_entities it = Some ents ∧
        store s'
        = <[i := with_entities it (ents ++ (keyword <$> to_pack s it ents))]>
            (store s)
  end.
Proof.
  induction existing as [|i rest IH]; simpl; [done|].
  destruct (store s !! i) as [it|] eqn:Hit; [|done].
  destruct (item_entities it) as [ents|] eqn:Hents; [|by left].
  destruct (decide (length ents < 50)); [|done].
  destruct (decide (enum (new_entries s ∖ texts it) = [])); [done|].
  destruct (item_id it); [destruct (item_label it)|];
    simpl; right; by exists i, it, ents.
Qed.

Lemma iteration_grows (allowed : string → Prop) existing T tm s st s' :
  (∀ x, x ∈ new_entries s → allowed x) →
  iteration existing T tm s = (st, s') →
  Forall2 (grows allowed) (store s) (store s') ∧
  (∀ x, x ∈ new_entries s' → allowed x).
Proof.
  intros Hall Hit. unfold iteration, _create_new_feedly_list in Hit.
  pose proof (scan_store existing tm s) as Hstore.
  pose proof (scan_cases existing tm s) as Hcases.
  assert (∀ s1,
    store s1 = store s
    ∨ (∃ i it ents, store s !! i = Some it ∧ item_entities it = Some ents ∧
        store s1
        = <[i := with_entities it (ents ++ (keyword <$> to_pack s it ents))]>
            (store s)) →
    Forall2 (grows allowed) (store s) (store s1)) as Hgrow.
  { intros s1 [->|(i & it & ents & Hi & Hents & ->)];
      [apply Forall2_grows_refl|].
    apply grows_insert; [done..|].
    apply Forall_forall. intros x Hx%elem_of_take_enum.
    apply Hall. by apply elem_of_difference in Hx as [? _]. }
  destruct (scan existing tm s) as [s1| |e s1].
  - injection Hit as <- <-. split; [by apply Hgrow|].
    destruct Hcases as (pre & i & post & it & ents & id & label & _ & _ & _
                        & _ & _ & _ & _ & _ & ->).
    simpl. intros x [Hx _]%elem_of_difference. by apply Hall.
  - destruct (decide (new_entries s = ∅)).
    { injection Hit as <- <-. split; [apply Forall2_grows_refl|done]. }
    destruct (list_counts s !! T); injection Hit as <- <-; simpl.
    + split; [apply Forall2_grows_refl|].
      intros x [Hx _]%elem_of_difference. by apply Hall.
    + split; [apply Forall2_grows_refl|done].
  - injection Hit as <- <-. split; [by apply Hgrow|].
    destruct Hcases as (-> & _). done.
Qed.

Lemma while_grows (allowed : string → Prop) existing T tm fuel :
  ∀ s, (∀ x, x ∈ new_entries s → allowed x) →
    Forall2 (grows allowed) (store s)
            (store (while_new_entries fuel existing T tm s).2).
Proof.
  induction fuel as [|fuel IH]; intros s Hall; simpl.
  - destruct (decide (new_entries s = ∅)); apply Forall2_grows_refl.
  - destruct (decide (new_entries s = ∅)); [apply Forall2_grows_refl|].
    destruct (iteration existing T tm s) as [st s1] eqn:Hit.
    destruct (iteration_grows allowed existing T tm s st s1 Hall Hit)
      as [Hstep Hall1].
    destruct st; simpl; [|done..].
    eapply Forall2_grows_trans; [exact Hstep|by apply IH].
Qed.

Lemma sync_type_grows (allowed : string → Prop) T names tm s :
  (∀ x, x ∈ names → allowed x) →
  Forall2 (grows allowed) (store s) (store (sync_type T names tm s).2).
Proof.
  intros Hall. unfold sync_type, _add_entries_to_feedly.
  destruct (select_existing 0 (store s) T) as [e|existing]; simpl;
    [apply Forall2_grows_refl|].
  apply (while_grows allowed existing T tm _
           (State (store s) (missing existing names (store s))
                  (list_counts s) (trace s))).
  simpl. intros x [Hx _]%elem_of_missing. by apply Hall.
Qed.

Lemma for_types_grows (allowed : string → Prop) jira tm :
  ∀ s, (∀ T names x, (T, names) ∈ jira → x ∈ names → allowed x) →
    Forall2 (grows allowed) (store s) (store (for_types jira tm s).2).
Proof.
  induction jira as [|[T names] jira IH]; intros s Hall; simpl;
    [apply Forall2_grows_refl|].
  pose proof (sync_type_grows allowed T names tm s) as Hstep.
  destruct (sync_type T names tm s) as [st s1]. simpl in Hstep.
  assert (Forall2 (grows allowed) (store s) (store s1)) as Hs1.
  { apply Hstep. intros x Hx. apply (Hall T names); [by left|done]. }
  destruct st; simpl; [|done..].
  eapply Forall2_grows_trans; [exact Hs1|].
  apply IH. intros T' names' x Hin. apply (Hall T' names'). by right.
Qed.

(** X8 ([sync_to_feedly], what a run does to the lists in memory): whatever
    the outcome of the run, an exception included, the store holds the same
    lists in the same order, each with the id and the label it had, and
    with the entities it had followed by keyword entities whose names are
    labels of [jira_data]; a list without entities still has none.  Nothing
    is removed, reordered or renamed. *)
Theorem store_only_grows jira_data feedly_data test_mode :
  Forall2 (grows (λ x, ∃ T names, (T, names) ∈ jira_data ∧ x ∈ names))
          feedly_data
          (r_store (sync_to_feedly jira_data feedly_data test_mode)).
Proof.
  unfold sync_to_feedly.
  destruct (feedly_entities feedly_data) as [e|fe]; simpl;
    [apply Forall2_grows_refl|].
  pose proof (for_types_grows
    (λ x, ∃ T names, (T, names) ∈ jira_data ∧ x ∈ names) jira_data test_mode
    (State feedly_data ∅ (initial_counts fe jira_data) [])) as Hgrows.
  destruct (for_types jira_data test_mode _) as [st s]. simpl in *.
  apply Hgrows. intros T names x Hin Hx. by exists T, names.
Qed.

Lemma full_replace_step snapshot existing T tm s s' :
  Forall2 (grows (λ _, True)) snapshot (store s) ∧
    Forall (full_replace snapshot) (intents (trace s)) →
  new_entries s ≠ ∅ → iteration existing T tm s = (Normal, s') →
  Forall2 (grows (λ _, True)) snapshot (store s') ∧
    Forall (full_replace snapshot) (intents (trace s')).
Proof.
  intros [Hst Htr] Hne Hit. split.
  { eapply Forall2_grows_trans; [exact Hst|].
    by eapply (iteration_grows (λ _, True)). }
  apply iteration_cases in Hit as
    [(pre & i & post & it & ents & id & label & _ & _ & Hi & Hents & _ & _ & _
      & _ & _ & ->)
    |[(c & _ & _ & _ & ->)|(e & ? & _)]]; [| |done|done]; simpl;
    rewrite intents_app, intents_dispatch; apply Forall_app; (split; [done|]);
    (constructor; [|constructor]).
  - destruct (Forall2_lookup_r _ _ _ i it Hst Hi) as (it0 & Hi0 & _ & _ & Hg).
    destruct (item_entities it0) as [ents0|] eqn:Hents0; [|congruence].
    destruct Hg as (added & Hadded & _). rewrite Hents in Hadded.
    injection Hadded as ->.
    exists it0, ents0, (added ++ to_pack s it (ents0 ++ (keyword <$> added))).
    split; [done|]. split; [done|]. by rewrite fmap_app, app_assoc.
  - by eexists.
Qed.

(** X9 ([_add_entries_to_feedly], an update is a full replace): every
    update payload of a run carries all the entities its list had in the
    snapshot, in their order, followed by the keyword entities added since;
    a create payload holds keyword entities only. *)
Theorem update_keeps_entries jira_data feedly_data test_mode :
  Forall (full_replace feedly_data)
         (intents (r_trace (sync_to_feedly jira_data feedly_data test_mode))).
Proof.
  pose proof (sync_invariant
    (λ s, Forall2 (grows (λ _, True)) feedly_data (store s) ∧
          Forall (full_replace feedly_data) (intents (trace s))) test_mode)
    as Hinv.
  specialize (Hinv (λ _ _ Hs, Hs)
                (λ existing T s s', full_replace_step feedly_data existing T
                                      test_mode s s')
                jira_data feedly_data).
  simpl in Hinv. destruct Hinv as (s1 & [_ H1] & Htr & _).
  - intros counts. split; [apply Forall2_grows_refl|constructor].
  - by rewrite <- Htr.
Qed.

End Frame.

(** ** Counting what a turn places *)

Section Placement.
Context {order : SetOrder}.

Lemma gained_refl (st : list item) : gained st st = [].
Proof.
  unfold gained. induction st as [|it st IH]; [done|]. simpl.
  unfold gained_by at 1. by rewrite drop_all, IH.
Qed.

Lemma gained_insert (st0 st : list item) i it0 it it' extra :
  st0 !! i = Some it0 → st !! i = Some it →
  gained_by it0 it' = gained_by it0 it ++ extra →
  gained st0 (<[i := it']> st) ≡ₚ gained st0 st ++ extra.
Proof.
  unfold gained. revert st i.
  induction st0 as [|a st0 IH]; intros [|b st] [|i] H0 Hi Hg; simplify_eq/=.
  - rewrite Hg, <- !(assoc_L (++)). f_equiv. apply Permutation_app_comm.
  - rewrite (IH st i) by done. by rewrite (assoc_L (++)).
Qed.

Lemma gained_by_grows it0 it ents (more : list string) :
  grows (λ _, True) it0 it → item_entities it = Some ents →
  gained_by it0 (with_entities it (ents ++ (keyword <$> more)))
  = gained_by it0 it ++ more.
Proof.
  intros (_ & _ & Hents) Hit. unfold gained_by, entries. simpl. rewrite Hit.
  destruct (item_entities it0) as [ents0|]; [|congruence]. simpl.
  destruct Hents as (added & Hadded & _). simplify_eq.
  rewrite <- (assoc_L (++)), !drop_app_length, omap_app.
  by rewrite !omap_text_keywords.
Qed.

Lemma created_names_snoc tr tm p :
  created_names (tr ++ dispatch tm p)
  = created_names tr
    ++ (if is_create p then omap text (payload_entities p) else []).
Proof.
  unfold created_names. rewrite creates_snoc, bind_app.
  destruct (is_create p); simpl; by rewrite ?app_nil_r.
Qed.

Lemma elements_remove_taken (X : gset string) (l : list string) :
  NoDup l → (∀ x, x ∈ l → x ∈ X) →
  elements (X ∖ list_to_set l) ++ l ≡ₚ elements X.
Proof.
  intros Hnd Hsub. apply NoDup_Permutation.
  - apply NoDup_app. split; [apply NoDup_elements|]. split; [|done].
    intros x Hx%elem_of_elements Hl.
    apply elem_of_difference in Hx as [_ Hx]. apply Hx.
    by apply elem_of_list_to_set.
  - apply NoDup_elements.
  - intros x.
    rewrite elem_of_app, !elem_of_elements, elem_of_difference,
      elem_of_list_to_set.
    split; [intros [[? _]|?]; auto|].
    intros Hx. destruct (decide (x ∈ l)); auto.
Qed.

Lemma placing_step M t0 st0 existing T tm s s' :
  placing M t0 st0 s → new_entries s ≠ ∅ →
  iteration existing T tm s = (Normal, s') → placing M t0 st0 s'.
Proof.
  intros (tr & Htr & Hgrows & Hperm) Hne Hit.
  apply iteration_cases in Hit as
    [(pre & i & post & it & ents & id & label & _ & _ & Hi & Hents & Hlen & _
      & _ & _ & _ & ->)
    |[(c & _ & _ & _ & ->)|(e & ? & _)]]; [| |done|done].
  - eexists (tr ++ dispatch tm (UpdateList _ _ _ _)). simpl.
    split; [by rewrite Htr, app_assoc|].
    split.
    { eapply Forall2_grows_trans; [done|].
      apply grows_insert; [done..|]. by apply Forall_true. }
    destruct (Forall2_lookup_r _ _ _ _ _ Hgrows Hi) as (it0 & Hi0 & Hit0).
    rewrite (gained_insert st0 (store s) i it0 it _ (to_pack s it ents) Hi0 Hi)
      by by apply gained_by_grows.
    rewrite created_names_snoc. simpl. rewrite app_nil_r.
    rewrite <- Hperm,
      <- (elements_remove_taken (new_entries s) (to_pack s it ents)).
    + rewrite <- !(assoc_L (++)). f_equiv.
      rewrite (assoc_L (++) (created_names tr)). apply Permutation_app_comm.
    + apply take_enum_NoDup.
    + intros x Hx%elem_of_take_enum. by apply elem_of_difference in Hx as [? _].
  - eexists (tr ++ dispatch tm (CreateList _ _)). simpl.
    split; [by rewrite Htr, app_assoc|]. split; [done|].
    rewrite created_names_snoc. simpl. rewrite omap_text_keywords.
    rewrite <- Hperm,
      <- (elements_remove_taken (new_entries s) (to_create s)).
    + f_equiv. rewrite <- !(assoc_L (++)). f_equiv. apply Permutation_app_comm.
    + apply take_enum_NoDup.
    + intros x. apply elem_of_take_enum.
Qed.

(** X10 ([_add_entries_to_feedly], every missing name is placed once):
    when the turn of a type ends normally, the names of the entities the
    lists of the store have gained, together with the names sent in
    creates, are the missing names of the type, each of them once: no name
    is dropped and none is written twice. *)
Theorem missing_placed_once object_type names test_mode s s' :
  sync_type object_type names test_mode s = (Normal, s') →
  ∃ tr, trace s' = trace s ++ tr ∧
    gained (store s) (store s') ++ created_names tr
    ≡ₚ elements (missing_of object_type names (store s)).
Proof.
  unfold sync_type. intros Hrun.
  destruct (select_existing 0 (store s) object_type) as [e|existing] eqn:Hsel;
    [done|].
  set (s0 := State (store s) (missing existing names (store s))
                   (list_counts s) (trace s)) in *.
  destruct (add_entries_invariant
    (placing (missing existing names (store s)) (trace s) (store s))
    existing object_type test_mode) with (s := s0)
    as (s1 & (tr & Htr & _ & Hperm) & _ & Hnormal).
  - intros s1 s2. apply placing_step.
  - exists []. simpl. rewrite app_nil_r. split; [done|].
    split; [apply Forall2_grows_refl|]. by rewrite gained_refl.
  - rewrite Hrun in Hnormal. simpl in Hnormal. specialize (Hnormal eq_refl).
    subst s1. exists tr. split; [done|].
    rewrite (add_entries_Normal _ _ _ _ _ Hrun), elements_empty, app_nil_r
      in Hperm.
    by rewrite <- (missing_missing_of object_type existing) by done.
Qed.

(** ** An empty destination *)

Lemma creating_step N t0 existing T tm s s' :
  creating N t0 s → new_entries s ≠ ∅ →
  iteration existing T tm s = (Normal, s') → creating N t0 s'.
Proof.
  intros (Hstore & tr & Htr & Hall & Hcount) Hne Hit.
  assert (0 < size (new_entries s)) as Hpos.
  { apply Nat.neq_0_lt_0. intros Hz. by apply size_empty_inv, leibniz_equiv in Hz. }
  apply iteration_cases in Hit as
    [(pre & i & post & it & ents & id & label & _ & _ & Hi & _)
    |[(c & _ & _ & _ & ->)|(e & ? & _)]]; [| |done|done].
  - by rewrite Hstore in Hi.
  - split; [done|]. eexists (tr ++ dispatch tm (CreateList _ _)). simpl.
    split; [by rewrite Htr, app_assoc|].
    rewrite intents_app, intents_dispatch.
    split; [apply Forall_app; split; [done|by repeat constructor]|].
    rewrite length_app. simpl. rewrite <- Hcount.
    unfold to_create. rewrite size_remove_taken by done.
    rewrite (ceil50_step (size (new_entries s))) by done. lia.
Qed.

Lemma for_types_empty_store jira jira' tm s :
  (∀ T, T ∈ jira'.*1 → T ∈ jira.*1) → safe_all jira s → store s = [] →
  ∃ s' tr, for_types jira' tm s = (Normal, s') ∧ store s' = [] ∧
    trace s' = trace s ++ tr ∧
    Forall (λ p, is_create p = true) (intents tr) ∧
    length (intents tr)
    = sum_list_with (λ kv, ceil50 (size (names_set kv.2))) jira'.
Proof.
  revert s. induction jira' as [|[T names] jira' IH]; intros s Hsub Hsafe Hstore.
  { exists s, []. simpl. rewrite app_nil_r. by repeat split. }
  destruct (sync_type_total
    (creating (ceil50 (size (names_set names))) (trace s))
    jira T names tm s) as (s1 & Hrun & Hsafe1 & Hcreating & Hempty).
  { apply Hsub. by left. }
  { done. }
  { intros existing Hsel. rewrite Hstore in Hsel. injection Hsel as <-. split.
    - split; [done|]. exists []. simpl. rewrite app_nil_r.
      split; [done|]. split; [constructor|]. by rewrite Hstore.
    - intros s2 s3 _. apply creating_step. }
  destruct Hcreating as (Hstore1 & tr1 & Htr1 & Hall1 & Hcount1).
  rewrite Hempty, size_empty in Hcount1. change (ceil50 0) with 0 in Hcount1.
  destruct (IH s1) as (s' & tr' & Hrest & Hstore' & Htr' & Hall' & Hcount');
    [|done..|].
  { intros T' HT'. apply Hsub. by right. }
  exists s', (tr1 ++ tr'). simpl. rewrite Hrun.
  split; [done|]. split; [done|].
  split; [by rewrite Htr', Htr1, app_assoc|].
  rewrite intents_app. split; [by apply Forall_app|].
  rewrite length_app. lia.
Qed.

(** X11 ([sync_to_feedly], nothing at the destination, as when
    [fetch_feedly_data] fails and returns the empty list): the run ends
    normally, every intent is a create, and each type gets
    ceil(n / 50) new lists, [n] the number of its distinct labels. *)
Theorem empty_destination_creates jira_data test_mode :
  let r := sync_to_feedly jira_data [] test_mode in
  r_status r = Normal ∧ r_store r = [] ∧
  Forall (λ p, is_create p = true) (intents (r_trace r)) ∧
  length (intents (r_trace r))
  = sum_list_with (λ kv, ceil50 (size (names_set kv.2))) jira_data.
Proof.
  unfold sync_to_feedly. simpl.
  destruct (for_types_empty_store jira_data jira_data test_mode
              (State [] ∅ (initial_counts ∅ jira_data) []))
    as (s' & tr & Hrun & Hstore & Htr & Hall & Hcount); [done| |done|].
  { by apply initial_safe_all. }
  unfold feedly_entities. simpl. rewrite Hrun. simpl.
  simpl in Htr. by rewrite Htr.
Qed.

(** X12 ([sync_to_feedly], nothing to do): when every destination record
    has a label and every label of every type is already the text of an
    entity in a list of that type, the run ends normally, emits no intent
    and leaves the lists as they were. *)
Theorem nothing_missing_nothing_done jira_data feedly_data test_mode :
  Forall (λ it, is_Some (item_label it)) feedly_data →
  (∀ T names L, (T, names) ∈ jira_data → L ∈ names →
     ∃ it, it ∈ feedly_data ∧ belongs T it = true ∧ L ∈ texts it) →
  let r := sync_to_feedly jira_data feedly_data test_mode in
  r_status r = Normal ∧ r_store r = feedly_data ∧ r_trace r = [].
Proof.
  intros Hlabels Hcov. unfold sync_to_feedly.
  destruct (proj1 (feedly_entities_labels feedly_data) Hlabels) as [fe ->].
  by rewrite for_types_silent.
Qed.

(** ** The counts of lists *)

Lemma accounting_step T c counts0 t0 existing tm s s' :
  accounting T c counts0 t0 s → new_entries s ≠ ∅ →
  iteration existing T tm s = (Normal, s') → accounting T c counts0 t0 s'.
Proof.
  intros (tr & Htr & Hcounts) Hne Hit.
  apply iteration_cases in Hit as
    [(pre & i & post & it & ents & id & label & _ & _ & _ & _ & _ & _ & _ & _
      & _ & ->)
    |[(c' & _ & Hc' & _ & ->)|(e & ? & _)]]; [| |done|done].
  - eexists (tr ++ dispatch tm (UpdateList _ _ _ _)). simpl.
    split; [by rewrite Htr, app_assoc|].
    by rewrite creates_snoc, app_nil_r.
  - eexists (tr ++ dispatch tm (CreateList _ _)). simpl.
    split; [by rewrite Htr, app_assoc|].
    rewrite creates_snoc, length_app. simpl.
    rewrite Hcounts in Hc' |- *. rewrite lookup_insert_eq in Hc'.
    injection Hc' as <-. rewrite insert_insert_eq. f_equal. lia.
Qed.

(** X13 ([_create_new_feedly_list], the shared counts): the turn of a type
    raises the count of that type by exactly the number of lists it
    creates and leaves the count of every other type alone, whatever the
    outcome of the turn. *)
Theorem counts_follow_creates object_type names test_mode s c :
  list_counts s !! object_type = Some c →
  ∃ tr, trace (sync_type object_type names test_mode s).2 = trace s ++ tr ∧
    list_counts (sync_type object_type names test_mode s).2
    = <[object_type := c + length (creates tr)]> (list_counts s).
Proof.
  intros Hc.
  destruct (sync_type_invariant
    (accounting object_type c (list_counts s) (trace s))
    object_type names test_mode) with (s := s)
    as (s1 & (tr & Htr & Hcounts) & Htrace & Hcounts1 & _).
  - by intros s' ne.
  - intros existing s1 s2. apply accounting_step.
  - exists []. simpl. rewrite app_nil_r, Nat.add_0_r. split; [done|].
    by rewrite insert_id.
  - exists tr. by rewrite <- Htrace, <- Hcounts1.
Qed.

End Placement.

Lemma missing_placed_once_witness :
  sync_type "Server" ["web-1"; "web-2"] false server_turn
  = (Normal, (sync_type "Server" ["web-1"; "web-2"] false server_turn).2) ∧
  ∃ tr,
    trace (sync_type "Server" ["web-1"; "web-2"] false server_turn).2
    = trace server_turn ++ tr ∧
    gained (store server_turn)
      (store (sync_type "Server" ["web-1"; "web-2"] false server_turn).2)
    ++ created_names tr
    ≡ₚ elements (missing_of "Server" ["web-1"; "web-2"] (store server_turn)).
Proof.
  assert (sync_type "Server" ["web-1"; "web-2"] false server_turn
          = (Normal,
             (sync_type "Server" ["web-1"; "web-2"] false server_turn).2))
    as Hrun by (by vm_compute).
  split; [exact Hrun|].
  exact (missing_placed_once "Server" ["web-1"; "web-2"] false server_turn _
                             Hrun).
Defined.

Lemma nothing_missing_nothing_done_witness :
  Forall (λ it, is_Some (item_label it)) lone_list ∧
  (∀ T names L, (T, names) ∈ [("A", ["k"])] → L ∈ names →
     ∃ it, it ∈ lone_list ∧ belongs T it = true ∧ L ∈ texts it) ∧
  r_status (sync_to_feedly [("A", ["k"])] lone_list true) = Normal ∧
  r_store (sync_to_feedly [("A", ["k"])] lone_list true) = lone_list ∧
  r_trace (sync_to_feedly [("A", ["k"])] lone_list true) = [].
Proof.
  assert (Forall (λ it, is_Some (item_label it)) lone_list) as Hlabels
    by (repeat constructor; by eexists).
  assert (∀ T names L, (T, names) ∈ [("A", ["k"])] → L ∈ names →
     ∃ it, it ∈ lone_list ∧ belongs T it = true ∧ L ∈ texts it) as Hcov.
  { intros T names L [= -> ->]%list_elem_of_singleton ->%list_elem_of_singleton.
    exists (Item (Some "id-2") (Some "A-2") (Some fifty_entries)).
    split; [apply list_elem_of_here|]. split; [reflexivity|].
    apply elem_of_list_to_set.
    change ("k" ∈ omap text fifty_entries). unfold fifty_entries.
    cbn [replicate omap list_omap text]. apply list_elem_of_here. }
  split; [exact Hlabels|]. split; [exact Hcov|].
  exact (nothing_missing_nothing_done [("A", ["k"])] lone_list true Hlabels Hcov).
Defined.

Lemma counts_follow_creates_witness :
  list_counts lone_turn !! "A" = Some 1 ∧
  ∃ tr, trace (sync_type "A" ["x"; "y"] false lone_turn).2
        = trace lone_turn ++ tr ∧
    list_counts (sync_type "A" ["x"; "y"] false lone_turn).2
    = <["A" := 1 + length (creates tr)]> (list_counts lone_turn).
Proof.
  assert (list_counts lone_turn !! "A" = Some 1) as Hc by reflexivity.
  split; [exact Hc|].
  exact (counts_follow_creates "A" ["x"; "y"] false lone_turn 1 Hc).
Defined.

(** ** Test mode against real mode *)

Section Modes.
Context {order : SetOrder}.

Lemma same_intents_snoc s1 s2 st ne counts (p : payload) :
  same_intents s1 s2 →
  same_intents (State st ne counts (trace s1 ++ dispatch true p))
               (State st ne counts (trace s2 ++ dispatch false p)).
Proof.
  intros (_ & _ & _ & Htr). repeat split; simpl.
  rewrite !intents_app, Htr. f_equal. by destruct p.
Qed.

Lemma scan_modes existing s1 s2 :
  same_intents s1 s2 →
  match scan existing true s1, scan existing false s2 with
  | Added a, Added b => same_intents a b
  | NotAdded, NotAdded => True
  | Failed e a, Failed e' b => e = e' ∧ same_intents a b
  | _, _ => False
  end.
Proof.
  intros Hsame. pose proof Hsame as (Hst & Hne & Hc & Htr).
  induction existing as [|i rest IH]; simpl; [done|].
  rewrite <- Hst, <- Hne, <- Hc.
  destruct (store s1 !! i) as [it|]; [|exact IH].
  destruct (item_entities it) as [ents|]; [|done].
  destruct (decide (length ents < 50)); [|exact IH].
  destruct (decide (enum (new_entries s1 ∖ texts it) = [])); [exact IH|].
  destruct (item_id it) as [id|]; [|by split].
  destruct (item_label it) as [label|]; [|by split].
  exact (same_intents_snoc s1 s2 _ _ _ (UpdateList i id label _) Hsame).
Qed.

Lemma iteration_modes existing T s1 s2 :
  same_intents s1 s2 →
  same_outcome (iteration existing T true s1) (iteration existing T false s2).
Proof.
  intros Hsame. pose proof Hsame as (Hst & Hne & Hc & Htr).
  unfold iteration. pose proof (scan_modes existing s1 s2 Hsame) as Hscan.
  destruct (scan existing true s1) as [a| |e a],
           (scan existing false s2) as [b| |e' b]; try done.
  - rewrite <- Hne. destruct (decide (new_entries s1 = ∅)); [done|].
    unfold _create_new_feedly_list. rewrite <- Hc, <- Hst, <- Hne.
    destruct (list_counts s1 !! T) as [c|]; [|done].
    split; [done|].
    exact (same_intents_snoc s1 s2 _ _ _ (CreateList _ _) Hsame).
  - destruct Hscan as [-> ?]. by split.
Qed.

Lemma while_modes existing T fuel :
  ∀ s1 s2, same_intents s1 s2 →
    same_outcome (while_new_entries fuel existing T true s1)
                 (while_new_entries fuel existing T false s2).
Proof.
  induction fuel as [|fuel IH]; intros s1 s2 Hsame;
    pose proof Hsame as (Hst & Hne & Hc & Htr); simpl; rewrite <- Hne.
  - by destruct (decide (new_entries s1 = ∅)).
  - destruct (decide (new_entries s1 = ∅)); [done|].
    pose proof (iteration_modes existing T s1 s2 Hsame) as [Hstatus Hnext].
    destruct (iteration existing T true s1) as [st a],
             (iteration existing T false s2) as [st' b].
    simpl in *. subst st'. destruct st; [by apply IH|done..].
Qed.

Lemma sync_type_modes T names s1 s2 :
  same_intents s1 s2 →
  same_outcome (sync_type T names true s1) (sync_type T names false s2).
Proof.
  intros Hsame. pose proof Hsame as (Hst & Hne & Hc & Htr).
  unfold sync_type, _add_entries_to_feedly. rewrite <- Hst, <- Hc.
  destruct (select_existing 0 (store s1) T) as [e|existing]; [done|].
  simpl. by apply while_modes.
Qed.

Lemma for_types_modes jira :
  ∀ s1 s2, same_intents s1 s2 →
    same_outcome (for_types jira true s1) (for_types jira false s2).
Proof.
  induction jira as [|[T names] jira IH]; intros s1 s2 Hsame; simpl; [done|].
  pose proof (sync_type_modes T names s1 s2 Hsame) as [Hstatus Hnext].
  destruct (sync_type T names true s1) as [st a],
           (sync_type T names false s2) as [st' b].
  simpl in *. subst st'. destruct st; [by apply IH|done..].
Qed.

End Modes.

(** *** Under two orders *)

Section TwoOrders.
Context (o1 o2 : SetOrder).

Lemma same_size_empty (X Y : gset string) : size X = size Y → X ≠ ∅ → Y ≠ ∅.
Proof.
  intros Hsize HX HY. rewrite HY, size_empty in Hsize.
  by apply size_empty_inv, leibniz_equiv in Hsize.
Qed.

Lemma same_shape_lookup (st1 st2 : list item) i :
  Forall2 same_shape st1 st2 →
  match st1 !! i, st2 !! i with
  | Some a, Some b => same_shape a b
  | None, None => True
  | _, _ => False
  end.
Proof.
  intros H. revert i.
  induction H as [|a b st1 st2 Hab _ IH]; intros [|i]; simpl; [done..|apply IH].
Qed.

Lemma same_shape_labels (st1 st2 : list item) :
  Forall2 same_shape st1 st2 → item_label <$> st1 = item_label <$> st2.
Proof.
  induction 1 as [|a b st1 st2 (_ & Hl & _) _ IH]; [done|].
  by rewrite !fmap_cons, Hl, IH.
Qed.

Lemma same_shape_refl (st : list item) : Forall2 same_shape st st.
Proof. induction st; constructor; [by repeat split|done]. Qed.

Lemma grows_labels allowed (st st' : list item) :
  Forall2 (grows allowed) st st' → item_label <$> st' = item_label <$> st.
Proof.
  induction 1 as [|a b st st' (_ & Hl & _) _ IH]; [done|].
  by rewrite !fmap_cons, Hl, IH.
Qed.

Lemma same_label_belongs T (st st' : list item) i it it' :
  item_label <$> st = item_label <$> st' →
  st !! i = Some it → st' !! i = Some it' → belongs T it = belongs T it'.
Proof.
  intros Hlabels Hi Hi'.
  assert ((item_label <$> st) !! i = Some (item_label it)) as H1
    by (by rewrite list_lookup_fmap, Hi).
  rewrite Hlabels, list_lookup_fmap, Hi' in H1. simpl in H1.
  injection H1 as H1. unfold belongs. by rewrite H1.
Qed.

Lemma missing_ext existing names (st st' : list item) :
  (∀ i, i ∈ existing → st !! i = st' !! i) →
  missing existing names st = missing existing names st'.
Proof.
  unfold missing. generalize (list_to_set names : gset string).
  induction existing as [|i existing IH]; intros acc Hsame; simpl; [done|].
  rewrite (Hsame i) by by left.
  apply IH. intros j Hj. apply Hsame. by right.
Qed.

Lemma alike_states_snoc s1 s2 st1 st2 ne1 ne2 counts effs1 effs2 p1 p2 :
  alike_states s1 s2 → Forall2 same_shape st1 st2 →
  intents effs1 = [p1] → intents effs2 = [p2] → alike p1 p2 →
  alike_states (State st1 ne1 counts (trace s1 ++ effs1))
               (State st2 ne2 counts (trace s2 ++ effs2)).
Proof.
  intros (_ & _ & Htr) Hst H1 H2 Hp. split; [done|]. split; [done|]. simpl.
  rewrite !intents_app, H1, H2. apply Forall2_app; [done|]. by constructor.
Qed.

Lemma scan_alike tm1 tm2 existing l s1 s2 :
  (∀ i, i ∈ l → i ∈ existing) →
  alike_states s1 s2 →
  size (new_entries s1) = size (new_entries s2) →
  new_entries s1 ≠ ∅ →
  disjoint_from_existing existing s1 → disjoint_from_existing existing s2 →
  match scan (order := o1) l tm1 s1, scan (order := o2) l tm2 s2 with
  | Added a, Added b =>
    alike_states a b ∧ size (new_entries a) = size (new_entries b)
  | NotAdded, NotAdded => True
  | Failed e a, Failed e' b => e = e' ∧ alike_states a b
  | _, _ => False
  end.
Proof.
  intros Hl Halike Hsize Hne Hd1 Hd2.
  pose proof (same_size_empty _ _ Hsize Hne) as Hne2.
  pose proof Halike as (Hst & Hc & Htr).
  induction l as [|i rest IH]; simpl; [done|].
  assert (i ∈ existing) as Hi by (apply Hl; by left).
  assert (∀ j, j ∈ rest → j ∈ existing) as Hrest
    by (intros j ?; apply Hl; by right).
  pose proof (same_shape_lookup _ _ i Hst) as Hlook.
  destruct (store s1 !! i) as [it1|] eqn:H1, (store s2 !! i) as [it2|] eqn:H2;
    try done; [|by apply IH].
  destruct Hlook as (Hid & Hlabel & Hents).
  destruct (item_entities it1) as [ents1|] eqn:He1,
           (item_entities it2) as [ents2|] eqn:He2; simplify_eq/=; [|done].
  rename Hents into Hlen.
  rewrite (difference_disjoint_L _ _ (Hd1 i it1 Hi H1)),
          (difference_disjoint_L _ _ (Hd2 i it2 Hi H2)).
  rewrite <- Hlen.
  destruct (decide (length ents1 < 50)); [|by apply IH].
  rewrite !decide_False by by rewrite enum_nil.
  assert (length (take (50 - length ents1) (@enum o1 (new_entries s1)))
          = length (take (50 - length ents1) (@enum o2 (new_entries s2))))
    as Htake by (by rewrite !length_take, !length_enum, Hsize).
  assert (Forall2 same_shape
    (<[i := with_entities it1
        (ents1 ++ (keyword <$> take (50 - length ents1)
                                 (@enum o1 (new_entries s1))))]>
       (store s1))
    (<[i := with_entities it2
        (ents2 ++ (keyword <$> take (50 - length ents1)
                                 (@enum o2 (new_entries s2))))]>
       (store s2))) as Hst'.
  { apply Forall2_insert; [done|]. split; [done|]. split; [done|]. simpl.
    by rewrite !length_app, !length_fmap, Htake, Hlen. }
  rewrite <- Hid, <- Hlabel, <- Hc.
  destruct (item_id it1) as [id|]; [|by split].
  destruct (item_label it1) as [label|]; [|by split].
  split.
  - eapply (alike_states_snoc s1 s2); [done|done| | |].
    + by destruct tm1.
    + by destruct tm2.
    + simpl. by rewrite !length_app, !length_fmap, Htake, Hlen.
  - simpl. rewrite !size_remove_taken by done. by rewrite Hsize.
Qed.

Lemma iteration_alike tm1 tm2 T existing s1 s2 :
  in_step T existing s1 s2 → new_entries s1 ≠ ∅ →
  (iteration (order := o1) existing T tm1 s1).1
  = (iteration (order := o2) existing T tm2 s2).1 ∧
  alike_states (iteration (order := o1) existing T tm1 s1).2
               (iteration (order := o2) existing T tm2 s2).2 ∧
  ((iteration (order := o1) existing T tm1 s1).1 = Normal →
   size (new_entries (iteration (order := o1) existing T tm1 s1).2)
   = size (new_entries (iteration (order := o2) existing T tm2 s2).2)).
Proof.
  intros (Halike & Hsize & Hr1 & Hr2) Hne.
  pose proof (same_size_empty _ _ Hsize Hne) as Hne2.
  pose proof (scan_alike tm1 tm2 existing existing s1 s2 (λ _ H, H) Halike
                Hsize Hne (proj2 Hr1) (proj2 Hr2)) as Hscan.
  unfold iteration.
  destruct (scan (order := o1) existing tm1 s1) as [a| |e a],
           (scan (order := o2) existing tm2 s2) as [b| |e' b]; try done; simpl.
  - by destruct Hscan.
  - rewrite !decide_False by done. unfold _create_new_feedly_list.
    pose proof Halike as (Hst & Hc & Htr). rewrite <- Hc.
    destruct (list_counts s1 !! T) as [c|]; simpl; [|done].
    assert (length (take 50 (@enum o1 (new_entries s1)))
            = length (take 50 (@enum o2 (new_entries s2))))
      as Htake by (by rewrite !length_take, !length_enum, Hsize).
    split; [done|]. split.
    + eapply (alike_states_snoc s1 s2); [done|done| | |].
      * by destruct tm1.
      * by destruct tm2.
      * simpl. by rewrite !length_fmap.
    + intros _. rewrite !size_remove_taken by done. by rewrite Hsize.
  - destruct Hscan as [-> ?]. by split.
Qed.

Lemma while_alike tm1 tm2 T existing fuel :
  ∀ s1 s2, in_step T existing s1 s2 →
    (while_new_entries (order := o1) fuel existing T tm1 s1).1
    = (while_new_entries (order := o2) fuel existing T tm2 s2).1 ∧
    alike_states (while_new_entries (order := o1) fuel existing T tm1 s1).2
                 (while_new_entries (order := o2) fuel existing T tm2 s2).2.
Proof.
  induction fuel as [|fuel IH]; intros s1 s2 Hstep;
    pose proof Hstep as (Halike & Hsize & Hr1 & Hr2); simpl.
  - destruct (decide (new_entries s1 = ∅)) as [He1|Hne1],
             (decide (new_entries s2 = ∅)) as [He2|Hne2]; try done.
    + by destruct (same_size_empty _ _ (eq_sym Hsize) Hne2).
    + by destruct (same_size_empty _ _ Hsize Hne1).
  - destruct (decide (new_entries s1 = ∅)) as [He1|Hne1],
             (decide (new_entries s2 = ∅)) as [He2|Hne2]; try done.
    + by destruct (same_size_empty _ _ (eq_sym Hsize) Hne2).
    + by destruct (same_size_empty _ _ Hsize Hne1).
    + pose proof (iteration_alike tm1 tm2 T existing s1 s2 Hstep Hne1)
        as (Hstatus & Ha & Hs).
      destruct (iteration (order := o1) existing T tm1 s1) as [st a] eqn:Hit1,
               (iteration (order := o2) existing T tm2 s2) as [st' b] eqn:Hit2.
      simpl in *. subst st'. destruct st; [|done..].
      apply IH. split; [done|]. split; [by apply Hs|].
      split.
      * exact (reconciling_step (order := o1) T existing tm1 s1 a Hr1 Hne1 Hit1).
      * exact (reconciling_step (order := o2) T existing tm2 s2 b Hr2 Hne2 Hit2).
Qed.

End TwoOrders.

Section TurnFrame.
Context {order : SetOrder}.

(** The turn of a type leaves the lists of the other types alone. *)
Lemma add_entries_frame existing T tm s s' :
  _add_entries_to_feedly existing T tm s = (Normal, s') →
  ∀ i, i ∉ existing → store s' !! i = store s !! i.
Proof.
  intros Hrun.
  destruct (add_entries_invariant
    (λ s1, ∀ i, i ∉ existing → store s1 !! i = store s !! i)
    existing T tm) with (s := s) as (s1 & H1 & _ & Hnormal); [|done|].
  - intros s1 s2 Hs1 Hne Hit i Hi.
    apply iteration_cases in Hit as
      [(pre & j & post & it & ents & id & label & -> & _ & _ & _ & _ & _ & _
        & _ & _ & ->)
      |[(c & _ & _ & _ & ->)|(e & ? & _)]]; [| |done|done]; simpl.
    + rewrite list_lookup_insert_ne; [by apply Hs1|].
      intros ->. apply Hi. apply elem_of_app. right. by left.
    + by apply Hs1.
  - rewrite Hrun in Hnormal. simpl in Hnormal. specialize (Hnormal eq_refl).
    by subst s1.
Qed.

End TurnFrame.

Section TwoOrdersRun.
Context (o1 o2 : SetOrder).

Lemma sync_type_alike tm1 tm2 past T names s1 s2 :
  in_run past s1 s2 →
  (∀ i it, store s1 !! i = Some it → belongs T it = true →
     ∀ T', T' ∈ past → belongs T' it = false) →
  (sync_type (order := o1) T names tm1 s1).1
  = (sync_type (order := o2) T names tm2 s2).1 ∧
  alike_states (sync_type (order := o1) T names tm1 s1).2
               (sync_type (order := o2) T names tm2 s2).2 ∧
  ((sync_type (order := o1) T names tm1 s1).1 = Normal →
   in_run (T :: past) (sync_type (order := o1) T names tm1 s1).2
                      (sync_type (order := o2) T names tm2 s2).2).
Proof.
  intros [Halike Hframe] Hown. pose proof Halike as (Hst & Hc & Htr).
  pose proof (same_shape_labels _ _ Hst) as Hlabels.
  pose proof (sync_type_grows (order := o1) (λ _, True) T names tm1 s1
                (λ _ _, I)) as Hg1.
  unfold sync_type in *.
  rewrite <- (select_existing_labels 0 _ _ T Hlabels).
  destruct (select_existing 0 (store s1) T) as [e|existing] eqn:Hsel.
  { simpl. split; [done|]. by split. }
  assert (∀ i, i ∈ existing → store s1 !! i = store s2 !! i) as Hsame.
  { intros i Hi.
    apply (elem_of_select_existing 0 _ T existing i Hsel) in Hi
      as (j & it & -> & Hj & Hb). simpl. rewrite Hj. symmetry.
    apply Hframe; [done|]. intros T' HT'. by apply (Hown j it). }
  pose proof (missing_ext existing names _ _ Hsame) as Hmiss.
  set (a1 := State (store s1) (missing existing names (store s1))
                   (list_counts s1) (trace s1)) in *.
  set (a2 := State (store s2) (missing existing names (store s2))
                   (list_counts s2) (trace s2)).
  assert (in_step T existing a1 a2) as Hstep.
  { split; [done|]. split; [simpl; by rewrite Hmiss|].
    split; apply reconciling_initial; [done|].
    by rewrite <- (select_existing_labels 0 _ _ T Hlabels). }
  unfold _add_entries_to_feedly in *.
  assert (size (new_entries a2) = size (new_entries a1)) as ->
    by (simpl; by rewrite Hmiss).
  pose proof (while_alike o1 o2 tm1 tm2 T existing (size (new_entries a1))
                a1 a2 Hstep) as [Hstatus Ha].
  split; [done|]. split; [done|]. intros Hnormal.
  split; [done|]. intros i it Hi Hnot.
  destruct (while_new_entries (order := o1) _ existing T tm1 a1)
    as [st b1] eqn:Hrun1.
  destruct (while_new_entries (order := o2) _ existing T tm2 a2)
    as [st' b2] eqn:Hrun2.
  simpl in *. subst st st'.
  pose proof (add_entries_frame (order := o1) existing T tm1 a1 b1 Hrun1)
    as Hf1.
  assert (∀ i, i ∉ existing → store b2 !! i = store a2 !! i) as Hf2.
  { apply (add_entries_frame (order := o2) existing T tm2).
    unfold _add_entries_to_feedly. simpl. by rewrite <- Hmiss. }
  destruct (decide (i ∈ existing)) as [Hin|Hout].
  - exfalso.
    apply (elem_of_select_existing 0 _ T existing i Hsel) in Hin
      as (j & it0 & -> & Hj & Hb). simpl in Hi.
    rewrite <- (same_label_belongs T (store b1) (store s1) j it it0) in Hb;
      [|by apply (grows_labels (λ _, True))|done..].
    rewrite Hnot in Hb; [done|by left].
  - rewrite Hf2 by done. apply Hframe.
    + by rewrite <- Hf1.
    + intros T' HT'. apply Hnot. by right.
Qed.

Lemma unshared_labels jira (st st' : list item) :
  item_label <$> st' = item_label <$> st → unshared jira st → unshared jira st'.
Proof.
  intros Hlabels Hun it T T' Hit HT HT' Hb Hb'.
  apply list_elem_of_lookup in Hit as [i Hi].
  assert (is_Some (st !! i)) as [it0 Hi0].
  { apply lookup_lt_is_Some. apply lookup_lt_Some in Hi.
    by rewrite <- (length_fmap item_label), <- Hlabels, length_fmap. }
  rewrite (same_label_belongs T st' st i it it0 Hlabels Hi Hi0) in Hb.
  rewrite (same_label_belongs T' st' st i it it0 Hlabels Hi Hi0) in Hb'.
  apply (Hun it0); [by eapply list_elem_of_lookup_2|done..].
Qed.

Lemma for_types_alike tm1 tm2 jira jira' :
  ∀ past s1 s2, in_run past s1 s2 →
    NoDup jira'.*1 → (∀ T, T ∈ jira'.*1 → T ∉ past) →
    (∀ T, T ∈ past → T ∈ jira.*1) → (∀ T, T ∈ jira'.*1 → T ∈ jira.*1) →
    unshared jira (store s1) →
    (for_types (order := o1) jira' tm1 s1).1
    = (for_types (order := o2) jira' tm2 s2).1 ∧
    alike_states (for_types (order := o1) jira' tm1 s1).2
                 (for_types (order := o2) jira' tm2 s2).2.
Proof.
  induction jira' as [|[T names] jira' IH];
    intros past s1 s2 Hrun Hnd Hnew Hpast Hsub Hun; simpl.
  { split; [done|]. by destruct Hrun. }
  rewrite fmap_cons in Hnd. apply NoDup_cons in Hnd as [HT Hnd].
  destruct (sync_type_alike tm1 tm2 past T names s1 s2 Hrun)
    as (Hstatus & Ha & Hnext).
  { intros i it Hi Hb T' HT'.
    destruct (belongs T' it) eqn:Hb'; [|done]. exfalso.
    assert (T = T') as ->.
    { apply (Hun it); [by eapply list_elem_of_lookup_2| |by apply Hpast|done..].
      apply Hsub. by left. }
    apply (Hnew T'); [by left|done]. }
  pose proof (sync_type_grows (order := o1) (λ _, True) T names tm1 s1
                (λ _ _, I)) as Hg.
  destruct (sync_type (order := o1) T names tm1 s1) as [st a],
           (sync_type (order := o2) T names tm2 s2) as [st' b].
  simpl in *. subst st'. destruct st; [|done..].
  apply (IH (T :: past)); [by apply Hnext|done|..].
  - intros T' HT' [->|Hin]%elem_of_cons; [done|].
    apply (Hnew T'); [by right|done].
  - intros T' [->|Hin]%elem_of_cons; [apply Hsub; by left|by apply Hpast].
  - intros T' HT'. apply Hsub. by right.
  - apply (unshared_labels jira (store s1)); [|done].
    by apply (grows_labels (λ _, True)).
Qed.

End TwoOrdersRun.

(** X14 ([test_mode], the dry run is faithful).  Under one enumeration
    order of the sets of names, a run in test mode and a run in real mode
    on the same data end the same way, leave the same lists and counts, and
    produce the same intents in the same order: what test mode renders is
    what real mode sends.  Under two orders, as in two processes, the names
    may be dealt out differently; provided that no type occurs twice and no
    list belongs to two types, the two runs still end the same way, with
    the same counts, and produce intents that are alike one by one: the
    same lists updated, the same labels created, as many entities in
    each. *)
Theorem dry_run_is_faithful jira_data feedly_data :
  (∀ order : SetOrder,
     let dry := sync_to_feedly jira_data feedly_data true in
     let real := sync_to_feedly jira_data feedly_data false in
     r_status dry = r_status real ∧ r_store dry = r_store real ∧
     r_counts dry = r_counts real ∧
     intents (r_trace dry) = intents (r_trace real)) ∧
  (∀ o1 o2 : SetOrder,
     NoDup jira_data.*1 → unshared jira_data feedly_data →
     let dry := sync_to_feedly (order := o1) jira_data feedly_data true in
     let real := sync_to_feedly (order := o2) jira_data feedly_data false in
     r_status dry = r_status real ∧ r_counts dry = r_counts real ∧
     Forall2 same_shape (r_store dry) (r_store real) ∧
     Forall2 alike (intents (r_trace dry)) (intents (r_trace real))).
Proof.
  split.
  - intros order. unfold sync_to_feedly.
    destruct (feedly_entities feedly_data) as [e|fe]; [done|].
    pose proof (for_types_modes jira_data
      (State feedly_data ∅ (initial_counts fe jira_data) [])
      (State feedly_data ∅ (initial_counts fe jira_data) [])) as Hmodes.
    destruct (for_types jira_data true _) as [st a],
             (for_types jira_data false _) as [st' b].
    destruct Hmodes as (? & ? & _ & ? & ?); [done|]. by simpl in *.
  - intros o1 o2 Hnd Hun. unfold sync_to_feedly.
    destruct (feedly_entities feedly_data) as [e|fe].
    { simpl. split; [done|]. split; [done|].
      split; [apply same_shape_refl|constructor]. }
    destruct (for_types_alike o1 o2 true false jira_data jira_data []
      (State feedly_data ∅ (initial_counts fe jira_data) [])
      (State feedly_data ∅ (initial_counts fe jira_data) []))
      as (Hstatus & Hst & Hc & Htr); try done.
    + split; [|done]. split; [apply same_shape_refl|]. split; [done|constructor].
    + intros T _. apply not_elem_of_nil.
    + intros T HT. by apply elem_of_nil in HT.
    + destruct (for_types (order := o1) jira_data true _) as [st a],
               (for_types (order := o2) jira_data false _) as [st' b].
      by simpl in *.
Qed.

Lemma dry_run_is_faithful_witness :
  NoDup [("Server", ["web-1"; "web-2"])].*1 ∧
  unshared [("Server", ["web-1"; "web-2"])] nearly_full ∧
  let dry := sync_to_feedly (order := elements_order)
               [("Server", ["web-1"; "web-2"])] nearly_full true in
  let real := sync_to_feedly (order := reversed_order)
                [("Server", ["web-1"; "web-2"])] nearly_full false in
  r_status dry = r_status real ∧ r_counts dry = r_counts real ∧
  Forall2 same_shape (r_store dry) (r_store real) ∧
  Forall2 alike (intents (r_trace dry)) (intents (r_trace real)).
Proof.
  assert (NoDup [("Server", ["web-1"; "web-2"])].*1) as Hnd.
  { simpl. apply NoDup_singleton. }
  assert (unshared [("Server", ["web-1"; "web-2"])] nearly_full) as Hun.
  { intros it T T' _ HT HT' _ _. simpl in HT, HT'.
    apply list_elem_of_singleton in HT, HT'. congruence. }
  split; [exact Hnd|]. split; [exact Hun|].
  exact (proj2 (dry_run_is_faithful [("Server", ["web-1"; "web-2"])] nearly_full)
               elements_order reversed_order Hnd Hun).
Defined.

(** ** [main] *)

Lemma first_missing_key_None config :
  first_missing_key config = None ↔ ∀ k, k ∈ config_keys → is_Some (config !! k).
Proof.
  unfold first_missing_key. rewrite head_None. split.
  - intros Hnil k Hk. destruct (config !! k) as [v|] eqn:Hv; [by eexists|].
    assert (k ∈ filter (λ k, config !! k = None) config_keys) as Hin
      by by apply list_elem_of_filter.
    rewrite Hnil in Hin. by apply elem_of_nil in Hin.
  - intros Hall. apply elem_of_nil_inv. intros k [Hk Hin]%list_elem_of_filter.
    destruct (Hall k Hin) as [v Hv]. congruence.
Qed.

Lemma first_missing_key_Some config k :
  first_missing_key config = Some k → k ∈ config_keys ∧ config !! k = None.
Proof.
  unfold first_missing_key. intros Hhead.
  assert (k ∈ filter (λ k, config !! k = None) config_keys) as Hin.
  { destruct (filter _ config_keys) as [|k' l]; [done|].
    injection Hhead as ->. by left. }
  by apply list_elem_of_filter in Hin as [? ?].
Qed.

Lemma full_config_complete k : k ∈ config_keys → is_Some (full_config !! k).
Proof.
  intros Hk. unfold config_keys in Hk.
  repeat (apply elem_of_cons in Hk as [->|Hk]; [by eexists|]).
  by apply elem_of_nil in Hk.
Qed.

Section MainFacts.
Context {order : SetOrder}.

(** X15 ([main], configuration errors come first): when [load_config]
    raises, or when one of the six keys is missing from the configuration,
    [main] stops before any request is made: no Jira page is asked for,
    Feedly is not asked for its lists, and nothing is synchronized,
    whatever the two remote systems would have answered. *)
Theorem main_stops_on_configuration config fuel server feedly_response :
  (∀ f, config = inl f →
     main config fuel server feedly_response
     = Some (MainReport (ConfigFailure f) [] false None)) ∧
  (∀ c key, config = inr c → key ∈ config_keys → c !! key = None →
     ∃ k, k ∈ config_keys ∧ c !! k = None ∧
       main config fuel server feedly_response
       = Some (MainReport (MissingConfigKey k) [] false None)).
Proof.
  split.
  - by intros f ->.
  - intros c key -> Hkey Hnone. simpl.
    destruct (first_missing_key c) as [k|] eqn:Hfirst.
    + apply first_missing_key_Some in Hfirst as [? ?]. by exists k.
    + destruct (proj1 (first_missing_key_None c) Hfirst key Hkey) as [v Hv].
      congruence.
Qed.

(** X16 ([main], from the Jira objects to the Feedly lists): with a
    complete configuration, a fetch that ends, and destination lists that
    all carry id, label and entities under distinct ids, [main] ends with a
    normal run of [sync_to_feedly] in real mode, and once its writes are
    applied every fetched object that has a type name and a label is the
    text of an entity in a list whose label starts with its type name. *)
Theorem main_covers_the_inventory new_id config fuel server feedly_data
    jira_entries requested entry T L :
  (∀ k, k ∈ config_keys → is_Some (config !! k)) →
  fetch_jira_data fuel server = Some (jira_entries, requested) →
  fresh_ids new_id → Forall well_formed feedly_data →
  NoDup (item_id <$> feedly_data) →
  entry ∈ jira_entries → contribution entry = Some (T, L) →
  ∃ r,
    main (inr config) fuel server (Some feedly_data)
    = Some (MainReport Synced requested true (Some r)) ∧
    r_status r = Normal ∧
    ∃ it e,
      it ∈ apply_intents new_id feedly_data (intents (r_trace r)) ∧
      belongs T it = true ∧ e ∈ entries it ∧ text e = Some L.
Proof.
  intros Hconfig Hfetch Hfresh Hwf Hids Hentry Hcontribution.
  exists (sync_to_feedly (process_entries jira_entries) feedly_data false).
  split.
  { simpl. rewrite (proj2 (first_missing_key_None config) Hconfig).
    by rewrite Hfetch. }
  destruct (sync_covers new_id feedly_data Hfresh Hwf Hids
              (process_entries jira_entries) false) as [Hnormal Hcov].
  split; [done|].
  assert (L ∈ labels_of T jira_entries) as HL.
  { apply elem_of_labels_of. by exists entry. }
  destruct (Hcov T (labels_of T jira_entries) L) as (it & Hit & Hb & Htext).
  { apply process_entries_elem_of. split; [done|].
    intros Hnil. rewrite Hnil in HL. by apply elem_of_nil in HL. }
  { done. }
  apply elem_of_list_to_set, list_elem_of_omap in Htext as (e & ? & ?).
  by exists it, e.
Qed.

Lemma sends_are_posts (ps : list payload) :
  Forall (λ p, is_create p = true) ps →
  ps ≫= (λ p, [send p; Sleep 1]) = ps ≫= (λ p, [Post p; Sleep 1]).
Proof.
  induction 1 as [|p ps Hp _ IH]; [done|].
  rewrite !bind_cons, IH. unfold send. by rewrite Hp.
Qed.

Lemma real_trace_shape jira_data feedly_data :
  r_trace (sync_to_feedly jira_data feedly_data false)
  = intents (r_trace (sync_to_feedly jira_data feedly_data false))
    ≫= (λ p, [send p; Sleep 1]).
Proof.
  apply (sync_trace_invariant
           (λ tr, tr = intents tr ≫= λ p, [send p; Sleep 1])); [done|].
  intros tr p Htr _. rewrite intents_app, intents_dispatch, bind_app.
  by rewrite <- Htr.
Qed.

Lemma create_labels_app tr1 tr2 :
  create_labels (tr1 ++ tr2) = create_labels tr1 ++ create_labels tr2.
Proof. unfold create_labels. by rewrite intents_app, omap_app. Qed.

Lemma length_create_labels tr :
  Forall (λ p, is_create p = true) (intents tr) →
  length (create_labels tr) = length (intents tr).
Proof.
  unfold create_labels. generalize (intents tr). intros ps Hps.
  induction Hps as [|p ps Hp _ IH]; [done|].
  destruct p; [done|]. simpl in *. by f_equal.
Qed.

(** With nothing at the destination and all counts at 0, the types get
    their lists one after the other, numbered from 1. *)
Lemma for_types_from_scratch jira jira' tm s :
  (∀ T, T ∈ jira'.*1 → T ∈ jira.*1) → safe_all jira s → store s = [] →
  NoDup jira'.*1 → (∀ T, T ∈ jira'.*1 → list_counts s !! T = Some 0) →
  ∃ s' tr, for_types jira' tm s = (Normal, s') ∧
    trace s' = trace s ++ tr ∧
    Forall (λ p, is_create p = true) (intents tr) ∧
    create_labels tr = labels_from_scratch jira'.
Proof.
  revert s.
  induction jira' as [|[T names] jira' IH]; intros s Hsub Hsafe Hstore Hnd Hzero.
  { exists s, []. simpl. rewrite app_nil_r. by repeat split. }
  rewrite fmap_cons in Hnd. apply NoDup_cons in Hnd as [HT Hnd].
  assert (list_counts s !! T = Some 0) as HzeroT by (apply Hzero; by left).
  destruct (sync_type_total
    (λ s1, creating (ceil50 (size (names_set names))) (trace s) s1 ∧
           naming T 0 (trace s) s1 ∧
           accounting T 0 (list_counts s) (trace s) s1)
    jira T names tm s)
    as (s1 & Hrun & Hsafe1 & (Hcreating & Hnaming & Hacc) & Hempty).
  { apply Hsub. by left. }
  { done. }
  { intros existing Hsel. rewrite Hstore in Hsel. injection Hsel as <-. split.
    - split; [|split].
      + split; [done|]. exists []. simpl. rewrite app_nil_r.
        split; [done|]. split; [constructor|]. by rewrite Hstore.
      + exists []. simpl. rewrite app_nil_r. by split.
      + exists []. simpl. rewrite app_nil_r. split; [done|].
        by rewrite insert_id.
    - intros s2 s3 _ (? & ? & ?) Hne Hit. split; [|split].
      + by eapply creating_step.
      + by eapply naming_step.
      + by eapply accounting_step. }
  destruct Hcreating as (Hstore1 & tr1 & Htr1 & Hall1 & Hcount1).
  destruct Hnaming as (tr2 & Htr2 & _ & Hlabels).
  destruct Hacc as (tr3 & Htr3 & Hcounts).
  assert (tr2 = tr1) as -> by (apply (app_inv_head (trace s)); congruence).
  rewrite Hempty, size_empty in Hcount1. change (ceil50 0) with 0 in Hcount1.
  rewrite length_create_labels, Nat.add_0_r in * by done.
  rewrite Hcount1 in Hlabels.
  destruct (IH s1) as (s' & tr' & Hrest & Htr' & Hall' & Hlabels');
    [|done..| |].
  { intros T' HT'. apply Hsub. by right. }
  { intros T' HT'. rewrite Hcounts, lookup_insert_ne.
    - apply Hzero. by right.
    - by intros ->. }
  exists s', (tr1 ++ tr'). simpl. rewrite Hrun.
  split; [done|]. split; [by rewrite Htr', Htr1, app_assoc|].
  rewrite intents_app. split; [by apply Forall_app|].
  rewrite create_labels_app, Hlabels, Hlabels'.
  reflexivity.
Qed.

(** X17 ([main], Feedly cannot be read): when the request for the Feedly
    lists fails, [fetch_feedly_data] returns the empty list and [main]
    carries on: the run ends normally and consists of one POST per new
    list, each followed by a pause of 1; no list is updated.  The lists
    created are, for each type in the order of [process_entries], those
    labelled "T-1", ..., "T-k", with k = ceil(n / 50) and [n] the number of
    distinct labels of the type. *)
Theorem main_without_destination config fuel server jira_entries requested :
  (∀ k, k ∈ config_keys → is_Some (config !! k)) →
  fetch_jira_data fuel server = Some (jira_entries, requested) →
  ∃ r,
    main (inr config) fuel server None
    = Some (MainReport Synced requested true (Some r)) ∧
    r_status r = Normal ∧
    r_trace r = intents (r_trace r) ≫= (λ p, [Post p; Sleep 1]) ∧
    Forall (λ p, is_create p = true) (intents (r_trace r)) ∧
    create_labels (r_trace r)
    = labels_from_scratch (process_entries jira_entries).
Proof.
  intros Hconfig Hfetch.
  exists (sync_to_feedly (process_entries jira_entries) [] false).
  split.
  { simpl. rewrite (proj2 (first_missing_key_None config) Hconfig).
    by rewrite Hfetch. }
  pose proof (real_trace_shape (process_entries jira_entries) []) as Hshape.
  unfold sync_to_feedly in *. simpl in *.
  destruct (for_types_from_scratch (process_entries jira_entries)
              (process_entries jira_entries) false
              (State [] ∅ (initial_counts ∅ (process_entries jira_entries)) []))
    as (s' & tr & Hrun & Htr & Hall & Hlabels); [done| |done| | |].
  { by apply initial_safe_all. }
  { apply process_entries_NoDup. }
  { intros T HT. simpl. by rewrite initial_counts_lookup. }
  unfold feedly_entities in *. simpl in *. rewrite Hrun in *. simpl in *.
  rewrite Htr in *. split; [done|]. split; [|done].
  by rewrite <- sends_are_posts.
Qed.

End MainFacts.

Lemma main_stops_on_configuration_witness :
  (inl InvalidJson : config_failure + gmap string string) = inl InvalidJson ∧
  main (inl InvalidJson) 0 page_one_of_two None
  = Some (MainReport (ConfigFailure InvalidJson) [] false None) ∧
  (inr (delete "api_key" full_config) : config_failure + gmap string string)
  = inr (delete "api_key" full_config) ∧
  "api_key" ∈ config_keys ∧ delete "api_key" full_config !! "api_key" = None ∧
  ∃ k, k ∈ config_keys ∧ delete "api_key" full_config !! k = None ∧
    main (inr (delete "api_key" full_config)) 0 page_one_of_two None
    = Some (MainReport (MissingConfigKey k) [] false None).
Proof.
  assert ("api_key" ∈ config_keys) as Hkey.
  { unfold config_keys. do 5 apply list_elem_of_further. apply list_elem_of_here. }
  assert (delete "api_key" full_config !! "api_key" = None) as Hnone
    by apply lookup_delete_eq.
  split; [reflexivity|]. split.
  { exact (proj1 (main_stops_on_configuration (inl InvalidJson) 0
                    page_one_of_two None) InvalidJson eq_refl). }
  split; [reflexivity|]. split; [exact Hkey|]. split; [exact Hnone|].
  exact (proj2 (main_stops_on_configuration
                  (inr (delete "api_key" full_config)) 0 page_one_of_two None)
               (delete "api_key" full_config) "api_key" eq_refl Hkey Hnone).
Defined.

Lemma main_covers_the_inventory_witness :
  (∀ k, k ∈ config_keys → is_Some (full_config !! k)) ∧
  fetch_jira_data 3 three_pages
  = Some (one_object 1 ++ one_object 2 ++ one_object 3, [1; 2; 3]) ∧
  fresh_ids longer_id ∧ Forall well_formed nearly_full ∧
  NoDup (item_id <$> nearly_full) ∧
  JiraEntry (Some (ObjectTypeDict (Some "Server"))) (Some "web-2")
  ∈ one_object 1 ++ one_object 2 ++ one_object 3 ∧
  contribution (JiraEntry (Some (ObjectTypeDict (Some "Server"))) (Some "web-2"))
  = Some ("Server", "web-2") ∧
  ∃ r,
    main (inr full_config) 3 three_pages (Some nearly_full)
    = Some (MainReport Synced [1; 2; 3] true (Some r)) ∧
    r_status r = Normal ∧
    ∃ it e,
      it ∈ apply_intents longer_id nearly_full (intents (r_trace r)) ∧
      belongs "Server" it = true ∧ e ∈ entries it ∧ text e = Some "web-2".
Proof.
  assert (fetch_jira_data 3 three_pages
          = Some (one_object 1 ++ one_object 2 ++ one_object 3, [1; 2; 3]))
    as Hfetch by reflexivity.
  assert (Forall well_formed nearly_full) as Hwf.
  { repeat constructor; by eexists. }
  assert (NoDup (item_id <$> nearly_full)) as Hids by apply NoDup_singleton.
  assert (JiraEntry (Some (ObjectTypeDict (Some "Server"))) (Some "web-2")
          ∈ one_object 1 ++ one_object 2 ++ one_object 3) as Hentry.
  { apply list_elem_of_further, list_elem_of_here. }
  assert (contribution
            (JiraEntry (Some (ObjectTypeDict (Some "Server"))) (Some "web-2"))
          = Some ("Server", "web-2")) as Hc by reflexivity.
  split; [exact full_config_complete|]. split; [exact Hfetch|].
  split; [exact longer_id_fresh|]. split; [exact Hwf|]. split; [exact Hids|].
  split; [exact Hentry|]. split; [exact Hc|].
  exact (main_covers_the_inventory longer_id full_config 3 three_pages
           nearly_full _ _ _ "Server" "web-2" full_config_complete Hfetch
           longer_id_fresh Hwf Hids Hentry Hc).
Defined.

Lemma main_without_destination_witness :
  (∀ k, k ∈ config_keys → is_Some (full_config !! k)) ∧
  fetch_jira_data 3 three_pages
  = Some (one_object 1 ++ one_object 2 ++ one_object 3, [1; 2; 3]) ∧
  ∃ r,
    main (inr full_config) 3 three_pages None
    = Some (MainReport Synced [1; 2; 3] true (Some r)) ∧
    r_status r = Normal ∧
    r_trace r = intents (r_trace r) ≫= (λ p, [Post p; Sleep 1]) ∧
    Forall (λ p, is_create p = true) (intents (r_trace r)) ∧
    create_labels (r_trace r)
    = labels_from_scratch
        (process_entries (one_object 1 ++ one_object 2 ++ one_object 3)).
Proof.
  assert (fetch_jira_data 3 three_pages
          = Some (one_object 1 ++ one_object 2 ++ one_object 3, [1; 2; 3]))
    as Hfetch by reflexivity.
  split; [exact full_config_complete|]. split; [exact Hfetch|].
  exact (main_without_destination full_config 3 three_pages _ _
           full_config_complete Hfetch).
Defined.

(** ** The order of the updates *)

Section Order.
Context {order : SetOrder}.

Lemma select_existing_bounds k st T ex :
  select_existing k st T = inr ex →
  Forall (λ i, k ≤ i) ex ∧
  ∀ pre i post, ex = pre ++ i :: post →
    Forall (λ j, j < i) pre ∧ Forall (λ j, i < j) post.
Proof.
  revert k ex. induction st as [|it st IH]; intros k ex Hex; simpl in Hex.
  { injection Hex as <-. split; [constructor|].
    intros pre i post Heq. by destruct pre. }
  destruct (item_label it) as [l|]; [|done].
  destruct (select_existing (S k) st T) as [|ex'] eqn:Hrest; [done|].
  injection Hex as <-. destruct (IH (S k) ex' Hrest) as [Hlow Hsplit].
  assert (Forall (λ i, k ≤ i) ex') as Hlow'.
  { eapply Forall_impl; [exact Hlow|]. simpl. lia. }
  destruct (startswith l T).
  - split; [constructor; [lia|done]|].
    intros [|j pre] i post Heq; simplify_eq/=.
    + split; [constructor|]. eapply Forall_impl; [exact Hlow|]. simpl. lia.
    + destruct (Hsplit pre i post eq_refl) as [Hpre Hpost].
      split; [|done]. constructor; [|done].
      rewrite Forall_app, Forall_cons in Hlow. destruct Hlow as (_ & ? & _). lia.
  - split; [done|]. done.
Qed.

Lemma increasing_snoc l i :
  increasing l → Forall (λ j, j < i) l → increasing (l ++ [i]).
Proof.
  intros Hl Hi pre x post Heq.
  destruct post as [|y post _] using rev_ind.
  - apply app_inj_tail in Heq as [<- <-]. done.
  - rewrite app_comm_cons, app_assoc in Heq.
    apply app_inj_tail in Heq as [-> _]. by apply (Hl pre x post).
Qed.

Lemma skipped_shrink s s' i :
  store s' !! i = store s !! i → new_entries s' ⊆ new_entries s →
  skipped s i → skipped s' i.
Proof.
  unfold skipped. intros -> Hsub.
  destruct (store s !! i) as [it|]; [|done].
  intros (ents & Hents & [?|Hin]); exists ents; split; auto.
  right. by etrans.
Qed.

Lemma packed_skipped i it ents id label tm s :
  store s !! i = Some it → item_entities it = Some ents → length ents < 50 →
  skipped (packed i it ents id label tm s) i.
Proof.
  intros Hi Hents Hlen. unfold skipped, packed. simpl.
  rewrite list_lookup_insert_eq by by eapply lookup_lt_Some.
  eexists. split; [done|].
  rewrite length_app, length_fmap.
  destruct (decide (size (new_entries s ∖ texts it) ≤ 50 - length ents))
    as [Hfits|Hmore].
  - right. intros x [Hx Hnot]%elem_of_difference.
    rewrite texts_with_entities by done. apply elem_of_union.
    destruct (decide (x ∈ texts it)) as [|Hout]; [by left|].
    destruct Hnot. apply elem_of_list_to_set. unfold to_pack.
    rewrite take_ge by (rewrite length_enum; lia).
    apply elem_of_enum. by apply elem_of_difference.
  - left. unfold to_pack. rewrite length_take, length_enum. lia.
Qed.

Lemma in_order_step T existing t0 tm s s' :
  (∀ pre i post, existing = pre ++ i :: post →
     Forall (λ j, j < i) pre ∧ Forall (λ j, i < j) post) →
  in_order existing t0 s → new_entries s ≠ ∅ →
  iteration existing T tm s = (Normal, s') → in_order existing t0 s'.
Proof.
  intros Hsorted (tr & Htr & Hinc & Hpassed) Hne Hit.
  apply iteration_cases in Hit as
    [(pre & i & post & it & ents & id & label & Hex & Hpre & Hi & Hents & Hlen
      & Hroom & _ & _ & _ & ->)
    |[(c & _ & _ & _ & ->)|(e & ? & _)]]; [| |done|done].
  - assert (i ∈ existing) as Hiex.
    { rewrite Hex. apply elem_of_app. right. by left. }
    assert (¬ skipped s i) as Hnot.
    { unfold skipped. rewrite Hi. intros (ents' & Hents' & [Hfull|Hsub]).
      - simplify_eq. lia.
      - apply Hroom. apply set_eq; intros x.
        rewrite elem_of_difference, elem_of_empty. split; [|done].
        intros [Hx Hout]. by apply Hout, Hsub. }
    destruct (Hsorted pre i post Hex) as [Hbefore Hafter].
    eexists (tr ++ dispatch tm (UpdateList i _ _ _)). simpl.
    split; [by rewrite Htr, app_assoc|].
    rewrite update_targets_snoc.
    split.
    + apply increasing_snoc; [done|]. apply Forall_forall. intros j Hj.
      destruct (decide (j < i)) as [|Hge]; [done|].
      destruct Hnot. apply (Hpassed j i); [done..|lia].
    + intros j i' Hj Hi' Hle.
      destruct (decide (i' = i)) as [->|Hne'].
      { by apply packed_skipped. }
      assert (skipped s i') as Hskip.
      { apply elem_of_app in Hj as [Hj| ->%list_elem_of_singleton];
          [by apply (Hpassed j i')|].
        rewrite Hex in Hi'.
        apply elem_of_app in Hi' as [Hin|[->|Hin]%elem_of_cons]; [|done|].
        - rewrite Forall_forall in Hpre. by apply Hpre.
        - rewrite Forall_forall in Hafter. specialize (Hafter i' Hin). lia. }
      eapply skipped_shrink; [| |exact Hskip]; simpl.
      * by rewrite list_lookup_insert_ne.
      * apply subseteq_difference_l. reflexivity.
  - eexists (tr ++ dispatch tm (CreateList _ _)). simpl.
    split; [by rewrite Htr, app_assoc|].
    rewrite update_targets_snoc, app_nil_r. split; [done|].
    intros j i' Hj Hi' Hle.
    eapply skipped_shrink; [| |by apply (Hpassed j i')]; simpl; [done|].
    apply subseteq_difference_l. reflexivity.
Qed.

(** X18 ([_add_entries_to_feedly], the lists are filled in the order of
    the destination): in the turn of a type, the updates target lists at
    strictly increasing positions of [feedly_data]; the scan restarts from
    the first list after each update, but a list once passed over or
    updated is never the one chosen again. *)
Theorem updates_in_destination_order object_type names test_mode s :
  ∃ tr, trace (sync_type object_type names test_mode s).2 = trace s ++ tr ∧
        increasing (update_targets tr).
Proof.
  unfold sync_type.
  destruct (select_existing 0 (store s) object_type) as [e|existing] eqn:Hsel.
  { exists []. simpl. rewrite app_nil_r. split; [done|].
    intros pre i post Heq. by destruct pre. }
  destruct (select_existing_bounds 0 _ _ _ Hsel) as [_ Hsorted].
  destruct (add_entries_invariant (in_order existing (trace s))
              existing object_type test_mode
              (λ s1 s2, in_order_step object_type existing (trace s) test_mode
                                      s1 s2 Hsorted))
    with (s := State (store s) (missing existing names (store s))
                     (list_counts s) (trace s))
    as (s1 & (tr & Htr & Hinc & _) & (_ & _ & Htrace) & _).
  - exists []. simpl. rewrite app_nil_r. split; [done|]. split.
    + intros pre i post Heq. by destruct pre.
    + by intros j i ?%elem_of_nil.
  - exists tr. by rewrite <- Htrace.
Qed.

End Order.

(** ** The labels of one turn *)

Section Labels.
Context {order : SetOrder}.

Lemma string_app_inj (a b c : string) : a +:+ b = a +:+ c → b = c.
Proof.
  induction a as [|x a IH]; [done|].
  change (String x (a +:+ b) = String x (a +:+ c) → b = c).
  intros [= Heq]. by apply IH.
Qed.

Lemma nth_label_inj T c : Inj (=) (=) (nth_label T c).
Proof.
  intros k k' Heq. unfold nth_label in Heq.
  apply string_app_inj, string_app_inj in Heq.
  apply (inj pretty) in Heq. lia.
Qed.

(** X19 ([_create_new_feedly_list], fresh labels within a turn): the
    lists created in the turn of one type carry pairwise distinct labels,
    each starting with the name of the type. *)
Theorem created_labels_distinct object_type names test_mode s c :
  list_counts s !! object_type = Some c →
  ∃ tr, trace (sync_type object_type names test_mode s).2 = trace s ++ tr ∧
        NoDup (create_labels tr) ∧
        Forall (λ l, startswith l object_type = true) (create_labels tr).
Proof.
  intros Hc.
  destruct (sync_type_naming object_type names test_mode s c Hc)
    as (tr & Htr & Hlabels).
  exists tr. split; [done|]. rewrite Hlabels. split.
  - pose proof (nth_label_inj object_type c) as Hinj.
    apply (NoDup_fmap_2 (nth_label object_type c)), NoDup_seq.
  - apply Forall_fmap, Forall_forall. intros k _. apply startswith_app.
Qed.

End Labels.

Lemma created_labels_distinct_witness :
  list_counts lone_turn !! "A" = Some 1 ∧
  ∃ tr, trace (sync_type "A" ["x"; "y"] false lone_turn).2
        = trace lone_turn ++ tr ∧
        NoDup (create_labels tr) ∧
        Forall (λ l, startswith l "A" = true) (create_labels tr).
Proof.
  assert (list_counts lone_turn !! "A" = Some 1) as Hc by reflexivity.
  split; [exact Hc|].
  exact (created_labels_distinct "A" ["x"; "y"] false lone_turn 1 Hc).
Defined.
